(** * zmod-sdk: the declarative command-line parser [cli-parser.ts]

    A shallow embedding of [src/qjs-tools/src/cli/cli-parser.ts] and the
    properties of its argument handling and configuration validation.

    Conventions of the embedding:
    - a JavaScript array of strings is a [list string], read by index with
      stdpp's [!!] ([None] is JavaScript's [undefined]);
    - a function that may throw returns a [jsres]: [ExitError m] is the
      construction of the source's [ExitError] (which prints the failure
      payload and calls [std.exit(1)]), [TypeError] is a native exception
      raised by the engine (a method call on [undefined] or [null]);
    - a [for] loop whose body moves its own index is a recursion on a bound
      of the number of iterations left, together with the index;
    - the engine's [Number] and the library's [JSON5.parse] are parameters
      of the functions that call them. *)

From Stdlib Require Import Floats.SpecFloat.
From stdpp Require Import base strings list gmap pretty.

Open Scope string_scope.
Open Scope nat_scope.
Open Scope list_scope.

(** ** Outcomes of JavaScript code *)

Inductive jsres (A : Type) : Type :=
| Ret (a : A)
| ExitError (message : string)
| TypeError.
Arguments Ret {A} a.
Arguments ExitError {A} message.
Arguments TypeError {A}.

#[global] Instance jsres_ret : MRet jsres := λ A a, Ret a.
#[global] Instance jsres_bind : MBind jsres := λ A B k m,
  match m with
  | Ret a => k a
  | ExitError msg => ExitError msg
  | TypeError => TypeError
  end.

(** ** Strings *)

(** [s.startsWith(p)] *)
Definition startsWith (s p : string) : bool := String.prefix p s.

(** [s.slice(n)] for [0 <= n] *)
Fixpoint slice (n : nat) (s : string) : string :=
  match n, s with
  | 0, _ => s
  | S n', String _ s' => slice n' s'
  | S _, EmptyString => EmptyString
  end.

(** [a === b] on strings *)
Definition streq (a b : string) : bool := bool_decide (a = b).

(** [xs.includes(x)] on an array of strings *)
Definition includes (xs : list string) (x : string) : bool :=
  existsb (streq x) xs.

(** [xs.join(sep)] *)
Definition join (sep : string) (xs : list string) : string := String.concat sep xs.

Definition LF : string := String (Ascii.ascii_of_nat 10) EmptyString.
Definition TAB : string := String (Ascii.ascii_of_nat 9) EmptyString.

(** ** The reserved tokens *)

Definition isConfigToken (arg : string) : bool :=
  streq arg "--config" || streq arg "-c".
Definition isVersionToken (arg : string) : bool :=
  streq arg "--version" || streq arg "-v".
Definition isHelpToken (arg : string) : bool :=
  streq arg "--help" || streq arg "-h".

(** ** Locating the configuration *)

(** The loop of [checkConfFlag]: [rest] are the elements from index [i] on. *)
Fixpoint checkConfFlag_loop (cliArgs rest : list string) (i : nat)
    (hasConfFlag : bool) : jsres bool :=
  match rest with
  | [] => Ret hasConfFlag
  | arg :: rest' =>
      if isConfigToken arg then
        if length cliArgs =? i + 1 then
          ExitError "The --config|-c flag must be set with a value"
        else checkConfFlag_loop cliArgs rest' (i + 1) true
      else checkConfFlag_loop cliArgs rest' (i + 1) hasConfFlag
  end.

Definition checkConfFlag (cliArgs : list string) : jsres unit :=
  hasConfFlag ← checkConfFlag_loop cliArgs cliArgs 0 false;
  if negb hasConfFlag then ExitError "The --config|-c flag must be set"
  else Ret tt.

(** The [forEach] at the head of [cliConfParser].  [cliArgs[i + 1]] is the
    read [cliArgs !! (i + 1)]; on [undefined] the call of [startsWith]
    raises a [TypeError]. *)
Fixpoint locatorScan (cliArgs rest : list string) (i : nat)
    (cliConfig : string) : jsres string :=
  match rest with
  | [] => Ret cliConfig
  | arg :: rest' =>
      let isConfigFlag := isConfigToken arg in
      let hasNextArg := i + 1 <=? length cliArgs in
      if isConfigFlag && hasNextArg then
        match cliArgs !! (i + 1) with
        | None => TypeError
        | Some nextArg =>
            if negb (startsWith nextArg "-")
            then locatorScan cliArgs rest' (i + 1) nextArg
            else locatorScan cliArgs rest' (i + 1) cliConfig
        end
      else locatorScan cliArgs rest' (i + 1) cliConfig
  end.

Definition noConfigMessage : string :=
  "No config file found, please add a config with the --config | -c flag".

Definition extractLocator (cliArgs : list string) : jsres string :=
  cliConfig ← locatorScan cliArgs cliArgs 0 "";
  if streq cliConfig "" then ExitError noConfigMessage else Ret cliConfig.

(** [removeConfFlag] and [removeHelpFlag] have the same loop, written once
    here over the test [isFlag] of the token to drop.  The branch that drops
    the flag executes [i++] and then [continue], which runs the loop's own
    [i++]: the index moves by two. *)
Fixpoint removeFlag_loop (isFlag : string → bool) (inputCliArgs : list string)
    (fuel i : nat) (isRemove : bool) (newCliArgs : list string)
    : list string :=
  match fuel with
  | 0 => newCliArgs
  | S fuel' =>
      match inputCliArgs !! i with
      | None => newCliArgs
      | Some arg =>
          if isFlag arg && negb isRemove
          then removeFlag_loop isFlag inputCliArgs fuel' (i + 1 + 1) true
                 newCliArgs
          else removeFlag_loop isFlag inputCliArgs fuel' (i + 1) isRemove
                 (newCliArgs ++ [arg])
      end
  end.

Definition removeConfFlag (inputCliArgs : list string) : list string :=
  removeFlag_loop isConfigToken inputCliArgs (length inputCliArgs) 0 false [].

(** ** The data of the parser *)

(** JavaScript numbers are IEEE 754 doubles. *)
Definition number : Type := spec_float.
Definition NaN : number := S754_nan.

(** [FlagValueType = string | number | boolean].  [VUndefined] is the value
    of an array read past the end; [inputParser] never stores it (see
    [inputParser_values_defined]). *)
Inductive FlagValueType : Type :=
| VString (s : string)
| VNumber (n : number)
| VBoolean (b : bool)
| VUndefined.

(** The [type] of a flag: ["string" | "number" | "boolean"]. *)
Inductive FlagKind : Type := KString | KNumber | KBoolean.

Definition kindName (k : FlagKind) : string :=
  match k with
  | KString => "string"
  | KNumber => "number"
  | KBoolean => "boolean"
  end.

Record FlagConfig : Type := {
  flag_type : FlagKind;
  flag_default : FlagValueType;
  flag_description : string;
  flag_alias : string
}.

(** A [Record<string, T>] is the list of its own properties in the order of
    [Object.keys]; a JavaScript object has every key once. *)
Definition Object_keys {T} (o : list (string * T)) : list string := o.*1.

Fixpoint prop {T} (o : list (string * T)) (key : string) : option T :=
  match o with
  | [] => None
  | (k, v) :: o' => if streq k key then Some v else prop o' key
  end.

Record ArgType : Type := { arg_name : string }.

Record CommandType : Type := {
  cmd_description : string;
  cmd_args : list ArgType;
  cmd_flags : list (string * FlagConfig)
}.

Record CliConfType : Type := {
  conf_name : string;
  conf_version : string;
  conf_description : string;
  conf_commands : list (string * CommandType)
}.

Inductive Action : Type := ActCommand | ActHelp | ActVersion.

Record CommandResult : Type := {
  name : string;
  args : list string;
  flags : gmap string FlagValueType
}.

Record InputActionType : Type := {
  success : bool;
  action : Action;
  output : string;
  command : option CommandResult
}.

(** [result.command!.flags[flag] = value], an assignment to a property of
    the plain object [flags].  It creates or replaces the own property
    [flag], for every key but [__proto__]: that key is an accessor of
    [Object.prototype], so the assignment calls its setter, which ignores a
    value that is not an object (a flag value is a string, a number or a
    boolean) and leaves the own properties of [flags] as they are. *)
Definition setFlag (flag : string) (value : FlagValueType)
    (result : InputActionType) : InputActionType :=
  if streq flag "__proto__" then result
  else
    {| success := success result; action := action result;
       output := output result;
       command := (λ c, {| name := name c; args := args c;
                           flags := <[flag := value]> (flags c) |})
                  <$> command result |}.

(** [result.command!.args.push(arg)] *)
Definition pushArg (arg : string) (result : InputActionType) : InputActionType :=
  {| success := success result; action := action result;
     output := output result;
     command := (λ c, {| name := name c; args := args c ++ [arg];
                         flags := flags c |})
                <$> command result |}.

(** [result.action = "version"; result.output = o] *)
Definition switchToVersion (o : string) (result : InputActionType)
    : InputActionType :=
  {| success := success result; action := ActVersion; output := o;
     command := command result |}.

Definition versionOutput (cliConf : CliConfType) : string :=
  conf_name cliConf +:+ "@" +:+ conf_version cliConf.

(** ** Reserved flags of the parser *)

Definition versionAloneMessage : string :=
  "The --version|-v flag must be set alone".
Definition helpAloneMessage : string :=
  "The --help|-h flag must be set alone".

Fixpoint isVersion_loop (rest : list string) : jsres unit :=
  match rest with
  | [] => Ret tt
  | arg :: rest' =>
      if isVersionToken arg then ExitError versionAloneMessage
      else isVersion_loop rest'
  end.

Definition isVersion (inputCliArgs : list string) : jsres bool :=
  match inputCliArgs with
  | [] => Ret false
  | firstArg :: _ =>
      if streq firstArg "--version"
         || (streq firstArg "-v" && (length inputCliArgs =? 1))
      then Ret true
      else isVersion_loop inputCliArgs;; Ret false
  end.

Fixpoint isArgsIncludeHelpFlag_loop (rest : list string)
    (isDetectHelpFlag : bool) : jsres bool :=
  match rest with
  | [] => Ret isDetectHelpFlag
  | arg :: rest' =>
      if isHelpToken arg then
        if isDetectHelpFlag then ExitError helpAloneMessage
        else isArgsIncludeHelpFlag_loop rest' true
      else isArgsIncludeHelpFlag_loop rest' isDetectHelpFlag
  end.

Definition isArgsIncludeHelpFlag (inputCliArgs : list string) : jsres bool :=
  isArgsIncludeHelpFlag_loop inputCliArgs false.

Definition removeHelpFlag (inputCliArgs : list string) : list string :=
  removeFlag_loop isHelpToken inputCliArgs (length inputCliArgs) 0 false [].

(** ** Flags of a command *)

Definition checkFlagNotEempty (flag : string) : jsres unit :=
  if streq flag "" then ExitError ("The flag " +:+ flag +:+ " is not valid")
  else Ret tt.

Definition hasFlag (arg : string) (commandConf : CommandType) : jsres string :=
  if startsWith arg "--" then
    let flag := slice 2 arg in
    checkFlagNotEempty flag;;
    if negb (includes (Object_keys (cmd_flags commandConf)) flag)
    then ExitError ("The flag " +:+ flag +:+ " is not a valid flag")
    else Ret flag
  else Ret "".

(** The reverse mapping of [hasAliasFlag]: [Map.set] in the order of
    [Object.keys], a later flag with the same alias replacing an earlier. *)
Definition aliasMapFlag (commandConf : CommandType) : gmap string string :=
  foldl (λ m kv, <[flag_alias kv.2 := kv.1]> m) ∅ (cmd_flags commandConf).

Definition hasAliasFlag (arg : string) (commandConf : CommandType)
    (command : string) : jsres string :=
  let flagName := "" in
  if startsWith arg "-" then
    let aliasFlag := slice 1 arg in
    checkFlagNotEempty aliasFlag;;
    match aliasMapFlag commandConf !! aliasFlag with
    | None =>
        ExitError ("The flag " +:+ aliasFlag +:+ " is not a valid flag in "
                   +:+ command)
    | Some flagName => Ret flagName
    end
  else Ret flagName.

(** [hasFlag(arg, commandConf) || hasAliasFlag(arg, commandConf, command)]:
    the empty string is the only falsy string. *)
Definition resolveFlag (arg : string) (commandConf : CommandType)
    (command : string) : jsres string :=
  flag ← hasFlag arg commandConf;
  if streq flag "" then hasAliasFlag arg commandConf command else Ret flag.

Definition valueKind (k : FlagKind) : bool :=
  includes ["string"; "number"] (kindName k).

Definition checkFlag (inputArgsIndex : nat) (inputFlag : string)
    (inputCommandConf : CommandType) (inputCliArgs : list string)
    (inputCommandName : string) : jsres unit :=
  let isFlagInConf :=
    find (streq inputFlag) (Object_keys (cmd_flags inputCommandConf)) in
  (* [!isFlagInConf]: [undefined] and the empty string are falsy *)
  if match isFlagInConf with None => true | Some f => streq f "" end then
    ExitError ("The flag " +:+ inputFlag +:+ " is not a valid flag in command: "
               +:+ inputCommandName +:+ "}")
  else
    match prop (cmd_flags inputCommandConf) inputFlag with
    | None => TypeError
    | Some flagConf =>
        if valueKind (flag_type flagConf)
           && (length inputCliArgs =? inputArgsIndex + 1)
        then ExitError ("The flag --" +:+ inputFlag
                        +:+ " must have a value in command: "
                        +:+ inputCommandName)
        else Ret tt
    end.

Definition checkCommand (command : string) (cliConf : CliConfType)
    : jsres unit :=
  if negb (includes (Object_keys (conf_commands cliConf)) command)
  then ExitError ("The command " +:+ command +:+ " is not a valid command")
  else Ret tt.

(** ** Help texts *)

Definition formatLine (cell cell2 : string) : string :=
  cell +:+ TAB +:+ TAB +:+ cell2.

Definition helpDoc (cliConf : CliConfType) : string :=
  let commandDocs : list string :=
    (map (λ kv, formatLine (conf_name cliConf +:+ " " +:+ kv.1)
                  (cmd_description kv.2)) (conf_commands cliConf)
     ++ [formatLine (conf_name cliConf +:+ " help") "search for help on <term>";
         formatLine (conf_name cliConf +:+ " help <term>")
           "search for help on <term>"])%list in
  conf_name cliConf +:+ " - " +:+ conf_description cliConf +:+ LF +:+ LF
  +:+ "USAGE:" +:+ LF
  +:+ join LF commandDocs +:+ LF +:+ LF
  +:+ "GLOBAL OPTIONS:" +:+ LF
  +:+ "--help, -h     show help (default: false)" +:+ LF
  +:+ "--version, -v  show version (default: false)" +:+ LF +:+ LF
  +:+ versionOutput cliConf.

Definition commandHelpDoc (act : InputActionType) (cliConf : CliConfType)
    : jsres string :=
  match command act with
  | None => TypeError
  | Some c =>
      match prop (conf_commands cliConf) (name c) with
      | None => TypeError
      | Some commandConf =>
          let argsDoc :=
            map (λ a, "<" +:+ arg_name a +:+ ">") (cmd_args commandConf) in
          let flagDocs :=
            map (λ kv, TAB +:+ "--" +:+ kv.1 +:+ TAB +:+ TAB
                       +:+ flag_description kv.2) (cmd_flags commandConf) in
          let optionSectionDocs :=
            if 0 <? length flagDocs
            then LF +:+ "Options:" +:+ LF +:+ join LF flagDocs +:+ LF
            else "" in
          Ret ("Usage: " +:+ LF +:+ "  " +:+ conf_name cliConf +:+ " "
               +:+ name c +:+ " " +:+ join " " argsDoc +:+ LF +:+ LF
               +:+ "  " +:+ cmd_description commandConf +:+ "."
               +:+ optionSectionDocs +:+ LF)
      end
  end.

(** ** The argument parser *)

Section Parser.

(** [Number(text)], the numeric conversion of the engine. *)
Variable Number : string → number.

(** [Number(value)] for a possibly [undefined] value. *)
Definition toNumber (value : option string) : number :=
  match value with
  | Some text => Number text
  | None => NaN
  end.

Definition parseFlag (flagConf : FlagConfig) (cliArgs : list string) (i : nat)
    : FlagValueType * nat :=
  if includes ["number"; "string"] (kindName (flag_type flagConf)) then
    let value := cliArgs !! (i + 1) in
    if streq (kindName (flag_type flagConf)) "number"
    then (VNumber (toNumber value), i + 1)
    else (match value with Some text => VString text | None => VUndefined end,
          i + 1)
  else (VBoolean true, i).

(** The loop of [inputParser] over [cliArgs = inputCliArgs.slice(1)]; the
    index after an iteration is [newArgIndex + 1]. *)
Fixpoint parseArgs_loop (cliConf : CliConfType) (commandConf : CommandType)
    (command : string) (cliArgs : list string) (fuel i : nat)
    (result : InputActionType) : jsres InputActionType :=
  match fuel with
  | 0 => Ret result
  | S fuel' =>
      match cliArgs !! i with
      | None => Ret result
      | Some arg =>
          if isVersionToken arg
          then Ret (switchToVersion (versionOutput cliConf) result)
          else
            flag ← resolveFlag arg commandConf command;
            if negb (streq flag "") then
              checkFlag i flag commandConf cliArgs command;;
              match prop (cmd_flags commandConf) flag with
              | None => TypeError
              | Some flagConf =>
                  let '(value, newArgIndex) := parseFlag flagConf cliArgs i in
                  parseArgs_loop cliConf commandConf command cliArgs fuel'
                    (newArgIndex + 1) (setFlag flag value result)
              end
            else
              parseArgs_loop cliConf commandConf command cliArgs fuel'
                (i + 1) (pushArg arg result)
      end
  end.

Definition versionResult (cliConf : CliConfType) : InputActionType :=
  {| success := true; action := ActVersion; output := versionOutput cliConf;
     command := None |}.

Definition globalHelpResult (cliConf : CliConfType) : InputActionType :=
  {| success := false; action := ActHelp; output := helpDoc cliConf;
     command := None |}.

Definition initialResult (isHelpe : bool) (command : string)
    : InputActionType :=
  {| success := true; action := if isHelpe then ActHelp else ActCommand;
     output := "";
     command := Some {| name := command; args := []; flags := ∅ |} |}.

Definition inputParser (inputCliArgs : list string) (cliConf : CliConfType)
    : jsres InputActionType :=
  v ← isVersion inputCliArgs;
  if (v : bool) then Ret (versionResult cliConf)
  else
    isHelpe ← isArgsIncludeHelpFlag inputCliArgs;
    let inputCliArgs :=
      if (isHelpe : bool) then removeHelpFlag inputCliArgs else inputCliArgs in
    match inputCliArgs with
    | [] => Ret (globalHelpResult cliConf)
    | command :: cliArgs =>
        checkCommand command cliConf;;
        match prop (conf_commands cliConf) command with
        | None => TypeError
        | Some commandConf =>
            parseArgs_loop cliConf commandConf command cliArgs
              (length cliArgs) 0 (initialResult isHelpe command)
        end
    end.

(** ** The process: lines 593-604 *)

(** What the process writes to standard output: the failure payload of an
    [ExitError], or the result of [inputParser]. *)
Inductive payload : Type :=
| Failure (message : string)
| Result (result : InputActionType).

(** How the process ends: with an exit status after writing a payload, or
    with an uncaught native exception. *)
Inductive process : Type :=
| Exit (status : nat) (printed : payload)
| Uncaught.

Definition setOutput (o : string) (result : InputActionType)
    : InputActionType :=
  {| success := success result; action := action result; output := o;
     command := command result |}.

Definition isHelpAction (a : Action) : bool :=
  match a with ActHelp => true | _ => false end.

(** Lines 597-599: a help result that carries a command gets its text. *)
Definition renderHelp (cliConf : CliConfType) (result : InputActionType)
    : jsres InputActionType :=
  if isHelpAction (action result) && bool_decide (is_Some (command result))
  then doc ← commandHelpDoc result cliConf; Ret (setOutput doc result)
  else Ret result.

(** Lines 596-604, for a configuration that [cliConfParser] returned. *)
Definition run (cliConf : CliConfType) (inputCliArgs : list string) : process :=
  match inputParser inputCliArgs cliConf ≫= renderHelp cliConf with
  | Ret result =>
      Exit (if negb (success result) then 1 else 0) (Result result)
  | ExitError message => Exit 1 (Failure message)
  | TypeError => Uncaught
  end.

End Parser.

(** ** Values of the configuration object

    What [JSON5.parse] returns, and [undefined] for a read that finds
    nothing.  An object is the list of its own properties in the order of
    [Object.keys]. *)

#[local] Set Warnings "-register-all".
Inductive jsval : Type :=
| JUndefined
| JNull
| JBool (b : bool)
| JNum (n : number)
| JStr (s : string)
| JArr (items : list jsval)
| JObj (props : list (string * jsval)).

Definition typeof (v : jsval) : string :=
  match v with
  | JUndefined => "undefined"
  | JNull => "object"
  | JBool _ => "boolean"
  | JNum _ => "number"
  | JStr _ => "string"
  | JArr _ => "object"
  | JObj _ => "object"
  end.

Definition isArray (v : jsval) : bool :=
  match v with JArr _ => true | _ => false end.

(** The index keys ["0"], ["1"], ... of an array or a string of length [n]. *)
Definition indexKeys (n : nat) : list string := map pretty (seq 0 n).

Definition arrayIndex (n : nat) (key : string) : option nat :=
  find (λ i, streq (pretty i) key) (seq 0 n).

Definition numberOfNat (n : nat) : number :=
  binary_normalize 53 1024 (Z.of_nat n) 0 false.

Definition charAt (s : string) (i : nat) : jsval :=
  match String.get i s with
  | Some c => JStr (String c EmptyString)
  | None => JUndefined
  end.

(** [Object.keys(v)] *)
Definition ownKeys (v : jsval) : jsres (list string) :=
  match v with
  | JUndefined | JNull => TypeError
  | JBool _ | JNum _ => Ret []
  | JStr s => Ret (indexKeys (String.length s))
  | JArr items => Ret (indexKeys (length items))
  | JObj props => Ret (Object_keys props)
  end.

(** [Object.prototype.hasOwnProperty.call(v, key)] *)
Definition hasOwnProperty (v : jsval) (key : string) : jsres bool :=
  match v with
  | JUndefined | JNull => TypeError
  | JBool _ | JNum _ => Ret false
  | JStr s =>
      Ret (streq key "length" || includes (indexKeys (String.length s)) key)
  | JArr items =>
      Ret (streq key "length" || includes (indexKeys (length items)) key)
  | JObj props => Ret (includes (Object_keys props) key)
  end.

(** [v[key]] for an own property; [cliConfParser] reads a property only
    after it has found the key among the own ones, so inherited properties
    are left out. *)
Definition get (v : jsval) (key : string) : jsres jsval :=
  match v with
  | JUndefined | JNull => TypeError
  | JBool _ | JNum _ => Ret JUndefined
  | JStr s =>
      if streq key "length" then Ret (JNum (numberOfNat (String.length s)))
      else Ret (from_option (charAt s) JUndefined
                  (arrayIndex (String.length s) key))
  | JArr items =>
      if streq key "length" then Ret (JNum (numberOfNat (length items)))
      else Ret (default JUndefined (arrayIndex (length items) key ≫= (items !!.)))
  | JObj props => Ret (default JUndefined (prop props key))
  end.

(** [xs.includes(v)] for an array of strings and any value: [===] holds
    only between a string and the same string. *)
Definition includesValue (xs : list string) (v : jsval) : bool :=
  match v with JStr s => includes xs s | _ => false end.

(** [xs.forEach(f)] with a callback that may throw. *)
Fixpoint forEach {A} (f : A → jsres unit) (xs : list A) : jsres unit :=
  match xs with
  | [] => Ret tt
  | x :: xs' => f x;; forEach f xs'
  end.

(** ** Validation of the configuration: lines 93-228 of [cliConfParser] *)

Definition allowedTypes : list string := ["string"; "number"; "boolean"].

(** The callback of [commandConf.args.forEach]. *)
Definition checkArgConf (commandName : string) (arg : jsval) : jsres unit :=
  has ← hasOwnProperty arg "name";
  if negb has then
    ExitError ("The command arg must have a name property in commands."
               +:+ commandName)
  else
    n ← get arg "name";
    if negb (streq (typeof n) "string") then
      ExitError ("The command arg name property must be a string in commands."
                 +:+ commandName)
    else Ret tt.

(** The callback of [Object.keys(commandConf.flags).forEach]. *)
Definition checkFlagConf (commandName : string) (flagsObj : jsval)
    (flagName : string) : jsres unit :=
  let where_ := "commands." +:+ commandName +:+ ".flags." +:+ flagName in
  flagConf ← get flagsObj flagName;
  has ← hasOwnProperty flagConf "type";
  if negb has then
    ExitError ("The command flag must have a type property in commands."
               +:+ commandName)
  else
  ty ← get flagConf "type";
  if negb (includesValue allowedTypes ty) then
    ExitError ("The command flag type property must be a string, number or boolean in "
               +:+ where_)
  else
  has ← hasOwnProperty flagConf "default";
  if negb has then
    ExitError ("The command flag must have a default property in " +:+ where_)
  else
  d ← get flagConf "default";
  if negb (includes allowedTypes (typeof d)) then
    ExitError ("The command flag default property must be a string, number or boolean in "
               +:+ where_)
  else
  has ← hasOwnProperty flagConf "description";
  if negb has then
    ExitError ("The command flag must have a description property in "
               +:+ where_)
  else
  d ← get flagConf "description";
  if negb (streq (typeof d) "string") then
    ExitError ("The command flag description property must be a string in "
               +:+ where_)
  else
  has ← hasOwnProperty flagConf "alias";
  if negb has then
    ExitError ("The command flag must have an alias property in " +:+ where_)
  else
  a ← get flagConf "alias";
  if negb (streq (typeof a) "string") then
    ExitError ("The command flag alias property must be a string in "
               +:+ where_)
  else Ret tt.

(** The callback of [Object.keys(cliConfObj.commands).forEach]. *)
Definition checkCommandConf (commands : jsval) (commandName : string)
    : jsres unit :=
  commandConf ← get commands commandName;
  keys ← ownKeys commandConf;
  if negb (includes keys "description") then
    ExitError ("the commands." +:+ commandName
               +:+ ".description property in config was required")
  else
  d ← get commandConf "description";
  if negb (streq (typeof d) "string") then
    ExitError ("the commands." +:+ commandName
               +:+ ".description property must be a string")
  else
  has ← hasOwnProperty commandConf "args";
  if negb has then
    ExitError ("The command must have an args property in commands."
               +:+ commandName)
  else
  argsVal ← get commandConf "args";
  match argsVal with
  | JArr items =>
      (if 0 <? length items then forEach (checkArgConf commandName) items
       else Ret tt);;
      has ← hasOwnProperty commandConf "flags";
      if negb has then
        ExitError ("The command must have an flags property in commands."
                   +:+ commandName)
      else
      flagsObj ← get commandConf "flags";
      if negb (streq (typeof flagsObj) "object") then
        ExitError ("The command flags property must be an object in commands."
                   +:+ commandName)
      else
      flagNames ← ownKeys flagsObj;
      if 0 <? length flagNames
      then forEach (checkFlagConf commandName flagsObj) flagNames
      else Ret tt
  | _ =>
      ExitError ("The command args property must be an array in commands."
                 +:+ commandName)
  end.

Definition validateConf (cliConfObj : jsval) : jsres unit :=
  has ← hasOwnProperty cliConfObj "name";
  if negb has then ExitError "Config must have a name property" else
  n ← get cliConfObj "name";
  if negb (streq (typeof n) "string")
  then ExitError "The name property must be a string" else
  has ← hasOwnProperty cliConfObj "version";
  if negb has then ExitError "Config must have a version property" else
  v ← get cliConfObj "version";
  if negb (streq (typeof v) "string")
  then ExitError "The version property must be a string" else
  has ← hasOwnProperty cliConfObj "description";
  if negb has then ExitError "Config must have a description property" else
  d ← get cliConfObj "description";
  if negb (streq (typeof d) "string")
  then ExitError "The description property must be a string" else
  has ← hasOwnProperty cliConfObj "commands";
  if negb has then ExitError "Config must have a commands property" else
  commands ← get cliConfObj "commands";
  if negb (streq (typeof commands) "object")
  then ExitError "The commands property must be an object" else
  commandNames ← ownKeys commands;
  forEach (checkCommandConf commands) commandNames.

(** ** The validated object as a [CliConfType]

    [cliConfParser] returns the parsed object itself ([cliConfObj as
    CliConfType]); the parser then reads it through the declared types. *)

Definition asString (v : jsval) : option string :=
  match v with JStr s => Some s | _ => None end.

Definition asFlagValue (v : jsval) : option FlagValueType :=
  match v with
  | JStr s => Some (VString s)
  | JNum n => Some (VNumber n)
  | JBool b => Some (VBoolean b)
  | _ => None
  end.

Definition asFlagKind (v : jsval) : option FlagKind :=
  match v with
  | JStr s =>
      if streq s "string" then Some KString
      else if streq s "number" then Some KNumber
      else if streq s "boolean" then Some KBoolean
      else None
  | _ => None
  end.

(** The value of a read, when it neither throws nor is [undefined]. *)
Definition field (v : jsval) (key : string) : option jsval :=
  match get v key with
  | Ret JUndefined => None
  | Ret x => Some x
  | _ => None
  end.

(** The own properties of a value as a [Record<string, T>]. *)
Definition asRecord {T} (conv : jsval → option T) (v : jsval)
    : option (list (string * T)) :=
  match ownKeys v with
  | Ret keys => mapM (λ k, x ← field v k ≫= conv; Some (k, x)) keys
  | _ => None
  end.

Definition asFlagConfig (v : jsval) : option FlagConfig :=
  ty ← field v "type" ≫= asFlagKind;
  d ← field v "default" ≫= asFlagValue;
  descr ← field v "description" ≫= asString;
  a ← field v "alias" ≫= asString;
  Some {| flag_type := ty; flag_default := d; flag_description := descr;
          flag_alias := a |}.

Definition asArgType (v : jsval) : option ArgType :=
  n ← field v "name" ≫= asString; Some {| arg_name := n |}.

Definition asCommandType (v : jsval) : option CommandType :=
  descr ← field v "description" ≫= asString;
  a ← field v "args" ≫= (λ x, match x with
                               | JArr items => mapM asArgType items
                               | _ => None
                               end);
  f ← field v "flags" ≫= asRecord asFlagConfig;
  Some {| cmd_description := descr; cmd_args := a; cmd_flags := f |}.

Definition asCliConfType (v : jsval) : option CliConfType :=
  n ← field v "name" ≫= asString;
  ver ← field v "version" ≫= asString;
  descr ← field v "description" ≫= asString;
  c ← field v "commands" ≫= asRecord asCommandType;
  Some {| conf_name := n; conf_version := ver; conf_description := descr;
          conf_commands := c |}.

(** ** The whole program *)

Section Program.

Variable Number : string → number.

(** [JSON5.parse(text)]; [None] when it throws. *)
Variable JSON5_parse : string → option jsval.

Definition cliConfParser (cliArgs : list string) : jsres jsval :=
  cliConfig ← extractLocator cliArgs;
  match JSON5_parse cliConfig with
  | None => ExitError "Invalid config"
  | Some cliConfObj => validateConf cliConfObj;; Ret cliConfObj
  end.

(** Lines 593-604 for [cliArgs = scriptArgs.slice(1)]. *)
Definition main (cliArgs : list string) : process :=
  match checkConfFlag cliArgs;; cliConfParser cliArgs with
  | Ret cliConfObj =>
      match asCliConfType cliConfObj with
      | Some cliConf => run Number cliConf (removeConfFlag cliArgs)
      | None => Uncaught
      end
  | ExitError message => Exit 1 (Failure message)
  | TypeError => Uncaught
  end.

End Program.

(** ** The validation rules, as the specification words them

    Every required field at every level must exist and have its declared
    type.  [findings] lists all the fields of a configuration that break
    this rule, in the traversal order name, version, description, commands
    and, for each command in turn, description, args, flags and, for each
    flag in turn, type, default, description, alias.  A field is named by
    its path from the root. *)

Inductive problem : Type := Missing | Mistyped.

Inductive finding : Type :=
| Violation (path : list string) (what : problem)
| NullAccess (path : list string).      (* [null] where an object is read *)

(** The field [key] of the value [obj] found at [path] must exist and
    satisfy [ok]. *)
Definition require (ok : jsval → bool) (path : list string) (obj : jsval)
    (key : string) : list finding :=
  match hasOwnProperty obj key with
  | Ret true =>
      match get obj key with
      | Ret v => if ok v then [] else [Violation (path ++ [key]) Mistyped]
      | _ => [NullAccess path]
      end
  | Ret false => [Violation (path ++ [key]) Missing]
  | _ => [NullAccess path]
  end.

Definition isStringValue (v : jsval) : bool := streq (typeof v) "string".
Definition isObjectValue (v : jsval) : bool := streq (typeof v) "object".
Definition isFlagTypeValue (v : jsval) : bool := includesValue allowedTypes v.
Definition isPrimitiveValue (v : jsval) : bool :=
  includes allowedTypes (typeof v).

(** The value of the field [key], or [undefined]. *)
Definition valueAt (obj : jsval) (key : string) : jsval :=
  match get obj key with Ret v => v | _ => JUndefined end.

Definition flagFindings (commandName : string) (flagsObj : jsval)
    (flagName : string) : list finding :=
  let path := ["commands"; commandName; "flags"; flagName] in
  let flagConf := valueAt flagsObj flagName in
  require isFlagTypeValue path flagConf "type"
  ++ require isPrimitiveValue path flagConf "default"
  ++ require isStringValue path flagConf "description"
  ++ require isStringValue path flagConf "alias".

Definition argFindings (commandName : string) (i : nat) (arg : jsval)
    : list finding :=
  require isStringValue ["commands"; commandName; "args"; pretty i] arg "name".

Definition argsFindings (commandName : string) (argsVal : jsval)
    : list finding :=
  match argsVal with
  | JArr items => mjoin (imap (argFindings commandName) items)
  | _ => []
  end.

Definition flagsFindings (commandName : string) (flagsObj : jsval)
    : list finding :=
  if isObjectValue flagsObj then
    match ownKeys flagsObj with
    | Ret flagNames => flagNames ≫= flagFindings commandName flagsObj
    | _ => [NullAccess ["commands"; commandName; "flags"]]
    end
  else [].

Definition commandFindings (commands : jsval) (commandName : string)
    : list finding :=
  let path := ["commands"; commandName] in
  let commandConf := valueAt commands commandName in
  require isStringValue path commandConf "description"
  ++ require isArray path commandConf "args"
  ++ argsFindings commandName (valueAt commandConf "args")
  ++ require isObjectValue path commandConf "flags"
  ++ flagsFindings commandName (valueAt commandConf "flags").

Definition commandsFindings (commands : jsval) : list finding :=
  if isObjectValue commands then
    match ownKeys commands with
    | Ret commandNames => commandNames ≫= commandFindings commands
    | _ => [NullAccess ["commands"]]
    end
  else [].

Definition findings (cliConfObj : jsval) : list finding :=
  require isStringValue [] cliConfObj "name"
  ++ require isStringValue [] cliConfObj "version"
  ++ require isStringValue [] cliConfObj "description"
  ++ require isObjectValue [] cliConfObj "commands"
  ++ commandsFindings (valueAt cliConfObj "commands").

(** The text of the diagnostic for a field. *)
Definition diagnostic (path : list string) (what : problem) : string :=
  match path, what with
  | [f], Missing => "Config must have a " +:+ f +:+ " property"
  | ["commands"], Mistyped => "The commands property must be an object"
  | [f], Mistyped => "The " +:+ f +:+ " property must be a string"
  | ["commands"; c; "description"], Missing =>
      "the commands." +:+ c +:+ ".description property in config was required"
  | ["commands"; c; "description"], Mistyped =>
      "the commands." +:+ c +:+ ".description property must be a string"
  | ["commands"; c; "args"], Missing =>
      "The command must have an args property in commands." +:+ c
  | ["commands"; c; "args"], Mistyped =>
      "The command args property must be an array in commands." +:+ c
  | ["commands"; c; "flags"], Missing =>
      "The command must have an flags property in commands." +:+ c
  | ["commands"; c; "flags"], Mistyped =>
      "The command flags property must be an object in commands." +:+ c
  | ["commands"; c; "args"; _; "name"], Missing =>
      "The command arg must have a name property in commands." +:+ c
  | ["commands"; c; "args"; _; "name"], Mistyped =>
      "The command arg name property must be a string in commands." +:+ c
  | ["commands"; c; "flags"; _; "type"], Missing =>
      "The command flag must have a type property in commands." +:+ c
  | ["commands"; c; "flags"; f; "type"], Mistyped =>
      "The command flag type property must be a string, number or boolean in "
      +:+ join "." ["commands"; c; "flags"; f]
  | ["commands"; c; "flags"; f; "default"], Missing =>
      "The command flag must have a default property in "
      +:+ join "." ["commands"; c; "flags"; f]
  | ["commands"; c; "flags"; f; "default"], Mistyped =>
      "The command flag default property must be a string, number or boolean in "
      +:+ join "." ["commands"; c; "flags"; f]
  | ["commands"; c; "flags"; f; "alias"], Missing =>
      "The command flag must have an alias property in "
      +:+ join "." ["commands"; c; "flags"; f]
  | ["commands"; c; "flags"; f; k], Missing =>
      "The command flag must have a " +:+ k +:+ " property in "
      +:+ join "." ["commands"; c; "flags"; f]
  | ["commands"; c; "flags"; f; k], Mistyped =>
      "The command flag " +:+ k +:+ " property must be a string in "
      +:+ join "." ["commands"; c; "flags"; f]
  | _, _ => ""
  end.

(** What the validator does when [fs] are the rule's findings in order. *)
Definition firstFinding (fs : list finding) : jsres unit :=
  match fs with
  | [] => Ret tt
  | Violation path what :: _ => ExitError (diagnostic path what)
  | NullAccess _ :: _ => TypeError
  end.

(** ** Notions used to state the properties *)

(** Removing the first token that passes [isFlag], and nothing else. *)
Fixpoint removeFirst (isFlag : string → bool) (tokens : list string)
    : list string :=
  match tokens with
  | [] => []
  | a :: rest => if isFlag a then rest else a :: removeFirst isFlag rest
  end.

(** Removing the first token that passes [isFlag] together with the token
    that follows it. *)
Fixpoint removeFirstAndNext (isFlag : string → bool) (tokens : list string)
    : list string :=
  match tokens with
  | [] => []
  | a :: rest =>
      if isFlag a then tail rest else a :: removeFirstAndNext isFlag rest
  end.

(** The tokens that [inputParser] goes on with after the help flag. *)
Definition afterHelp (isHelpe : bool) (inputCliArgs : list string)
    : list string :=
  if isHelpe then removeFirstAndNext isHelpToken inputCliArgs
  else inputCliArgs.

(** The number of tokens that pass [isFlag]. *)
Definition occurrences (isFlag : string → bool) (tokens : list string) : nat :=
  length (filter (λ a, isFlag a = true) tokens).

(** The occurrence of [--config]/[-c] at index [i] yields the value [t]:
    the token after it exists and does not start with a dash. *)
Definition yieldsLocator (cliArgs : list string) (i : nat) (t : string)
    : Prop :=
  ∃ a, cliArgs !! i = Some a ∧ isConfigToken a = true
       ∧ cliArgs !! (i + 1) = Some t ∧ startsWith t "-" = false.

(** The index of the last occurrence of [--config]/[-c]. *)
Definition lastConfigIndex (cliArgs : list string) : option nat :=
  last (filter (λ i, from_option isConfigToken false (cliArgs !! i) = true)
          (seq 0 (length cliArgs))).

(** "Last occurrence wins": the locator is the token after the last
    occurrence of the flag, and is left empty when that token starts with a
    dash. *)
Definition lastOccurrenceWins (cliArgs : list string) : Prop :=
  ∀ i t, lastConfigIndex cliArgs = Some i → cliArgs !! (i + 1) = Some t →
    locatorScan cliArgs cliArgs 0 ""
    = Ret (if startsWith t "-" then "" else t).

(** A token names the flag [flag] of a command: it is [--flag], or [-alias]
    for an alias that the reverse mapping sends to [flag]. *)
Definition namesFlag (commandConf : CommandType) (token flag : string)
    : Prop :=
  (token = "--" +:+ flag ∧ flag ∈ Object_keys (cmd_flags commandConf))
  ∨ (∃ a, token = "-" +:+ a ∧ aliasMapFlag commandConf !! a = Some flag).

(** The flag that a token names, as the specification words it, without
    reference to the functions of the parser: [--<name>] names the flag
    declared under the non-empty name [<name>]; [-<alias>], with one dash
    and a non-empty [<alias>], names the flag declared with that alias,
    the last one in the order of the declarations when several flags have
    it; any other token names no flag. *)
Definition flagNamed (commandConf : CommandType) (token : string)
    : option string :=
  if startsWith token "--" then
    let flagName := slice 2 token in
    if negb (streq flagName "")
       && bool_decide (flagName ∈ (cmd_flags commandConf).*1)
    then Some flagName else None
  else if startsWith token "-" then
    let aliasName := slice 1 token in
    if streq aliasName "" then None
    else fst <$> last (filter (λ kv, flag_alias kv.2 = aliasName)
                         (cmd_flags commandConf))
  else None.

(** The result [r], whose command is [c], with the flag [flag] bound to
    [value] and nothing else changed. *)
Definition withFlag (flag : string) (value : FlagValueType)
    (r : InputActionType) (c : CommandResult) : InputActionType :=
  {| success := success r; action := action r; output := output r;
     command := Some {| name := name c; args := args c;
                        flags := <[flag := value]> (flags c) |} |}.

(** At index [i] the loop of [inputParser] reads [n] tokens for the flag
    [flag]: it goes on at index [i + n] from the result with [flag] bound
    to [value], and every result of the loop keeps that binding unless a
    token from index [i + n] on names the flag again. *)
Definition consumesFor (Number : string → number) (cliConf : CliConfType)
    (commandConf : CommandType) (cmd : string) (cliArgs : list string)
    (i n : nat) (flag : string) (value : FlagValueType)
    (r : InputActionType) (c : CommandResult) : Prop :=
  parseArgs_loop Number cliConf commandConf cmd cliArgs
    (length cliArgs - i) i r
  = parseArgs_loop Number cliConf commandConf cmd cliArgs
      (length cliArgs - (i + n)) (i + n) (withFlag flag value r c)
  ∧ ∀ rf cf,
      parseArgs_loop Number cliConf commandConf cmd cliArgs
        (length cliArgs - i) i r = Ret rf →
      command rf = Some cf →
      (∀ j t, i + n ≤ j → cliArgs !! j = Some t →
              flagNamed commandConf t ≠ Some flag) →
      flags cf !! flag = Some value.

(** The scan of the tokens after the command, as the specification words
    it: a token that resolves to a flag of type string or number consumes
    the next token as its value, a boolean flag consumes nothing, any other
    token is a positional argument. *)
Section Tokens.

Variable Number : string → number.

Definition notInCommandMessage (flag command : string) : string :=
  "The flag " +:+ flag +:+ " is not a valid flag in command: " +:+ command
  +:+ "}".

Definition needsValueMessage (flag command : string) : string :=
  "The flag --" +:+ flag +:+ " must have a value in command: " +:+ command.

Fixpoint parseTokens (cliConf : CliConfType) (commandConf : CommandType)
    (command : string) (tokens : list string) (result : InputActionType)
    : jsres InputActionType :=
  match tokens with
  | [] => Ret result
  | arg :: rest =>
      if isVersionToken arg
      then Ret (switchToVersion (versionOutput cliConf) result)
      else
        flag ← resolveFlag arg commandConf command;
        if streq flag "" then
          parseTokens cliConf commandConf command rest (pushArg arg result)
        else
          match prop (cmd_flags commandConf) flag with
          | None => ExitError (notInCommandMessage flag command)
          | Some flagConf =>
              match flag_type flagConf, rest with
              | KBoolean, _ =>
                  parseTokens cliConf commandConf command rest
                    (setFlag flag (VBoolean true) result)
              | _, [] => ExitError (needsValueMessage flag command)
              | KString, value :: rest' =>
                  parseTokens cliConf commandConf command rest'
                    (setFlag flag (VString value) result)
              | KNumber, value :: rest' =>
                  parseTokens cliConf commandConf command rest'
                    (setFlag flag (VNumber (Number value)) result)
              end
          end
  end.

End Tokens.

(** The flags supplied by the tokens of a command, in order, as the
    specification words it: a token that names a flag supplies it, and the
    token after a flag of type string or number is its value, whatever it
    looks like, not a flag; every other token is a positional argument. *)
Fixpoint suppliedFlags (commandConf : CommandType) (tokens : list string)
    : list string :=
  match tokens with
  | [] => []
  | arg :: rest =>
      match flagNamed commandConf arg with
      | Some flag =>
          match flag_type <$> prop (cmd_flags commandConf) flag, rest with
          | Some KBoolean, _ | None, _ =>
              flag :: suppliedFlags commandConf rest
          | Some _, [] => [flag]
          | Some _, _ :: rest' => flag :: suppliedFlags commandConf rest'
          end
      | None => suppliedFlags commandConf rest
      end
  end.

(** ** Sample configurations *)



(** A configuration with several invalid fields. *)
Definition severalInvalidJson : jsval :=
  JObj [("name", JStr "app"); ("version", JStr "1.0");
        ("description", JStr "d");
        ("commands",
         JObj [("init",
                JObj [("description", JStr "x"); ("args", JArr []);
                      ("flags",
                       JObj [("force",
                              JObj [("type", JStr "int");
                                    ("default", JNull)])])]);
               ("build", JObj [("args", JStr "none")])])].


Definition forceFlagJson : jsval :=
  JObj [("type", JStr "boolean"); ("default", JBool false);
        ("description", JStr "f"); ("alias", JStr "f")].

(** The configuration of the specification's examples. *)
Definition appJson : jsval :=
  JObj [("name", JStr "app"); ("version", JStr "1.0");
        ("description", JStr "d");
        ("commands",
         JObj [("init",
                JObj [("description", JStr "x"); ("args", JArr []);
                      ("flags", JObj [("force", forceFlagJson)])])])].

(** Its text, as given after [--config]. *)
Definition appText : string :=
  "{name:'app',version:'1.0',description:'d',commands:{init:{description:'x',args:[],flags:{force:{type:'boolean',default:false,description:'f',alias:'f'}}}}}".

Definition appConf : CliConfType :=
  {| conf_name := "app"; conf_version := "1.0"; conf_description := "d";
     conf_commands :=
       [("init",
         {| cmd_description := "x"; cmd_args := [];
            cmd_flags :=
              [("force", {| flag_type := KBoolean;
                            flag_default := VBoolean false;
                            flag_description := "f"; flag_alias := "f" |})]
         |})] |}.

(** A command [build] with a string flag, a number flag and a boolean flag,
    each with a default. *)
Definition buildJson : jsval :=
  JObj [("name", JStr "tool"); ("version", JStr "2.0");
        ("description", JStr "t");
        ("commands",
         JObj [("build",
                JObj [("description", JStr "b");
                      ("args", JArr [JObj [("name", JStr "target")]]);
                      ("flags",
                       JObj [("out", JObj [("type", JStr "string");
                                           ("default", JStr "dist");
                                           ("description", JStr "o");
                                           ("alias", JStr "o")]);
                             ("jobs", JObj [("type", JStr "number");
                                            ("default", JNum (numberOfNat 1));
                                            ("description", JStr "j");
                                            ("alias", JStr "j")]);
                             ("verbose", JObj [("type", JStr "boolean");
                                               ("default", JBool false);
                                               ("description", JStr "v");
                                               ("alias", JStr "V")])])])])].

Definition buildCommand : CommandType :=
  {| cmd_description := "b"; cmd_args := [{| arg_name := "target" |}];
     cmd_flags :=
       [("out", {| flag_type := KString; flag_default := VString "dist";
                   flag_description := "o"; flag_alias := "o" |});
        ("jobs", {| flag_type := KNumber;
                    flag_default := VNumber (numberOfNat 1);
                    flag_description := "j"; flag_alias := "j" |});
        ("verbose", {| flag_type := KBoolean; flag_default := VBoolean false;
                       flag_description := "v"; flag_alias := "V" |})] |}.

Definition buildConf : CliConfType :=
  {| conf_name := "tool"; conf_version := "2.0"; conf_description := "t";
     conf_commands := [("build", buildCommand)] |}.

(** A configuration that the validator accepts and in which a flag has the
    empty string as its name. *)
Definition emptyNameJson : jsval :=
  JObj [("name", JStr "app"); ("version", JStr "1.0");
        ("description", JStr "d");
        ("commands",
         JObj [("init",
                JObj [("description", JStr "x"); ("args", JArr []);
                      ("flags",
                       JObj [("", JObj [("type", JStr "boolean");
                                        ("default", JBool false);
                                        ("description", JStr "e");
                                        ("alias", JStr "x")])])])])].

Definition emptyNameConf : CliConfType :=
  {| conf_name := "app"; conf_version := "1.0"; conf_description := "d";
     conf_commands :=
       [("init",
         {| cmd_description := "x"; cmd_args := [];
            cmd_flags :=
              [("", {| flag_type := KBoolean; flag_default := VBoolean false;
                       flag_description := "e"; flag_alias := "x" |})] |})]
  |}.

(** A configuration that the validator accepts and in which a flag is
    declared under the name [__proto__], as an own property of [flags]. *)
Definition protoNameJson : jsval :=
  JObj [("name", JStr "app"); ("version", JStr "1.0");
        ("description", JStr "d");
        ("commands",
         JObj [("init",
                JObj [("description", JStr "x"); ("args", JArr []);
                      ("flags",
                       JObj [("__proto__",
                              JObj [("type", JStr "boolean");
                                    ("default", JBool false);
                                    ("description", JStr "p");
                                    ("alias", JStr "p")])])])])].

Definition protoNameCommand : CommandType :=
  {| cmd_description := "x"; cmd_args := [];
     cmd_flags :=
       [("__proto__",
         {| flag_type := KBoolean; flag_default := VBoolean false;
            flag_description := "p"; flag_alias := "p" |})] |}.

Definition protoNameConf : CliConfType :=
  {| conf_name := "app"; conf_version := "1.0"; conf_description := "d";
     conf_commands := [("init", protoNameCommand)] |}.




(** A numeric conversion to run the parser on examples.  It is not the
    engine's [Number], which the theorems take as a parameter: it reads a
    string of decimal digits as the engine does (the empty string is 0) and
    gives [NaN] for any other text, also for the signed, fractional,
    exponent, hexadecimal and space-padded literals that the engine reads
    as numbers.  The witnesses and examples use it only on strings of
    digits and on words, where the two agree. *)
Fixpoint digitsValue (acc : nat) (s : string) : option nat :=
  match s with
  | EmptyString => Some acc
  | String c s' =>
      match Ascii.is_nat c with
      | Some d => digitsValue (10 * acc + d) s'
      | None => None
      end
  end.

Definition decimalNumber (s : string) : number :=
  from_option numberOfNat NaN (digitsValue 0 s).

(** ** The kind of a stored value *)

(** A value of the kind that the flag declares, read from the tokens. *)
Definition valueOfKind (Number : string → number) (tokens : list string)
    (k : FlagKind) (v : FlagValueType) : Prop :=
  match k with
  | KBoolean => v = VBoolean true
  | KString => ∃ t, t ∈ tokens ∧ v = VString t
  | KNumber => ∃ t, t ∈ tokens ∧ v = VNumber (Number t)
  end.

Definition flagsTyped (Number : string → number) (commandConf : CommandType)
    (tokens : list string) (r : InputActionType) : Prop :=
  ∀ c k v, command r = Some c → flags c !! k = Some v →
    ∃ flagConf, prop (cmd_flags commandConf) k = Some flagConf
                ∧ valueOfKind Number tokens (flag_type flagConf) v.

(** ** Parts of a text *)

(** [part] occurs in [text]. *)
Definition containsText (text part : string) : Prop :=
  ∃ pre post, text = pre +:+ part +:+ post.

(** [text] ends with [part]. *)
Definition endsWithText (text part : string) : Prop :=
  ∃ pre, text = pre +:+ part.

(** ** A result under another action *)

(** [result.action = a] *)
Definition setAction (a : Action) (result : InputActionType)
    : InputActionType :=
  {| success := success result; action := a; output := output result;
     command := command result |}.

(** * Properties *)

(** ** Basic facts *)

(** Reduction of the sequencing of outcomes, and of nothing else. *)
Ltac jsimpl := cbn [mbind jsres_bind mret jsres_ret negb andb orb].
Ltac jsimpl_in H := cbn [mbind jsres_bind mret jsres_ret negb andb orb] in H.

Lemma streq_true (a b : string) : streq a b = true ↔ a = b.
Proof. unfold streq. apply bool_decide_eq_true. Qed.

Lemma streq_false (a b : string) : streq a b = false ↔ a ≠ b.
Proof. unfold streq. apply bool_decide_eq_false. Qed.

Lemma streq_refl (a : string) : streq a a = true.
Proof. by apply streq_true. Qed.

Lemma append_assoc (s1 s2 s3 : string) :
  (s1 +:+ s2) +:+ s3 = s1 +:+ s2 +:+ s3.
Proof.
  induction s1 as [|c s1 IH]; [done|].
  change (String c ((s1 +:+ s2) +:+ s3) = String c (s1 +:+ s2 +:+ s3)).
  by rewrite IH.
Qed.

Lemma includes_elem_of (xs : list string) (x : string) :
  includes xs x = true ↔ x ∈ xs.
Proof.
  unfold includes. rewrite existsb_exists. split.
  - intros (y & Hy & Heq). apply streq_true in Heq. subst.
    by apply list_elem_of_In.
  - intros Hx. exists x. split; [by apply list_elem_of_In | apply streq_refl].
Qed.

Lemma prop_is_Some {T} (o : list (string * T)) (key : string) :
  is_Some (prop o key) ↔ key ∈ Object_keys o.
Proof.
  unfold Object_keys. induction o as [|[k v] o IH]; simpl.
  - split; [intros [? ?]; discriminate | intros H; inversion H].
  - destruct (streq k key) eqn:E.
    + apply streq_true in E. subst. split; [intros _; left | eauto].
    + apply streq_false in E. rewrite IH. split.
      * intros H. by right.
      * intros H. inversion H; subst; [congruence | done].
Qed.

Lemma bind_Ret {A B} (m : jsres A) (k : A → jsres B) (b : B) :
  m ≫= k = Ret b ↔ ∃ a, m = Ret a ∧ k a = Ret b.
Proof.
  destruct m; simpl; split; try (intros (? & ? & ?)); try discriminate; eauto.
  by simplify_eq.
Qed.

(** ** The locator: bounds of the reads *)

(** The bounds test of the scan holds at every index of the array. *)
Lemma hasNextArg_vacuous (cliArgs : list string) (i : nat) :
  i < length cliArgs → (i + 1 <=? length cliArgs) = true.
Proof. intros H. apply Nat.leb_le. lia. Qed.

Lemma checkConfFlag_loop_Ret (cliArgs rest : list string) (i : nat)
    (b b' : bool) :
  checkConfFlag_loop cliArgs rest i b = Ret b' →
  ∀ j a, rest !! j = Some a → isConfigToken a = true →
         length cliArgs ≠ i + j + 1.
Proof.
  revert i b. induction rest as [|arg rest IH]; intros i b Hloop j a Hj Ha.
  - by rewrite lookup_nil in Hj.
  - simpl in Hloop. destruct j as [|j]; simpl in Hj.
    + simplify_eq. rewrite Ha in Hloop.
      destruct (length cliArgs =? i + 1) eqn:E; [discriminate|].
      apply Nat.eqb_neq in E. lia.
    + destruct (isConfigToken arg).
      * destruct (length cliArgs =? i + 1); [discriminate|].
        specialize (IH _ _ Hloop j a Hj Ha). lia.
      * specialize (IH _ _ Hloop j a Hj Ha). lia.
Qed.

Lemma checkConfFlag_next (cliArgs : list string) :
  checkConfFlag cliArgs = Ret tt →
  ∀ i a, cliArgs !! i = Some a → isConfigToken a = true →
         i + 1 < length cliArgs.
Proof.
  unfold checkConfFlag. intros H i a Hi Ha.
  apply bind_Ret in H as (b & Hloop & _).
  pose proof (checkConfFlag_loop_Ret _ _ _ _ _ Hloop i a Hi Ha).
  apply lookup_lt_Some in Hi. lia.
Qed.

Lemma locatorScan_returns (cliArgs rest : list string) (i : nat) (c : string) :
  (∀ j a, rest !! j = Some a → isConfigToken a = true →
          i + j + 1 < length cliArgs) →
  ∃ locator, locatorScan cliArgs rest i c = Ret locator.
Proof.
  revert i c. induction rest as [|arg rest IH]; intros i c Hin; simpl.
  - eauto.
  - assert (Hrest : ∀ j a, rest !! j = Some a → isConfigToken a = true →
                           i + 1 + j + 1 < length cliArgs).
    { intros j a Hj Ha. specialize (Hin (S j) a Hj Ha). lia. }
    destruct (isConfigToken arg) eqn:Harg; simpl; [|by apply IH].
    specialize (Hin 0 arg eq_refl Harg).
    destruct (i + 1 <=? length cliArgs); [|by apply IH].
    destruct (lookup_lt_is_Some_2 cliArgs (i + 1)) as [next Hnext]; [lia|].
    rewrite Hnext. destruct (negb (startsWith next "-")); by apply IH.
Qed.

Lemma locatorScan_reads_in_bounds_aux (cliArgs : list string) :
  checkConfFlag cliArgs = Ret tt →
  ∃ locator, locatorScan cliArgs cliArgs 0 "" = Ret locator.
Proof.
  intros Hcheck. apply locatorScan_returns. intros j a Hj Ha. simpl.
  by eapply checkConfFlag_next.
Qed.

(** Without the presence check the scan does read past the end: the test
    [i + 1 <= cliArgs.length] lets the last index through. *)
Example locatorScan_unguarded :
  locatorScan ["-c"] ["-c"] 0 "" = TypeError.
Proof. reflexivity. Qed.

(** C10.  When the presence check [checkConfFlag] has succeeded, every
    occurrence of [--config]/[-c] has a token after it, so each read of
    [cliArgs[i + 1]] by the extraction scan is in bounds and the scan
    returns a locator instead of raising; this although its own bounds test
    [i + 1 <= cliArgs.length] holds at every index. *)
Theorem locatorScan_reads_in_bounds (cliArgs : list string) :
  checkConfFlag cliArgs = Ret tt →
  (∀ i a, cliArgs !! i = Some a → isConfigToken a = true →
          (i + 1 <=? length cliArgs) = true ∧ is_Some (cliArgs !! (i + 1)))
  ∧ (∃ locator, locatorScan cliArgs cliArgs 0 "" = Ret locator).
Proof.
  intros Hcheck. pose proof (checkConfFlag_next _ Hcheck) as Hnext. split.
  - intros i a Hi Ha. split.
    + apply hasNextArg_vacuous. by eapply lookup_lt_Some.
    + apply lookup_lt_is_Some_2. by eapply Hnext.
  - by apply locatorScan_reads_in_bounds_aux.
Qed.

Lemma locatorScan_reads_in_bounds_witness :
  checkConfFlag ["-c"; "cfg"; "init"; "--config"; "other"] = Ret tt
  ∧ (∀ i a, ["-c"; "cfg"; "init"; "--config"; "other"] !! i = Some a →
            isConfigToken a = true →
            (i + 1 <=? length ["-c"; "cfg"; "init"; "--config"; "other"]) = true
            ∧ is_Some (["-c"; "cfg"; "init"; "--config"; "other"] !! (i + 1)))
  ∧ (∃ locator,
        locatorScan ["-c"; "cfg"; "init"; "--config"; "other"]
          ["-c"; "cfg"; "init"; "--config"; "other"] 0 "" = Ret locator).
Proof.
  split; [reflexivity|].
  apply (locatorScan_reads_in_bounds ["-c"; "cfg"; "init"; "--config"; "other"]).
  reflexivity.
Defined.

(** ** The locator: which occurrence is recorded *)

Lemma yieldsLocator_inj (cliArgs : list string) (i : nat) (t t' : string) :
  yieldsLocator cliArgs i t → yieldsLocator cliArgs i t' → t = t'.
Proof. intros (? & ? & ? & ? & ?) (? & ? & ? & ? & ?). congruence. Qed.

Lemma locatorScan_last (cliArgs : list string) (rest pre : list string)
    (c r : string) :
  cliArgs = pre ++ rest →
  locatorScan cliArgs rest (length pre) c = Ret r →
  (∀ k t, length pre ≤ k → yieldsLocator cliArgs k t →
          (∀ k' t', k < k' → ¬ yieldsLocator cliArgs k' t') → r = t)
  ∧ ((∀ k t, length pre ≤ k → ¬ yieldsLocator cliArgs k t) → r = c).
Proof.
  revert pre c. induction rest as [|arg rest IH]; intros pre c Hsplit Hscan.
  { simpl in Hscan. simplify_eq. split; [|done].
    intros k t Hk (a & Ha & _). apply lookup_lt_Some in Ha.
    rewrite app_nil_r in Ha. lia. }
  assert (Hsplit' : cliArgs = (pre ++ [arg]) ++ rest)
    by (by rewrite <- app_assoc).
  assert (Hlen : length (pre ++ [arg]) = length pre + 1)
    by (rewrite length_app; simpl; lia).
  assert (Harg : cliArgs !! length pre = Some arg).
  { rewrite Hsplit. by rewrite list_lookup_middle. }
  simpl in Hscan.
  (* does the occurrence at this index yield a value? *)
  assert (Hdec : (∃ t, yieldsLocator cliArgs (length pre) t)
                 ∨ ¬ (∃ t, yieldsLocator cliArgs (length pre) t)).
  { destruct (isConfigToken arg) eqn:Hconf;
      [|right; intros (? & ? & ? & ? & ?); congruence].
    destruct (cliArgs !! (length pre + 1)) as [next|] eqn:Hnext;
      [|right; intros (? & ? & ? & ? & ? & ?); congruence].
    destruct (startsWith next "-") eqn:Hdash;
      [right; intros (? & ? & ? & ? & ? & ?); congruence|].
    left. by exists next, arg. }
  destruct Hdec as [[t Ht]|Hno].
  - destruct Ht as (a & Ha & Hconf & Hnext & Hdash).
    assert (a = arg) by congruence. subst a.
    rewrite Hconf, Hnext, Hdash in Hscan. simpl in Hscan.
    assert (Hb : (length pre + 1 <=? length cliArgs) = true).
    { apply Nat.leb_le. apply lookup_lt_Some in Hnext. lia. }
    rewrite Hb in Hscan. rewrite <- Hlen in Hscan.
    destruct (IH _ _ Hsplit' Hscan) as [IH1 IH2]. split.
    + intros k t' Hk Hy Hlast.
      destruct (decide (k = length pre)) as [->|Hne].
      * assert (t' = t).
        { eapply yieldsLocator_inj; [exact Hy|]. by exists arg. }
        subst t'. apply IH2. intros k' t'' Hk'. apply Hlast. lia.
      * apply (IH1 k t'); [lia | done | done].
    + intros Hnone. exfalso. apply (Hnone (length pre) t); [lia|].
      by exists arg.
  - assert (Hscan' : locatorScan cliArgs rest (length (pre ++ [arg])) c = Ret r).
    { rewrite Hlen. destruct (isConfigToken arg) eqn:Hconf; simpl in Hscan;
        [|done].
      destruct (length pre + 1 <=? length cliArgs); [|done].
      destruct (cliArgs !! (length pre + 1)) as [next|] eqn:Hnext;
        [|discriminate].
      destruct (startsWith next "-") eqn:Hdash; simpl in Hscan; [done|].
      exfalso. apply Hno. exists next, arg. done. }
    destruct (IH _ _ Hsplit' Hscan') as [IH1 IH2]. split.
    + intros k t Hk Hy Hlast.
      destruct (decide (k = length pre)) as [->|Hne].
      * exfalso. apply Hno. by exists t.
      * apply (IH1 k t); [lia | done | done].
    + intros Hnone. apply IH2. intros k t Hk. apply Hnone. lia.
Qed.

(** The claim as the specification states it fails when the last occurrence
    is followed by a token that starts with a dash and an earlier one is
    not: the locator is then neither that token nor empty. *)
Lemma lastOccurrenceWins_fails :
  ¬ lastOccurrenceWins ["-c"; "a"; "-c"; "-x"].
Proof.
  intros H. specialize (H 2 "-x" eq_refl eq_refl).
  vm_compute in H. discriminate.
Qed.

(** C6 (as amended).  After the presence check, the extraction scan
    returns the token that follows the last occurrence of [--config]/[-c]
    among those whose following token does not start with a dash; an
    occurrence followed by a token that starts with a dash records nothing
    and leaves the locator as it was.  When no occurrence yields a value the
    locator is empty and extraction fails with the "No config file found"
    error. *)
Theorem locator_last_yielding_occurrence (cliArgs : list string) :
  checkConfFlag cliArgs = Ret tt →
  ∃ locator,
    locatorScan cliArgs cliArgs 0 "" = Ret locator
    ∧ extractLocator cliArgs
      = (if streq locator "" then ExitError noConfigMessage else Ret locator)
    ∧ (∀ k t, yieldsLocator cliArgs k t →
              (∀ k' t', k < k' → ¬ yieldsLocator cliArgs k' t') →
              locator = t)
    ∧ ((∀ k t, ¬ yieldsLocator cliArgs k t) →
       locator = "" ∧ extractLocator cliArgs = ExitError noConfigMessage).
Proof.
  intros Hcheck.
  destruct (locatorScan_reads_in_bounds_aux cliArgs Hcheck) as [locator Hscan].
  exists locator.
  assert (Hext : extractLocator cliArgs
                 = (if streq locator "" then ExitError noConfigMessage
                    else Ret locator)).
  { unfold extractLocator. by rewrite Hscan. }
  destruct (locatorScan_last cliArgs cliArgs [] "" locator eq_refl Hscan)
    as [H1 H2].
  split; [done|]. split; [done|]. split.
  - intros k t Hy Hlast. apply (H1 k t); [simpl; lia | done | done].
  - intros Hnone.
    assert (locator = "") as Hempty by (apply H2; intros k t _; apply Hnone).
    split; [done|]. rewrite Hext, Hempty. reflexivity.
Qed.

Lemma locator_last_yielding_occurrence_witness :
  checkConfFlag ["-c"; "a"; "-c"; "-x"] = Ret tt
  ∧ ∃ locator,
      locatorScan ["-c"; "a"; "-c"; "-x"] ["-c"; "a"; "-c"; "-x"] 0 ""
      = Ret locator
      ∧ extractLocator ["-c"; "a"; "-c"; "-x"]
        = (if streq locator "" then ExitError noConfigMessage
           else Ret locator)
      ∧ (∀ k t, yieldsLocator ["-c"; "a"; "-c"; "-x"] k t →
                (∀ k' t', k < k' →
                          ¬ yieldsLocator ["-c"; "a"; "-c"; "-x"] k' t') →
                locator = t)
      ∧ ((∀ k t, ¬ yieldsLocator ["-c"; "a"; "-c"; "-x"] k t) →
         locator = ""
         ∧ extractLocator ["-c"; "a"; "-c"; "-x"] = ExitError noConfigMessage).
Proof.
  split; [reflexivity|].
  apply (locator_last_yielding_occurrence ["-c"; "a"; "-c"; "-x"]).
  reflexivity.
Defined.

(** ** Removing a reserved flag *)

Lemma tail_drop {A} (l : list A) (n : nat) : tail (drop n l) = drop (S n) l.
Proof.
  revert n. induction l as [|x l IH]; intros [|n]; simpl; done.
Qed.

Lemma removeFlag_loop_spec (isFlag : string → bool) (l : list string)
    (fuel i : nat) (isRemove : bool) (acc : list string) :
  length l - i ≤ fuel →
  removeFlag_loop isFlag l fuel i isRemove acc
  = acc ++ (if isRemove then drop i l
            else removeFirstAndNext isFlag (drop i l)).
Proof.
  revert i isRemove acc.
  induction fuel as [|fuel IH]; intros i isRemove acc Hfuel; simpl.
  - rewrite drop_ge by lia. destruct isRemove; simpl; by rewrite app_nil_r.
  - destruct (l !! i) as [arg|] eqn:Hi.
    + rewrite (drop_S _ _ _ Hi).
      assert (Hlt : i < length l) by (by eapply lookup_lt_Some).
      destruct (isFlag arg) eqn:Hflag, isRemove; simpl.
      * rewrite IH by lia. rewrite <- app_assoc. simpl.
        by rewrite Nat.add_1_r.
      * rewrite IH by lia. rewrite tail_drop, Hflag.
        by rewrite !Nat.add_1_r.
      * rewrite IH by lia. rewrite <- app_assoc. simpl.
        by rewrite Nat.add_1_r.
      * rewrite IH by lia. rewrite <- app_assoc. simpl.
        by rewrite Hflag, Nat.add_1_r.
    + apply lookup_ge_None in Hi. rewrite drop_ge by lia.
      destruct isRemove; simpl; by rewrite app_nil_r.
Qed.

(** Both removals drop the first occurrence and the token after it. *)
Lemma removeHelpFlag_spec (l : list string) :
  removeHelpFlag l = removeFirstAndNext isHelpToken l.
Proof.
  unfold removeHelpFlag. rewrite removeFlag_loop_spec by lia.
  by rewrite drop_0.
Qed.

Lemma removeConfFlag_spec (l : list string) :
  removeConfFlag l = removeFirstAndNext isConfigToken l.
Proof.
  unfold removeConfFlag. rewrite removeFlag_loop_spec by lia.
  by rewrite drop_0.
Qed.

Lemma removeFirstAndNext_subseteq (isFlag : string → bool) (l : list string) :
  removeFirstAndNext isFlag l ⊆ l.
Proof.
  induction l as [|a l IH]; simpl; [done|].
  destruct (isFlag a).
  - intros x Hx. right. destruct l; simpl in Hx; [done | by right].
  - intros x Hx. inversion Hx; subst; [left | right; by apply IH].
Qed.

(** Whatever comes before and after, the token that follows the first help
    flag is dropped with it. *)
Lemma removeHelpFlag_general (before : list string) (h next : string)
    (after : list string) :
  Forall (λ t, isHelpToken t = false) before →
  isHelpToken h = true →
  removeHelpFlag (before ++ h :: next :: after) = before ++ after
  ∧ removeFirst isHelpToken (before ++ h :: next :: after)
    = before ++ next :: after.
Proof.
  intros Hbefore Hh. rewrite removeHelpFlag_spec.
  induction Hbefore as [|t before Ht _ [IH1 IH2]]; simpl.
  - by rewrite Hh.
  - rewrite Ht. by rewrite IH1, IH2.
Qed.

(** C2.  [--help] occurs exactly once in [["build"; "--help"; "target"]];
    removing only that token would leave [["build"; "target"]], but
    [removeHelpFlag] also drops the token after it, and with [--help] in
    front of the command nothing is left, so the parser answers with the
    global help instead of the help of the command. *)
Theorem removeHelpFlag_drops_following_token :
  occurrences isHelpToken ["build"; "--help"; "target"] = 1
  ∧ removeFirst isHelpToken ["build"; "--help"; "target"] = ["build"; "target"]
  ∧ removeHelpFlag ["build"; "--help"; "target"] = ["build"]
  ∧ removeHelpFlag ["--help"; "build"] = []
  ∧ inputParser decimalNumber ["--help"; "build"] buildConf
    = Ret (globalHelpResult buildConf).
Proof. repeat split; vm_compute; reflexivity. Qed.

(** ** The version flag *)

Lemma isVersion_loop_cases (l : list string) :
  (isVersion_loop l = Ret tt ∧ ∀ t, t ∈ l → isVersionToken t = false)
  ∨ isVersion_loop l = ExitError versionAloneMessage.
Proof.
  induction l as [|a l IH]; simpl.
  - left. split; [done|]. intros t Ht. inversion Ht.
  - destruct (isVersionToken a) eqn:Ha; [by right|].
    destruct IH as [[Hr Hl]|Hr]; rewrite Hr; [left|by right].
    split; [done|]. intros t Ht. inversion Ht; subst; [done | by apply Hl].
Qed.

(** The three outcomes of [isVersion]. *)
Lemma isVersion_cases (l : list string) :
  (isVersion l = Ret true
   ∧ ∃ first rest, l = first :: rest
       ∧ (first = "--version" ∨ (first = "-v" ∧ rest = [])))
  ∨ (isVersion l = Ret false ∧ ∀ t, t ∈ l → isVersionToken t = false)
  ∨ isVersion l = ExitError versionAloneMessage.
Proof.
  destruct l as [|first rest]; unfold isVersion.
  { right; left. split; [done|]. intros t Ht. inversion Ht. }
  destruct (streq first "--version") eqn:E1; cbn [orb].
  { left. split; [done|]. apply streq_true in E1. eauto 6. }
  destruct (streq first "-v" && (length (first :: rest) =? 1)) eqn:E2.
  { left. split; [done|]. apply andb_true_iff in E2 as [E2 E3].
    apply streq_true in E2. apply Nat.eqb_eq in E3.
    destruct rest; [|discriminate]. eauto 7. }
  right.
  destruct (isVersion_loop_cases (first :: rest)) as [[Hr Hl]|Hr];
    rewrite Hr; [left | by right].
  done.
Qed.

(** ** Resolving a token to a flag *)

Lemma startsWith_slice (s p : string) :
  startsWith s p = true → s = p +:+ slice (String.length p) s.
Proof.
  unfold startsWith. revert s. induction p as [|c p IH]; intros s H; simpl.
  - done.
  - destruct s as [|c' s]; simpl in H; [discriminate|].
    destruct (Ascii.ascii_dec c c') as [->|]; [|discriminate].
    change (String c' s = String c' (p +:+ slice (String.length p) s)).
    f_equal. by apply IH.
Qed.

Lemma aliasMapFlag_declared (commandConf : CommandType) (a flag : string) :
  aliasMapFlag commandConf !! a = Some flag →
  flag ∈ Object_keys (cmd_flags commandConf).
Proof.
  unfold aliasMapFlag, Object_keys.
  assert (H : ∀ (l : list (string * FlagConfig)) (m : gmap string string),
             foldl (λ m kv, <[flag_alias kv.2 := kv.1]> m) m l !! a
             = Some flag → m !! a = Some flag ∨ flag ∈ l.*1).
  { induction l as [|[k fc] l IH]; intros m Hm; simpl in *; [by left|].
    destruct (IH _ Hm) as [Hin|Hin]; [|right; by right].
    destruct (decide (flag_alias fc = a)) as [<-|Hne].
    - rewrite lookup_insert_eq in Hin. simplify_eq. right. left.
    - rewrite lookup_insert_ne in Hin by done. by left. }
  intros Hm. destruct (H _ _ Hm) as [Hin|Hin]; [|done].
  by rewrite lookup_empty in Hin.
Qed.

(** What [hasFlag(arg) || hasAliasFlag(arg)] returns. *)
Lemma resolveFlag_Ret (arg : string) (commandConf : CommandType)
    (command flag : string) :
  resolveFlag arg commandConf command = Ret flag →
  (flag ≠ "" ∧ namesFlag commandConf arg flag
   ∧ flag ∈ Object_keys (cmd_flags commandConf))
  ∨ (flag = "" ∧ startsWith arg "-" = false)
  ∨ (flag = "" ∧ "" ∈ Object_keys (cmd_flags commandConf)
     ∧ ∃ a, arg = "-" +:+ a ∧ aliasMapFlag commandConf !! a = Some "").
Proof.
  unfold resolveFlag, hasFlag, hasAliasFlag, checkFlagNotEempty.
  destruct (startsWith arg "--") eqn:Hdd.
  - destruct (streq (slice 2 arg) "") eqn:Hempty; jsimpl; [done|].
    destruct (includes (Object_keys (cmd_flags commandConf)) (slice 2 arg))
      eqn:Hinc; jsimpl; [|done].
    rewrite Hempty. intros [= <-]. left.
    apply streq_false in Hempty. apply includes_elem_of in Hinc.
    split; [done|]. split; [|done]. left. split; [|done].
    by apply (startsWith_slice arg "--").
  - jsimpl. rewrite streq_refl.
    destruct (startsWith arg "-") eqn:Hd; [|intros [= <-]; right; left; done].
    destruct (streq (slice 1 arg) "") eqn:Hempty; jsimpl; [done|].
    destruct (aliasMapFlag commandConf !! slice 1 arg) as [f|] eqn:Hmap;
      [|done].
    intros [= <-].
    pose proof (aliasMapFlag_declared _ _ _ Hmap) as Hdecl.
    pose proof (startsWith_slice arg "-" Hd) as Harg.
    change (String.length "-") with 1 in Harg.
    destruct (decide (f = "")) as [->|Hne].
    + right; right. split; [done|]. split; [done|]. eauto.
    + left. split; [done|]. split; [|done]. right. eauto.
Qed.

Lemma checkFlag_eq (i : nat) (flag : string) (commandConf : CommandType)
    (cliArgs : list string) (command : string) :
  flag ≠ "" →
  checkFlag i flag commandConf cliArgs command
  = match prop (cmd_flags commandConf) flag with
    | None => ExitError (notInCommandMessage flag command)
    | Some flagConf =>
        if valueKind (flag_type flagConf) && (length cliArgs =? i + 1)
        then ExitError (needsValueMessage flag command)
        else Ret tt
    end.
Proof.
  intros Hne. unfold checkFlag, Object_keys.
  assert (H : ∀ o : list (string * FlagConfig),
             match find (streq flag) o.*1 with
             | None => prop o flag = None
             | Some f => f = flag ∧ is_Some (prop o flag)
             end).
  { induction o as [|[k fc] o IH]; simpl; [done|].
    destruct (streq flag k) eqn:E.
    - apply streq_true in E. subst. by rewrite streq_refl; eauto.
    - apply streq_false in E.
      assert (streq k flag = false) as -> by (apply streq_false; congruence).
      done. }
  specialize (H (cmd_flags commandConf)).
  destruct (find _ _) as [f|].
  - destruct H as [-> [fc Hfc]]. rewrite Hfc.
    assert (streq flag "" = false) as -> by (by apply streq_false).
    done.
  - by rewrite H.
Qed.

(** ** The loop of [inputParser] and the scan of the tokens *)

Lemma valueKind_eq (k : FlagKind) :
  valueKind k = match k with KBoolean => false | _ => true end.
Proof. by destruct k. Qed.

Lemma parseFlag_eq (Number : string → number) (flagConf : FlagConfig)
    (cliArgs : list string) (i : nat) :
  parseFlag Number flagConf cliArgs i
  = match flag_type flagConf with
    | KString =>
        (match cliArgs !! (i + 1) with
         | Some text => VString text
         | None => VUndefined
         end, i + 1)
    | KNumber => (VNumber (toNumber Number (cliArgs !! (i + 1))), i + 1)
    | KBoolean => (VBoolean true, i)
    end.
Proof. unfold parseFlag. by destruct (flag_type flagConf). Qed.

Section Scan.

Variable Number : string → number.
Variable cliConf : CliConfType.
Variable commandConf : CommandType.
Variable command : string.

(** The index loop, with any bound that covers the indices left, is the
    scan of the tokens from its index on: the bound never cuts the loop. *)
Lemma parseArgs_loop_tokens (cliArgs : list string) (fuel i : nat)
    (result : InputActionType) :
  length cliArgs - i ≤ fuel →
  parseArgs_loop Number cliConf commandConf command cliArgs fuel i result
  = parseTokens Number cliConf commandConf command (drop i cliArgs) result.
Proof.
  revert i result.
  induction fuel as [|fuel IH]; intros i result Hfuel.
  { rewrite drop_ge by lia. done. }
  cbn [parseArgs_loop].
  destruct (cliArgs !! i) as [arg|] eqn:Hi.
  2:{ apply lookup_ge_None in Hi. by rewrite drop_ge by lia. }
  assert (Hlt : i < length cliArgs) by (by eapply lookup_lt_Some).
  rewrite (drop_S _ _ _ Hi). cbn [parseTokens].
  destruct (isVersionToken arg); [done|].
  destruct (resolveFlag arg commandConf command) as [flag| |]; jsimpl;
    [|done|done].
  destruct (streq flag "") eqn:Hflag; jsimpl.
  { rewrite IH by lia. by rewrite Nat.add_1_r. }
  apply streq_false in Hflag. rewrite checkFlag_eq by done.
  destruct (prop (cmd_flags commandConf) flag) as [flagConf|]; [|done].
  rewrite parseFlag_eq, valueKind_eq.
  destruct (drop (S i) cliArgs) as [|value rest'] eqn:Hdrop.
  - assert (Hlen : length cliArgs = i + 1).
    { apply (f_equal length) in Hdrop. rewrite length_drop in Hdrop.
      simpl in Hdrop. lia. }
    rewrite Hlen, Nat.eqb_refl.
    destruct (flag_type flagConf); cbn; try done.
    rewrite IH by lia. rewrite Nat.add_1_r, Hdrop. done.
  - assert (Hnext : cliArgs !! (i + 1) = Some value).
    { rewrite Nat.add_1_r. rewrite <- (Nat.add_0_r (S i)).
      rewrite <- lookup_drop. by rewrite Hdrop. }
    assert (Hlen : (length cliArgs =? i + 1) = false).
    { apply Nat.eqb_neq. apply lookup_lt_Some in Hnext. lia. }
    assert (Hrest : drop (i + 1 + 1) cliArgs = rest').
    { rewrite !Nat.add_1_r. rewrite <- tail_drop. by rewrite Hdrop. }
    rewrite Hlen, Hnext.
    destruct (flag_type flagConf); cbn.
    + rewrite IH by lia. by rewrite Hrest.
    + rewrite IH by lia. by rewrite Hrest.
    + rewrite IH by lia. by rewrite Nat.add_1_r, Hdrop.
Qed.

(** An invariant of the scan: a property of the result that every step
    keeps holds at the end. *)
Lemma parseTokens_invariant (P : InputActionType → Prop)
    (tokens : list string) :
  (∀ r arg, arg ∈ tokens → isVersionToken arg = true → P r →
            P (switchToVersion (versionOutput cliConf) r)) →
  (∀ r arg, arg ∈ tokens → isVersionToken arg = false →
            resolveFlag arg commandConf command = Ret "" → P r →
            P (pushArg arg r)) →
  (∀ r arg flag flagConf value,
      arg ∈ tokens → resolveFlag arg commandConf command = Ret flag →
      flag ≠ "" → prop (cmd_flags commandConf) flag = Some flagConf →
      (value = VBoolean true
       ∨ ∃ t, t ∈ tokens ∧ (value = VString t ∨ value = VNumber (Number t))) →
      P r → P (setFlag flag value r)) →
  ∀ r r', P r →
    parseTokens Number cliConf commandConf command tokens r = Ret r' → P r'.
Proof.
  intros Hver Hpush Hset.
  assert (H : ∀ n ts, length ts ≤ n → ts ⊆ tokens → ∀ r r', P r →
             parseTokens Number cliConf commandConf command ts r = Ret r' →
             P r').
  { induction n as [|n IH]; intros ts Hn Hsub r r' Hr Hparse.
    { destruct ts; [|simpl in Hn; lia]. simpl in Hparse. by simplify_eq. }
    destruct ts as [|arg rest]; [simpl in Hparse; by simplify_eq|].
    assert (Harg : arg ∈ tokens) by (apply Hsub; left).
    assert (Hrest : rest ⊆ tokens) by (intros x Hx; apply Hsub; by right).
    simpl in Hn. cbn [parseTokens] in Hparse.
    destruct (isVersionToken arg) eqn:Hv.
    { simplify_eq. by eapply Hver. }
    destruct (resolveFlag arg commandConf command) as [flag| |] eqn:Hres;
      jsimpl_in Hparse; [|done|done].
    destruct (streq flag "") eqn:Hflag.
    { apply streq_true in Hflag. subst flag.
      eapply (IH rest); [lia | done | | exact Hparse]. by eapply Hpush. }
    apply streq_false in Hflag.
    destruct (prop (cmd_flags commandConf) flag) as [flagConf|] eqn:Hprop;
      [|done].
    destruct (flag_type flagConf), rest as [|value rest']; try done.
    - eapply (IH rest'); [simpl in Hn; lia | | | exact Hparse].
      + intros x Hx. apply Hrest. by right.
      + eapply Hset; eauto. right. exists value. split; [|by left].
        apply Hrest. left.
    - eapply (IH rest'); [simpl in Hn; lia | | | exact Hparse].
      + intros x Hx. apply Hrest. by right.
      + eapply Hset; eauto. right. exists value. split; [|by right].
        apply Hrest. left.
    - eapply (IH []); [simpl; lia | | | exact Hparse].
      + intros x Hx. inversion Hx.
      + eapply Hset; eauto.
    - eapply (IH (value :: rest')); [simpl in *; lia | done | |exact Hparse].
      eapply Hset; eauto. }
  intros r r' Hr Hparse. by eapply (H (length tokens) tokens).
Qed.

End Scan.

(** ** The argument parser *)

Section InputParser.

Variable Number : string → number.
Variable cliConf : CliConfType.

Lemma checkCommand_eq (command : string) :
  checkCommand command cliConf
  = match prop (conf_commands cliConf) command with
    | None =>
        ExitError ("The command " +:+ command +:+ " is not a valid command")
    | Some _ => Ret tt
    end.
Proof.
  unfold checkCommand.
  destruct (includes (Object_keys (conf_commands cliConf)) command) eqn:E.
  - apply includes_elem_of, prop_is_Some in E. by destruct E as [c ->].
  - destruct (prop (conf_commands cliConf) command) eqn:Hp; [|done].
    assert (includes (Object_keys (conf_commands cliConf)) command = true);
      [|congruence].
    apply includes_elem_of, prop_is_Some. eauto.
Qed.

Lemma afterHelp_subseteq (isHelpe : bool) (l : list string) :
  afterHelp isHelpe l ⊆ l.
Proof.
  destruct isHelpe; simpl; [apply removeFirstAndNext_subseteq | done].
Qed.

(** [inputParser], with its loop read as the scan of the tokens. *)
Lemma inputParser_eq (inputCliArgs : list string) :
  inputParser Number inputCliArgs cliConf
  = (v ← isVersion inputCliArgs;
     if (v : bool) then Ret (versionResult cliConf)
     else
       isHelpe ← isArgsIncludeHelpFlag inputCliArgs;
       match afterHelp isHelpe inputCliArgs with
       | [] => Ret (globalHelpResult cliConf)
       | command :: cliArgs =>
           match prop (conf_commands cliConf) command with
           | None =>
               ExitError ("The command " +:+ command
                          +:+ " is not a valid command")
           | Some commandConf =>
               parseTokens Number cliConf commandConf command cliArgs
                 (initialResult isHelpe command)
           end
       end).
Proof.
  unfold inputParser.
  destruct (isVersion inputCliArgs) as [[|]| |]; jsimpl; try done.
  destruct (isArgsIncludeHelpFlag inputCliArgs) as [isHelpe| |]; jsimpl;
    try done.
  assert (Hl : (if isHelpe then removeHelpFlag inputCliArgs else inputCliArgs)
               = afterHelp isHelpe inputCliArgs).
  { unfold afterHelp. destruct isHelpe; [apply removeHelpFlag_spec | done]. }
  rewrite Hl. destruct (afterHelp isHelpe inputCliArgs) as [|command cliArgs];
    [done|].
  rewrite checkCommand_eq.
  destruct (prop (conf_commands cliConf) command) as [commandConf|]; jsimpl;
    [|done].
  rewrite parseArgs_loop_tokens by lia. by rewrite drop_0.
Qed.

(** A result of [inputParser] is the version answer, the global help, or
    the result of the scan for a declared command. *)
Lemma inputParser_Ret (inputCliArgs : list string) (r : InputActionType) :
  inputParser Number inputCliArgs cliConf = Ret r →
  (isVersion inputCliArgs = Ret true ∧ r = versionResult cliConf)
  ∨ (isVersion inputCliArgs = Ret false
     ∧ ∃ isHelpe, isArgsIncludeHelpFlag inputCliArgs = Ret isHelpe
        ∧ ((afterHelp isHelpe inputCliArgs = [] ∧ r = globalHelpResult cliConf)
           ∨ ∃ command cliArgs commandConf,
               afterHelp isHelpe inputCliArgs = command :: cliArgs
               ∧ prop (conf_commands cliConf) command = Some commandConf
               ∧ parseTokens Number cliConf commandConf command cliArgs
                   (initialResult isHelpe command) = Ret r)).
Proof.
  rewrite inputParser_eq.
  destruct (isVersion inputCliArgs) as [[|]| |]; jsimpl; try done.
  { intros [= <-]. by left. }
  destruct (isArgsIncludeHelpFlag inputCliArgs) as [isHelpe| |]; jsimpl;
    try done.
  intros H. right. split; [done|]. exists isHelpe. split; [done|].
  destruct (afterHelp isHelpe inputCliArgs) as [|command cliArgs].
  { simplify_eq. by left. }
  destruct (prop (conf_commands cliConf) command) as [commandConf|] eqn:Hp;
    [|done].
  right. by exists command, cliArgs, commandConf.
Qed.

(** [inputParser] raises no native exception. *)
Lemma parseTokens_no_TypeError (commandConf : CommandType) (command : string)
    (tokens : list string) (r : InputActionType) :
  parseTokens Number cliConf commandConf command tokens r ≠ TypeError.
Proof.
  assert (Hres : ∀ arg, resolveFlag arg commandConf command ≠ TypeError).
  { intros arg. unfold resolveFlag, hasFlag, hasAliasFlag, checkFlagNotEempty.
    repeat (case_match; jsimpl; try done). }
  assert (H : ∀ n ts, length ts ≤ n → ∀ r,
             parseTokens Number cliConf commandConf command ts r ≠ TypeError).
  { induction n as [|n IH]; intros ts Hn r'.
    { destruct ts; [done | simpl in Hn; lia]. }
    destruct ts as [|arg rest]; [done|]. simpl in Hn. cbn [parseTokens].
    destruct (isVersionToken arg); [done|].
    specialize (Hres arg).
    destruct (resolveFlag arg commandConf command) as [flag| |]; jsimpl;
      [|done|done].
    destruct (streq flag ""); [apply IH; lia|].
    destruct (prop (cmd_flags commandConf) flag) as [flagConf|]; [|done].
    destruct (flag_type flagConf), rest as [|value rest']; try done;
      apply IH; simpl in *; lia. }
  by apply (H (length tokens)).
Qed.

Lemma inputParser_no_TypeError (inputCliArgs : list string) :
  inputParser Number inputCliArgs cliConf ≠ TypeError.
Proof.
  rewrite inputParser_eq.
  destruct (isVersion_cases inputCliArgs) as [[-> _]|[[-> _]| ->]]; jsimpl;
    try done.
  unfold isArgsIncludeHelpFlag.
  assert (Hh : ∀ l b, isArgsIncludeHelpFlag_loop l b ≠ TypeError).
  { induction l as [|a l IH]; intros b; simpl; [done|].
    destruct (isHelpToken a), b; try done; apply IH. }
  specialize (Hh inputCliArgs false).
  destruct (isArgsIncludeHelpFlag_loop inputCliArgs false) as [isHelpe| |];
    jsimpl; try done.
  destruct (afterHelp isHelpe inputCliArgs) as [|command cliArgs]; [done|].
  destruct (prop (conf_commands cliConf) command); [|done].
  apply parseTokens_no_TypeError.
Qed.

End InputParser.

(** ** What the scan of the tokens builds *)

Section ScanResult.

Variable Number : string → number.
Variable cliConf : CliConfType.
Variable commandConf : CommandType.
Variable cmd : string.

(** The result of a scan that meets no version token: the fields set at the
    start are untouched, every key of [flags] is a declared flag that a
    token names, every value comes from the tokens, and every positional
    argument is a token that resolved to the empty string. *)
Lemma parseTokens_shape (isHelpe : bool) (tokens : list string)
    (r : InputActionType) :
  (∀ t, t ∈ tokens → isVersionToken t = false) →
  parseTokens Number cliConf commandConf cmd tokens
    (initialResult isHelpe cmd) = Ret r →
  success r = true
  ∧ action r = (if isHelpe then ActHelp else ActCommand)
  ∧ output r = ""
  ∧ ∃ c, command r = Some c ∧ name c = cmd
      ∧ (∀ k, k ∈ dom (flags c) →
              k ∈ Object_keys (cmd_flags commandConf)
              ∧ ∃ t, t ∈ tokens ∧ namesFlag commandConf t k)
      ∧ (∀ k v, flags c !! k = Some v →
                v = VBoolean true
                ∨ ∃ t, t ∈ tokens
                       ∧ (v = VString t ∨ v = VNumber (Number t)))
      ∧ (∀ a, a ∈ args c →
              a ∈ tokens
              ∧ (startsWith a "-" = false
                 ∨ "" ∈ Object_keys (cmd_flags commandConf))).
Proof.
  intros Hnov Hparse.
  set (P := λ r : InputActionType,
    success r = true
    ∧ action r = (if isHelpe then ActHelp else ActCommand)
    ∧ output r = ""
    ∧ ∃ c, command r = Some c ∧ name c = cmd
        ∧ (∀ k, k ∈ dom (flags c) →
                k ∈ Object_keys (cmd_flags commandConf)
                ∧ ∃ t, t ∈ tokens ∧ namesFlag commandConf t k)
        ∧ (∀ k v, flags c !! k = Some v →
                  v = VBoolean true
                  ∨ ∃ t, t ∈ tokens
                         ∧ (v = VString t ∨ v = VNumber (Number t)))
        ∧ (∀ a, a ∈ args c →
                a ∈ tokens
                ∧ (startsWith a "-" = false
                   ∨ "" ∈ Object_keys (cmd_flags commandConf)))).
  apply (parseTokens_invariant Number cliConf commandConf cmd P tokens)
    with (r := initialResult isHelpe cmd); [| | | |exact Hparse].
  - intros r0 arg Harg Hv _. rewrite Hnov in Hv by done. discriminate.
  - intros r0 arg Harg _ Hres (Hs & Ha & Ho & c & Hc & Hn & Hk & Hval & Hargs).
    unfold P, pushArg; simpl. rewrite Hc. simpl.
    do 3 (split; [done|]). eexists. split; [done|]. simpl.
    do 3 (split; [done|]).
    intros a [Ha'|Ha']%elem_of_app; [by apply Hargs|].
    apply list_elem_of_singleton in Ha'. subst a. split; [done|].
    destruct (resolveFlag_Ret _ _ _ _ Hres)
      as [(Hne & _)|[(_ & Hd)|(_ & He & _)]]; [done | by left | by right].
  - intros r0 arg flag flagConf value Harg Hres Hne Hprop Hvalue HP.
    unfold setFlag. destruct (streq flag "__proto__"); [exact HP|].
    destruct HP as (Hs & Ha & Ho & c & Hc & Hn & Hk & Hval & Hargs).
    unfold P; simpl. rewrite Hc. simpl.
    do 3 (split; [done|]). eexists. split; [done|]. simpl.
    split; [done|]. split; [|split; [|done]].
    + intros k Hin. rewrite dom_insert_L in Hin.
      apply elem_of_union in Hin as [Hin|Hin]; [|by apply Hk].
      apply elem_of_singleton in Hin. subst k.
      destruct (resolveFlag_Ret _ _ _ _ Hres)
        as [(_ & Hnames & Hdecl)|[(He & _)|(He & _)]]; [|done|done].
      split; [done|]. by exists arg.
    + intros k v Hlook.
      destruct (decide (flag = k)) as [->|Hneq].
      * rewrite lookup_insert_eq in Hlook. by simplify_eq.
      * rewrite lookup_insert_ne in Hlook by done. by eapply Hval.
  - unfold P, initialResult; simpl.
    do 3 (split; [done|]). eexists. split; [done|]. simpl.
    split; [done|]. split; [|split].
    + intros k Hin. rewrite dom_empty_L in Hin. by apply not_elem_of_empty in Hin.
    + intros k v Hlook. by rewrite lookup_empty in Hlook.
    + intros a Ha. inversion Ha.
Qed.

End ScanResult.

(** ** Results of [inputParser] *)

Section Results.

Variable Number : string → number.
Variable cliConf : CliConfType.

Lemma isVersion_false_tokens (l : list string) :
  isVersion l = Ret false → ∀ t, t ∈ l → isVersionToken t = false.
Proof.
  intros H. destruct (isVersion_cases l) as [[H' _]|[[_ H']|H']];
    [congruence | done | congruence].
Qed.

(** The result of [inputParser] for a declared command. *)
Lemma inputParser_command (inputCliArgs : list string) (r : InputActionType) :
  inputParser Number inputCliArgs cliConf = Ret r →
  r = versionResult cliConf
  ∨ r = globalHelpResult cliConf
  ∨ ∃ isHelpe cmd cliArgs commandConf,
      afterHelp isHelpe inputCliArgs = cmd :: cliArgs
      ∧ cliArgs ⊆ inputCliArgs
      ∧ prop (conf_commands cliConf) cmd = Some commandConf
      ∧ parseTokens Number cliConf commandConf cmd cliArgs
          (initialResult isHelpe cmd) = Ret r
      ∧ (∀ t, t ∈ cliArgs → isVersionToken t = false).
Proof.
  intros H. apply inputParser_Ret in H
    as [[_ ->]|(Hv & isHelpe & Hh & [[_ ->]|(cmd & cliArgs & cc & Hl & Hp & Hs)])];
    [by left | by right; left |].
  right; right. exists isHelpe, cmd, cliArgs, cc.
  assert (Hsub : cliArgs ⊆ inputCliArgs).
  { intros x Hx. apply (afterHelp_subseteq isHelpe). rewrite Hl. by right. }
  repeat (split; [done|]).
  intros t Ht. apply (isVersion_false_tokens _ Hv). by apply Hsub.
Qed.

(** A version answer comes from the first token only: the scan of the
    tokens after a command never switches to it. *)
Lemma version_only_from_first_token (inputCliArgs : list string)
    (r : InputActionType) :
  inputParser Number inputCliArgs cliConf = Ret r →
  action r = ActVersion → r = versionResult cliConf.
Proof.
  intros H Hact.
  destruct (inputParser_command _ _ H)
    as [->|[->|(isHelpe & cmd & cliArgs & cc & _ & _ & _ & Hs & Hnov)]];
    [done | discriminate |].
  destruct (parseTokens_shape _ _ _ _ _ _ _ Hnov Hs) as (_ & Ha & _).
  rewrite Hact in Ha. by destruct isHelpe.
Qed.

Lemma isVersion_rejects (first : string) (rest : list string) :
  first ≠ "--version" →
  (∃ t, t ∈ rest ∧ isVersionToken t = true) ∨ (first = "-v" ∧ rest ≠ []) →
  isVersion (first :: rest) = ExitError versionAloneMessage.
Proof.
  intros Hfirst Hlater.
  destruct (isVersion_cases (first :: rest))
    as [[_ (f & l & [= <- <-] & [->|[-> ->]])]|[[_ Hnone]|H]]; try done.
  - destruct Hlater as [(t & Ht & _)|[_ Hne]]; [inversion Ht | done].
  - destruct Hlater as [(t & Ht & Hv)|[-> _]].
    + rewrite Hnone in Hv by (by right). discriminate.
    + assert (Hv : isVersionToken "-v" = false) by (apply Hnone; left).
      discriminate.
Qed.

Lemma inputParser_version_error (inputCliArgs : list string) :
  isVersion inputCliArgs = ExitError versionAloneMessage →
  inputParser Number inputCliArgs cliConf = ExitError versionAloneMessage.
Proof. intros H. unfold inputParser. by rewrite H. Qed.

End Results.

(** The claim fails as stated: [init] is a declared command and
    [--version] comes later, and the parse ends with an error instead of
    the version action. *)
Lemma version_after_command_is_error :
  "init" ∈ Object_keys (conf_commands appConf)
  ∧ isVersionToken "--version" = true
  ∧ inputParser decimalNumber ["init"; "-f"; "--version"] appConf
    = ExitError versionAloneMessage.
Proof. split; [left|]. split; vm_compute; reflexivity. Qed.

(** C3 (as amended).  When the first token is a declared command (other
    than the text [--version] itself) and some later token is [--version]
    or [-v], the parse ends with the error "The --version|-v flag must be
    set alone"; no parse result carries the version action together with a
    command, the version action being decided on the first token alone. *)
Theorem version_after_command_rejected (Number : string → number)
    (cliConf : CliConfType) (cmd : string) (rest : list string) :
  cmd ∈ Object_keys (conf_commands cliConf) →
  cmd ≠ "--version" →
  (∃ t, t ∈ rest ∧ isVersionToken t = true) →
  inputParser Number (cmd :: rest) cliConf = ExitError versionAloneMessage
  ∧ ∀ args r, inputParser Number args cliConf = Ret r →
              action r = ActVersion → command r = None.
Proof.
  intros _ Hne Hlater. split.
  - apply inputParser_version_error. apply isVersion_rejects; [done | by left].
  - intros args' r Hr Hact.
    by rewrite (version_only_from_first_token _ _ _ _ Hr Hact).
Qed.

Lemma version_after_command_rejected_witness :
  inputParser decimalNumber ["build"; "app"; "-v"] buildConf
  = ExitError versionAloneMessage
  ∧ ∀ args r, inputParser decimalNumber args buildConf = Ret r →
              action r = ActVersion → command r = None.
Proof.
  apply (version_after_command_rejected decimalNumber buildConf "build"
           ["app"; "-v"]).
  - left.
  - discriminate.
  - exists "-v". split; [right; left | reflexivity].
Defined.

(** The claim fails as stated: [-v] occurs at index 1, not as the first
    token, and the parse answers with the version instead of the error,
    because the first token is [--version]. *)
Lemma version_after_version_accepted :
  ["--version"; "-v"] !! 1 = Some "-v"
  ∧ isVersionToken "-v" = true
  ∧ inputParser decimalNumber ["--version"; "-v"] appConf
    = Ret (versionResult appConf).
Proof. repeat split; vm_compute; reflexivity. Qed.

(** C4 (as amended).  For every argument list whose first token is not
    [--version]: if [--version] or [-v] occurs at an index other than 0, or
    [-v] is the first of several tokens, the parse ends with the error "The
    --version|-v flag must be set alone", whatever the other tokens and the
    configuration are. *)
Theorem version_elsewhere_rejected (Number : string → number)
    (cliConf : CliConfType) (args : list string) :
  args !! 0 ≠ Some "--version" →
  (∃ i t, 0 < i ∧ args !! i = Some t ∧ isVersionToken t = true)
  ∨ (args !! 0 = Some "-v" ∧ 1 < length args) →
  inputParser Number args cliConf = ExitError versionAloneMessage.
Proof.
  intros Hfirst Hocc. apply inputParser_version_error.
  destruct args as [|first rest].
  { destruct Hocc as [(i & t & _ & Hi & _)|[Hi _]]; by rewrite lookup_nil in Hi. }
  apply isVersion_rejects.
  - intros ->. by apply Hfirst.
  - destruct Hocc as [(i & t & Hpos & Hi & Hv)|[Hi Hlen]].
    + left. exists t. split; [|done]. destruct i as [|i]; [lia|].
      simpl in Hi. by eapply list_elem_of_lookup_2.
    + right. simpl in Hi. simplify_eq. split; [done|].
      destruct rest; [simpl in Hlen; lia | done].
Qed.

Lemma version_elsewhere_rejected_witness :
  inputParser decimalNumber ["-v"; "build"] buildConf
  = ExitError versionAloneMessage.
Proof.
  apply (version_elsewhere_rejected decimalNumber buildConf ["-v"; "build"]).
  - discriminate.
  - right. split; [reflexivity | simpl; lia].
Defined.

(** ** The exit status *)

Section ExitStatus.

Variable Number : string → number.
Variable cliConf : CliConfType.

(** How the process ends, by the result of [inputParser]: the version
    answer and every result for a command end with status 0, the global
    help with status 1. *)
Lemma run_Ret (inputCliArgs : list string) (r : InputActionType) :
  inputParser Number inputCliArgs cliConf = Ret r →
  (r = versionResult cliConf
   ∧ run Number cliConf inputCliArgs = Exit 0 (Result r))
  ∨ (r = globalHelpResult cliConf
     ∧ run Number cliConf inputCliArgs = Exit 1 (Result r))
  ∨ (success r = true ∧ is_Some (command r) ∧ action r ≠ ActVersion
     ∧ ∃ r', run Number cliConf inputCliArgs = Exit 0 (Result r')
             ∧ success r' = true ∧ action r' = action r
             ∧ command r' = command r).
Proof.
  intros H. unfold run. rewrite H. jsimpl.
  destruct (inputParser_command _ _ _ _ H)
    as [->|[->|(isHelpe & cmd & cliArgs & cc & _ & _ & Hp & Hs & Hnov)]];
    [by left | by right; left |].
  right; right.
  destruct (parseTokens_shape _ _ _ _ _ _ _ Hnov Hs)
    as (Hsucc & Hact & _ & c & Hc & Hname & _).
  split; [done|]. split; [by rewrite Hc|].
  split; [rewrite Hact; by destruct isHelpe|].
  unfold renderHelp, commandHelpDoc. rewrite Hc, Hname, Hp.
  destruct (isHelpAction (action r) && bool_decide (is_Some (Some c)));
    jsimpl; cbn [success setOutput]; rewrite Hsucc; cbn [negb];
    eexists; (split; [reflexivity|]); cbn [success action command setOutput];
    done.
Qed.

End ExitStatus.

(** The claim fails as stated: for the configuration of the
    specification's examples, which the validator accepts, the argument
    lists [[]] and [["--help"]] yield the global help and the process ends
    with status 1. *)
Lemma global_help_exits_1 :
  validateConf appJson = Ret tt
  ∧ asCliConfType appJson = Some appConf
  ∧ inputParser decimalNumber ["--help"] appConf
    = Ret (globalHelpResult appConf)
  ∧ action (globalHelpResult appConf) = ActHelp
  ∧ run decimalNumber appConf ["--help"]
    = Exit 1 (Result (globalHelpResult appConf))
  ∧ run decimalNumber appConf [] = Exit 1 (Result (globalHelpResult appConf)).
Proof. repeat split; vm_compute; reflexivity. Qed.

(** C1 (as amended).  For every configuration and argument list: a version
    outcome and a help outcome for a command end the process with status 0;
    the global help (the outcome for an empty list, after the removal of the
    help flag) is emitted with [success = false] and ends it with status 1;
    apart from the global help, status 1 occurs only when validation or
    parsing has raised an error, whose message is then printed.  The process
    never ends with a native exception. *)
Theorem exit_status_of_outcomes (Number : string → number)
    (cliConf : CliConfType) (inputCliArgs : list string) :
  (∀ r, inputParser Number inputCliArgs cliConf = Ret r →
        action r = ActVersion ∨ (action r = ActHelp ∧ is_Some (command r)) →
        ∃ r', run Number cliConf inputCliArgs = Exit 0 (Result r')
              ∧ action r' = action r)
  ∧ (∀ r, inputParser Number inputCliArgs cliConf = Ret r →
          action r = ActHelp → command r = None →
          r = globalHelpResult cliConf ∧ success r = false
          ∧ run Number cliConf inputCliArgs = Exit 1 (Result r))
  ∧ (∀ p, run Number cliConf inputCliArgs = Exit 1 p →
          (∃ m, p = Failure m
                ∧ inputParser Number inputCliArgs cliConf = ExitError m)
          ∨ (p = Result (globalHelpResult cliConf)
             ∧ inputParser Number inputCliArgs cliConf
               = Ret (globalHelpResult cliConf)))
  ∧ run Number cliConf inputCliArgs ≠ Uncaught.
Proof.
  split; [|split; [|split]].
  - intros r Hr Hact.
    destruct (run_Ret _ _ _ _ Hr)
      as [[-> Hrun]|[[-> Hrun]|(_ & _ & _ & r' & Hrun & _ & Ha & _)]]; eauto.
    destruct Hact as [Hact|[_ [? Hc]]]; discriminate.
  - intros r Hr Hact Hcmd.
    destruct (run_Ret _ _ _ _ Hr)
      as [[-> Hrun]|[[-> Hrun]|(_ & [c Hc] & _)]];
      [discriminate | done | congruence].
  - intros p Hrun.
    destruct (inputParser Number inputCliArgs cliConf) as [r|m|] eqn:Hr.
    + right.
      destruct (run_Ret _ _ _ _ Hr)
        as [[-> Hrun']|[[-> Hrun']|(_ & _ & _ & r' & Hrun' & _)]];
        rewrite Hrun' in Hrun; [discriminate | | discriminate].
      by simplify_eq.
    + left. exists m. unfold run in Hrun. rewrite Hr in Hrun.
      jsimpl_in Hrun. by simplify_eq.
    + by apply inputParser_no_TypeError in Hr.
  - intros Hrun.
    destruct (inputParser Number inputCliArgs cliConf) as [r|m|] eqn:Hr.
    + destruct (run_Ret _ _ _ _ Hr)
        as [[_ Hrun']|[[_ Hrun']|(_ & _ & _ & r' & Hrun' & _)]]; congruence.
    + unfold run in Hrun. rewrite Hr in Hrun. discriminate.
    + by apply inputParser_no_TypeError in Hr.
Qed.

Lemma exit_status_of_outcomes_witness :
  inputParser decimalNumber ["--version"] appConf = Ret (versionResult appConf)
  ∧ ∃ r', run decimalNumber appConf ["--version"] = Exit 0 (Result r')
          ∧ action r' = action (versionResult appConf).
Proof.
  split; [reflexivity|].
  apply (exit_status_of_outcomes decimalNumber appConf ["--version"]).
  - reflexivity.
  - left. reflexivity.
Defined.

(** ** Flags and their values *)

Lemma lookup_drop_S (cliArgs : list string) (i : nat) :
  drop (S i) cliArgs
  = match cliArgs !! (i + 1) with
    | Some value => value :: drop (i + 1 + 1) cliArgs
    | None => []
    end.
Proof.
  rewrite !Nat.add_1_r.
  destruct (cliArgs !! S i) as [value|] eqn:Hnext.
  - by apply drop_S.
  - apply lookup_ge_None in Hnext. by rewrite drop_ge by lia.
Qed.

(** The reverse mapping of [hasAliasFlag] sends an alias to the last flag
    declared with it. *)
Lemma aliasMapFlag_filter (commandConf : CommandType) (a : string) :
  aliasMapFlag commandConf !! a
  = fst <$> last (filter (λ kv, flag_alias kv.2 = a) (cmd_flags commandConf)).
Proof.
  unfold aliasMapFlag.
  induction (cmd_flags commandConf) as [|kv l IH] using rev_ind; [done|].
  rewrite foldl_app, filter_app. simpl. rewrite filter_cons, filter_nil.
  destruct (decide (flag_alias kv.2 = a)) as [<-|Hne].
  - rewrite lookup_insert_eq. by rewrite last_snoc.
  - rewrite lookup_insert_ne by done. by rewrite app_nil_r.
Qed.

Lemma flagNamed_declared (commandConf : CommandType) (token flag : string) :
  flagNamed commandConf token = Some flag →
  flag ∈ Object_keys (cmd_flags commandConf).
Proof.
  unfold flagNamed. destruct (startsWith token "--").
  - destruct (negb (streq (slice 2 token) "")
              && bool_decide (slice 2 token ∈ (cmd_flags commandConf).*1))
      eqn:E; [|done].
    intros [= <-]. apply andb_true_iff in E as [_ E].
    by apply bool_decide_eq_true in E.
  - destruct (startsWith token "-"); [|done].
    destruct (streq (slice 1 token) ""); [done|].
    rewrite <- aliasMapFlag_filter. apply aliasMapFlag_declared.
Qed.

(** [hasFlag(arg) || hasAliasFlag(arg)] returns the flag that the token
    names; it returns the empty string for a token that names no flag, and
    for one that names a flag declared under the empty name. *)
Lemma resolveFlag_flagNamed (arg : string) (commandConf : CommandType)
    (cmd flag : string) :
  resolveFlag arg commandConf cmd = Ret flag →
  (flag ≠ "" ∧ flagNamed commandConf arg = Some flag)
  ∨ (flag = "" ∧ (flagNamed commandConf arg = None
                  ∨ flagNamed commandConf arg = Some "")).
Proof.
  unfold resolveFlag, hasFlag, hasAliasFlag, checkFlagNotEempty, flagNamed.
  destruct (startsWith arg "--") eqn:Hdd.
  - destruct (streq (slice 2 arg) "") eqn:Hempty; jsimpl; [done|].
    destruct (includes (Object_keys (cmd_flags commandConf)) (slice 2 arg))
      eqn:Hinc; jsimpl; [|done].
    rewrite Hempty. intros [= <-]. left. split; [by apply streq_false|].
    apply includes_elem_of in Hinc. by rewrite bool_decide_eq_true_2.
  - jsimpl. rewrite streq_refl.
    destruct (startsWith arg "-"); [|intros [= <-]; right; auto].
    destruct (streq (slice 1 arg) "") eqn:Hempty; jsimpl; [done|].
    rewrite <- aliasMapFlag_filter.
    destruct (aliasMapFlag commandConf !! slice 1 arg) as [f|]; [|done].
    intros [= <-]. destruct (decide (f = "")) as [->|]; [right|left]; auto.
Qed.

Lemma flagNamed_resolveFlag (arg : string) (commandConf : CommandType)
    (cmd flag : string) :
  flagNamed commandConf arg = Some flag → flag ≠ "" →
  resolveFlag arg commandConf cmd = Ret flag.
Proof.
  unfold resolveFlag, hasFlag, hasAliasFlag, checkFlagNotEempty, flagNamed.
  destruct (startsWith arg "--").
  - destruct (streq (slice 2 arg) "") eqn:Hempty; [done|].
    destruct (bool_decide (slice 2 arg ∈ (cmd_flags commandConf).*1))
      eqn:Hin; [|done].
    intros [= <-] _. jsimpl. apply bool_decide_eq_true in Hin.
    assert (Hinc : includes (Object_keys (cmd_flags commandConf))
                     (slice 2 arg) = true) by (by apply includes_elem_of).
    rewrite Hinc. jsimpl. by rewrite Hempty.
  - jsimpl. rewrite streq_refl. destruct (startsWith arg "-"); [|done].
    destruct (streq (slice 1 arg) ""); [done|]. jsimpl.
    rewrite <- aliasMapFlag_filter.
    destruct (aliasMapFlag commandConf !! slice 1 arg) as [f|]; [|done].
    by intros [= ->].
Qed.

(** The assignment of [setFlag], for every key but [__proto__]. *)
Lemma setFlag_withFlag (flag : string) (value : FlagValueType)
    (r : InputActionType) (c : CommandResult) :
  flag ≠ "__proto__" → command r = Some c →
  setFlag flag value r = withFlag flag value r c.
Proof.
  intros Hne Hc. unfold setFlag, withFlag.
  apply streq_false in Hne. rewrite Hne, Hc. done.
Qed.

(** A binding of the mapping stays until a token names its flag again. *)
Lemma parseTokens_keeps (Number : string → number) (cliConf : CliConfType)
    (commandConf : CommandType) (cmd : string) (tokens : list string)
    (flag : string) (value : FlagValueType) (r rf : InputActionType)
    (c cf : CommandResult) :
  command r = Some c →
  flags c !! flag = Some value →
  (∀ t, t ∈ tokens → flagNamed commandConf t ≠ Some flag) →
  parseTokens Number cliConf commandConf cmd tokens r = Ret rf →
  command rf = Some cf →
  flags cf !! flag = Some value.
Proof.
  intros Hc Hflag Hnone Hparse Hcf.
  set (P := λ r : InputActionType,
         ∃ c, command r = Some c ∧ flags c !! flag = Some value).
  assert (HP : P rf).
  { apply (parseTokens_invariant Number cliConf commandConf cmd P tokens)
      with (r := r); [| | | by exists c | exact Hparse].
    - by intros r0 arg _ _ HP.
    - intros r0 arg _ _ _ (c0 & Hc0 & Hl). unfold P, pushArg. simpl.
      rewrite Hc0. simpl. by eexists.
    - intros r0 arg flag' flagConf v Harg Hres Hne _ _ (c0 & Hc0 & Hl).
      unfold setFlag. destruct (streq flag' "__proto__"); [by exists c0|].
      unfold P. simpl. rewrite Hc0. simpl. eexists. split; [done|]. simpl.
      rewrite lookup_insert_ne; [done|]. intros ->.
      destruct (resolveFlag_flagNamed _ _ _ _ Hres) as [[_ Hn]|[? _]];
        [|done].
      by apply (Hnone arg). }
  destruct HP as (c' & Hc' & Hl). congruence.
Qed.

(** A step of the loop that binds a flag has the two properties of
    [consumesFor]. *)
Lemma consumesFor_step (Number : string → number) (cliConf : CliConfType)
    (commandConf : CommandType) (cmd : string) (cliArgs : list string)
    (i n : nat) (flag : string) (value : FlagValueType)
    (r : InputActionType) (c : CommandResult) :
  parseArgs_loop Number cliConf commandConf cmd cliArgs
    (length cliArgs - i) i r
  = parseArgs_loop Number cliConf commandConf cmd cliArgs
      (length cliArgs - (i + n)) (i + n) (withFlag flag value r c) →
  consumesFor Number cliConf commandConf cmd cliArgs i n flag value r c.
Proof.
  intros Hstep. split; [done|]. intros rf cf Hrf Hcf Hlater.
  rewrite Hstep, parseArgs_loop_tokens in Hrf by lia.
  eapply (parseTokens_keeps Number cliConf commandConf cmd
            (drop (i + n) cliArgs) flag value (withFlag flag value r c) rf);
    [reflexivity | apply lookup_insert_eq | | exact Hrf | exact Hcf].
  intros t (k & Hk)%list_elem_of_lookup. rewrite lookup_drop in Hk.
  apply (Hlater (i + n + k)); [lia | done].
Qed.

(** The claim fails as stated for a flag declared under the name
    [__proto__]: the validator accepts it, the token [--__proto__] is
    recognized as this flag of type boolean and the parse succeeds, but the
    assignment [flags[flag] = true] reaches the setter of
    [Object.prototype] and the mapping stays empty. *)
Lemma proto_flag_not_stored :
  validateConf protoNameJson = Ret tt
  ∧ asCliConfType protoNameJson = Some protoNameConf
  ∧ flagNamed protoNameCommand "--__proto__" = Some "__proto__"
  ∧ resolveFlag "--__proto__" protoNameCommand "init" = Ret "__proto__"
  ∧ inputParser decimalNumber ["init"; "--__proto__"] protoNameConf
    = Ret {| success := true; action := ActCommand; output := "";
             command := Some {| name := "init"; args := [];
                                flags := ∅ |} |}.
Proof. repeat split; vm_compute; reflexivity. Qed.

(** C5 (as amended).  In the loop of [inputParser] at index [i], for a
    token other than [--version]/[-v] that names a flag of the command
    declared under a name that is neither empty nor [__proto__]: the flag
    is declared, and
    - if its type is string, the next token is bound to the flag as its
      value and the loop goes on after that token;
    - if its type is number, the same with [Number] applied to the next
      token, whatever its text is: the conversion cannot fail the parse,
      and what it returns for text that is not numeric (NaN) is bound;
    - in both cases, when there is no next token, the parse ends with the
      error "The flag --<flag> must have a value in command: <command>";
    - if its type is boolean, [true] is bound and the loop goes on with the
      very next token;
    and the binding is in every result of the loop, unless a later token
    names the flag again. *)
Theorem flag_value_consumption (Number : string → number)
    (cliConf : CliConfType) (commandConf : CommandType) (cmd : string)
    (cliArgs : list string) (i : nat) (arg flag : string)
    (r : InputActionType) (c : CommandResult) :
  cliArgs !! i = Some arg →
  isVersionToken arg = false →
  flagNamed commandConf arg = Some flag →
  flag ≠ "" →
  flag ≠ "__proto__" →
  command r = Some c →
  ∃ flagConf,
    prop (cmd_flags commandConf) flag = Some flagConf
    ∧ match flag_type flagConf, cliArgs !! (i + 1) with
      | KBoolean, _ =>
          consumesFor Number cliConf commandConf cmd cliArgs i 1 flag
            (VBoolean true) r c
      | KString, Some value =>
          consumesFor Number cliConf commandConf cmd cliArgs i 2 flag
            (VString value) r c
      | KNumber, Some value =>
          consumesFor Number cliConf commandConf cmd cliArgs i 2 flag
            (VNumber (Number value)) r c
      | _, None =>
          parseArgs_loop Number cliConf commandConf cmd cliArgs
            (length cliArgs - i) i r
          = ExitError ("The flag --" +:+ flag
                       +:+ " must have a value in command: " +:+ cmd)
      end.
Proof.
  intros Hi Hv Hnamed Hne Hproto Hc.
  pose proof (flagNamed_resolveFlag _ _ cmd _ Hnamed Hne) as Hres.
  pose proof (flagNamed_declared _ _ _ Hnamed) as Hdecl.
  apply prop_is_Some in Hdecl as [flagConf Hprop].
  exists flagConf. split; [done|].
  assert (Hstep : parseArgs_loop Number cliConf commandConf cmd cliArgs
                    (length cliArgs - i) i r
                  = match flag_type flagConf, cliArgs !! (i + 1) with
                    | KBoolean, _ =>
                        parseArgs_loop Number cliConf commandConf cmd cliArgs
                          (length cliArgs - (i + 1)) (i + 1)
                          (withFlag flag (VBoolean true) r c)
                    | KString, Some value =>
                        parseArgs_loop Number cliConf commandConf cmd cliArgs
                          (length cliArgs - (i + 2)) (i + 2)
                          (withFlag flag (VString value) r c)
                    | KNumber, Some value =>
                        parseArgs_loop Number cliConf commandConf cmd cliArgs
                          (length cliArgs - (i + 2)) (i + 2)
                          (withFlag flag (VNumber (Number value)) r c)
                    | _, None =>
                        ExitError ("The flag --" +:+ flag
                                   +:+ " must have a value in command: "
                                   +:+ cmd)
                    end).
  { rewrite !parseArgs_loop_tokens by lia.
    rewrite (drop_S _ _ _ Hi). cbn [parseTokens].
    rewrite Hv, Hres. jsimpl.
    assert (streq flag "" = false) as -> by (by apply streq_false).
    rewrite Hprop, lookup_drop_S.
    replace (i + 2) with (i + 1 + 1) by lia.
    destruct (flag_type flagConf), (cliArgs !! (i + 1)) as [value|] eqn:Hnext;
      try done;
      rewrite (setFlag_withFlag flag _ r c Hproto Hc);
      rewrite ?parseArgs_loop_tokens by lia; try done.
    - replace (drop (i + 1) cliArgs) with (drop (S i) cliArgs)
        by (by rewrite Nat.add_1_r).
      by rewrite lookup_drop_S, Hnext.
    - replace (drop (i + 1) cliArgs) with (drop (S i) cliArgs)
        by (by rewrite Nat.add_1_r).
      by rewrite lookup_drop_S, Hnext. }
  destruct (flag_type flagConf), (cliArgs !! (i + 1)) as [value|];
    try done; by apply consumesFor_step.
Qed.

Lemma flag_value_consumption_witness :
  ∃ flagConf,
    prop (cmd_flags buildCommand) "jobs" = Some flagConf
    ∧ match flag_type flagConf, ["--jobs"; "many"; "app"] !! (0 + 1) with
      | KBoolean, _ =>
          consumesFor decimalNumber buildConf buildCommand "build"
            ["--jobs"; "many"; "app"] 0 1 "jobs" (VBoolean true)
            (initialResult false "build")
            {| name := "build"; args := []; flags := ∅ |}
      | KString, Some value =>
          consumesFor decimalNumber buildConf buildCommand "build"
            ["--jobs"; "many"; "app"] 0 2 "jobs" (VString value)
            (initialResult false "build")
            {| name := "build"; args := []; flags := ∅ |}
      | KNumber, Some value =>
          consumesFor decimalNumber buildConf buildCommand "build"
            ["--jobs"; "many"; "app"] 0 2 "jobs"
            (VNumber (decimalNumber value))
            (initialResult false "build")
            {| name := "build"; args := []; flags := ∅ |}
      | _, None =>
          parseArgs_loop decimalNumber buildConf buildCommand "build"
            ["--jobs"; "many"; "app"]
            (length ["--jobs"; "many"; "app"] - 0) 0
            (initialResult false "build")
          = ExitError ("The flag --" +:+ "jobs"
                       +:+ " must have a value in command: " +:+ "build")
      end.
Proof.
  apply (flag_value_consumption decimalNumber buildConf buildCommand "build"
           ["--jobs"; "many"; "app"] 0 "--jobs" "jobs"
           (initialResult false "build")
           {| name := "build"; args := []; flags := ∅ |}).
  - reflexivity.
  - reflexivity.
  - reflexivity.
  - discriminate.
  - discriminate.
  - reflexivity.
Defined.

(** Text that is not numeric does not fail the parse: the value of the
    conversion, here NaN, is stored for the flag. *)
Example number_flag_not_validated :
  (λ r, (success r, flags <$> command r))
    <$> (match inputParser decimalNumber ["build"; "--jobs"; "many"] buildConf
         with Ret r => Some r | _ => None end)
  = Some (true, Some {["jobs" := VNumber NaN]}).
Proof. vm_compute. reflexivity. Qed.

(** ** Keys of the flags mapping and positional arguments *)

#[local] Set Warnings "-clear-no-such-hyp".

Section Supplied.

Variable Number : string → number.
Variable cliConf : CliConfType.
Variable commandConf : CommandType.
Variable cmd : string.

Lemma setFlag_command (flag : string) (value : FlagValueType)
    (r : InputActionType) (c : CommandResult) :
  command r = Some c →
  command (setFlag flag value r)
  = Some {| name := name c; args := args c;
            flags := if streq flag "__proto__" then flags c
                     else <[flag := value]> (flags c) |}.
Proof.
  intros H. unfold setFlag. destruct (streq flag "__proto__"); simpl;
    rewrite H; [by destruct c | done].
Qed.

Lemma pushArg_command (arg : string) (r : InputActionType)
    (c : CommandResult) :
  command r = Some c →
  command (pushArg arg r)
  = Some {| name := name c; args := args c ++ [arg]; flags := flags c |}.
Proof. intros H. unfold pushArg; simpl. by rewrite H. Qed.

(** The keys of the mapping after a scan without version token are the
    keys before it and the flags that the tokens supply, when no flag is
    declared under the empty name or under [__proto__]. *)
Lemma parseTokens_dom (tokens : list string) (r r' : InputActionType)
    (c : CommandResult) :
  "" ∉ Object_keys (cmd_flags commandConf) →
  "__proto__" ∉ Object_keys (cmd_flags commandConf) →
  (∀ t, t ∈ tokens → isVersionToken t = false) →
  command r = Some c →
  parseTokens Number cliConf commandConf cmd tokens r = Ret r' →
  ∃ c', command r' = Some c'
        ∧ dom (flags c')
          = dom (flags c) ∪ list_to_set (suppliedFlags commandConf tokens).
Proof.
  intros Hempty Hproto.
  assert (H : ∀ n ts, length ts ≤ n → ∀ r c,
             (∀ t, t ∈ ts → isVersionToken t = false) →
             command r = Some c →
             parseTokens Number cliConf commandConf cmd ts r = Ret r' →
             ∃ c', command r' = Some c'
                   ∧ dom (flags c')
                     = dom (flags c)
                       ∪ list_to_set (suppliedFlags commandConf ts)).
  { induction n as [|n IH]; intros ts Hn r0 c0 Hnov Hc Hparse.
    { destruct ts; [|simpl in Hn; lia]. simpl in Hparse. simplify_eq.
      exists c0. split; [done|]. simpl. set_solver. }
    destruct ts as [|arg rest].
    { simpl in Hparse. simplify_eq. exists c0. split; [done|]. simpl.
      set_solver. }
    simpl in Hn. cbn [parseTokens suppliedFlags] in *.
    rewrite (Hnov arg) in Hparse by left.
    assert (Hrest : ∀ t, t ∈ rest → isVersionToken t = false)
      by (intros t Ht; apply Hnov; by right).
    destruct (resolveFlag arg commandConf cmd) as [flag| |] eqn:Hres;
      jsimpl_in Hparse; [|done|done].
    destruct (resolveFlag_flagNamed _ _ _ _ Hres)
      as [[Hne Hnamed]|[-> Hnamed]].
    2:{ assert (Hnone : flagNamed commandConf arg = None).
        { destruct Hnamed as [?|Hnamed]; [done|].
          by apply flagNamed_declared in Hnamed. }
        rewrite Hnone. rewrite streq_refl in Hparse.
        eapply (IH rest) in Hparse as (c' & Hc' & Hdom);
          [| lia | done | by apply pushArg_command].
        exists c'. split; [done|]. by rewrite Hdom. }
    rewrite Hnamed.
    assert (streq flag "" = false) as Hf by (by apply streq_false).
    rewrite Hf in Hparse.
    assert (Hnp : streq flag "__proto__" = false).
    { apply streq_false. intros ->. by apply flagNamed_declared in Hnamed. }
    destruct (prop (cmd_flags commandConf) flag) as [flagConf|]; [|done].
    cbn [fmap option_fmap option_map].
    destruct (flag_type flagConf), rest as [|value rest']; try done.
    - eapply (IH rest') in Hparse as (c' & Hc' & Hdom);
        [| simpl in Hn; lia | intros t Ht; apply Hrest; by right
         | by apply setFlag_command].
      exists c'. split; [done|]. rewrite Hdom. simpl.
      rewrite Hnp, dom_insert_L. set_solver.
    - eapply (IH rest') in Hparse as (c' & Hc' & Hdom);
        [| simpl in Hn; lia | intros t Ht; apply Hrest; by right
         | by apply setFlag_command].
      exists c'. split; [done|]. rewrite Hdom. simpl.
      rewrite Hnp, dom_insert_L. set_solver.
    - eapply (IH []) in Hparse as (c' & Hc' & Hdom);
        [| simpl; lia | done | by apply setFlag_command].
      exists c'. split; [done|]. rewrite Hdom. simpl.
      rewrite Hnp, dom_insert_L. set_solver.
    - eapply (IH (value :: rest')) in Hparse as (c' & Hc' & Hdom);
        [| simpl in *; lia | done | by apply setFlag_command].
      exists c'. split; [done|]. rewrite Hdom. simpl.
      rewrite Hnp, dom_insert_L. set_solver. }
  intros Hnov Hc Hparse. by eapply (H (length tokens) tokens).
Qed.

(** Every key of the mapping after a scan is named by one of its tokens. *)
Lemma parseTokens_keys_named (tokens : list string)
    (r r' : InputActionType) (c c' : CommandResult) (k : string) :
  command r = Some c → flags c = ∅ →
  parseTokens Number cliConf commandConf cmd tokens r = Ret r' →
  command r' = Some c' →
  k ∈ dom (flags c') →
  ∃ t, t ∈ tokens ∧ flagNamed commandConf t = Some k.
Proof.
  intros Hc Hflags Hparse Hc' Hk.
  set (P := λ r : InputActionType,
         ∀ c, command r = Some c → k ∈ dom (flags c) →
              ∃ t, t ∈ tokens ∧ flagNamed commandConf t = Some k).
  assert (HP : P r').
  { apply (parseTokens_invariant Number cliConf commandConf cmd P tokens)
      with (r := r); [| | | | exact Hparse].
    - by intros r0 arg _ _ HP.
    - intros r0 arg _ _ _ HP c0 Hc0 Hin. unfold pushArg in Hc0.
      simpl in Hc0. destruct (command r0) as [c1|] eqn:Hc1; [|done].
      simpl in Hc0. simplify_eq. by apply (HP c1).
    - intros r0 arg flag flagConf v Harg Hres Hne _ _ HP.
      unfold setFlag. destruct (streq flag "__proto__"); [exact HP|].
      intros c0 Hc0 Hin. simpl in Hc0.
      destruct (command r0) as [c1|] eqn:Hc1; [|done].
      simpl in Hc0. simplify_eq. simpl in Hin.
      rewrite dom_insert_L in Hin.
      apply elem_of_union in Hin as [Hin|Hin]; [|by apply (HP c1)].
      apply elem_of_singleton in Hin. subst k. exists arg. split; [done|].
      by destruct (resolveFlag_flagNamed _ _ _ _ Hres) as [[_ ?]|[? _]].
    - intros c0 Hc0 Hin. assert (c0 = c) as -> by congruence.
      rewrite Hflags, dom_empty_L in Hin. by apply not_elem_of_empty in Hin. }
  by apply (HP c').
Qed.

End Supplied.

(** The claim fails as stated: the validator accepts a flag whose name is
    the empty string; its alias [-x] then resolves to the empty string,
    which [inputParser] reads as "not a flag", and the token becomes a
    positional argument. *)
Lemma dash_token_in_args :
  validateConf emptyNameJson = Ret tt
  ∧ asCliConfType emptyNameJson = Some emptyNameConf
  ∧ inputParser decimalNumber ["init"; "-x"] emptyNameConf
    = Ret {| success := true; action := ActCommand; output := "";
             command := Some {| name := "init"; args := ["-x"];
                                flags := ∅ |} |}
  ∧ startsWith "-x" "-" = true.
Proof. repeat split; vm_compute; reflexivity. Qed.

(** C8 (as amended).  In every result of [inputParser] that carries a
    command, the command is declared, each key of the flags mapping is a
    flag name declared for that command, and, provided no flag of that
    command is declared under the empty name, no positional argument starts
    with a dash. *)
Theorem result_flags_declared (Number : string → number)
    (cliConf : CliConfType) (inputCliArgs : list string)
    (r : InputActionType) (c : CommandResult) :
  inputParser Number inputCliArgs cliConf = Ret r →
  command r = Some c →
  ∃ commandConf,
    prop (conf_commands cliConf) (name c) = Some commandConf
    ∧ (∀ k, k ∈ dom (flags c) → k ∈ Object_keys (cmd_flags commandConf))
    ∧ ("" ∉ Object_keys (cmd_flags commandConf) →
       ∀ a, a ∈ args c → startsWith a "-" = false).
Proof.
  intros Hr Hc.
  destruct (inputParser_command _ _ _ _ Hr)
    as [->|[->|(isHelpe & cmd & cliArgs & cc & _ & _ & Hp & Hs & Hnov)]];
    [discriminate | discriminate |].
  destruct (parseTokens_shape _ _ _ _ _ _ _ Hnov Hs)
    as (_ & _ & _ & c' & Hc' & Hname & Hkeys & _ & Hargs).
  assert (c' = c) by congruence. subst c'.
  exists cc. rewrite Hname. split; [done|]. split.
  - intros k Hk. by apply Hkeys.
  - intros Hempty a Ha. by destruct (Hargs a Ha) as [_ [?|?]].
Qed.

Lemma result_flags_declared_witness :
  ∃ r c,
    inputParser decimalNumber ["build"; "app"; "-V"; "--out"; "-d"] buildConf
    = Ret r
    ∧ command r = Some c
    ∧ ∃ commandConf,
        prop (conf_commands buildConf) (name c) = Some commandConf
        ∧ (∀ k, k ∈ dom (flags c) → k ∈ Object_keys (cmd_flags commandConf))
        ∧ ("" ∉ Object_keys (cmd_flags commandConf) →
           ∀ a, a ∈ args c → startsWith a "-" = false).
Proof.
  eexists _, _. split; [vm_compute; reflexivity|]. split; [reflexivity|].
  eapply (result_flags_declared decimalNumber buildConf
            ["build"; "app"; "-V"; "--out"; "-d"]).
  - vm_compute. reflexivity.
  - reflexivity.
Defined.

(** A declared flag that is not supplied is absent, whatever its default:
    [out] and [verbose] have defaults and the mapping holds [jobs] alone. *)
Example defaults_left_out :
  (λ r, flags <$> command r)
    <$> (match inputParser decimalNumber ["build"; "app"; "--jobs"; "4"]
                 buildConf
         with Ret r => Some r | _ => None end)
  = Some (Some {["jobs" := VNumber (numberOfNat 4)]}).
Proof. vm_compute. reflexivity. Qed.

(** The claim fails as stated: a token that names a flag does not supply
    it when it stands after a flag of type string or number.  In
    [build --out --jobs] the token [--jobs] names the declared flag [jobs],
    but it is read as the value of [out]: the flag appears in the list and
    is absent from the mapping. *)
Lemma flag_token_read_as_value :
  inputParser decimalNumber ["build"; "--out"; "--jobs"] buildConf
  = Ret {| success := true; action := ActCommand; output := "";
           command := Some {| name := "build"; args := [];
                              flags := {["out" := VString "--jobs"]} |} |}
  ∧ prop (conf_commands buildConf) "build" = Some buildCommand
  ∧ flagNamed buildCommand "--jobs" = Some "jobs"
  ∧ resolveFlag "--jobs" buildCommand "build" = Ret "jobs"
  ∧ ({["out" := VString "--jobs"]} : gmap string FlagValueType) !! "jobs"
    = None.
Proof. repeat split; vm_compute; reflexivity. Qed.

(** C9 (as amended).  A declared default is never applied: in every result
    of [inputParser] that carries a command, every value in the flags
    mapping is [true] or is read from a token of the argument list, and a
    flag that no token of the list names is absent from the mapping, not
    bound to its default.  When no flag of the command is declared under
    the empty name or under [__proto__], the keys of the mapping are
    exactly the flags that the tokens of the command supply: those named by
    a token after the command name (after the removal of the help flag)
    that is not read as the value of a flag of type string or number. *)
Theorem defaults_never_applied (Number : string → number)
    (cliConf : CliConfType) (inputCliArgs : list string)
    (r : InputActionType) (c : CommandResult) :
  inputParser Number inputCliArgs cliConf = Ret r →
  command r = Some c →
  ∃ isHelpe commandConf cliArgs,
    afterHelp isHelpe inputCliArgs = name c :: cliArgs
    ∧ action r = (if isHelpe then ActHelp else ActCommand)
    ∧ prop (conf_commands cliConf) (name c) = Some commandConf
    ∧ ("" ∉ Object_keys (cmd_flags commandConf) →
       "__proto__" ∉ Object_keys (cmd_flags commandConf) →
       dom (flags c) = list_to_set (suppliedFlags commandConf cliArgs))
    ∧ (∀ k, (∀ t, t ∈ inputCliArgs → flagNamed commandConf t ≠ Some k) →
            flags c !! k = None)
    ∧ (∀ k v, flags c !! k = Some v →
              v = VBoolean true
              ∨ ∃ t, t ∈ inputCliArgs
                     ∧ (v = VString t ∨ v = VNumber (Number t))).
Proof.
  intros Hr Hc.
  destruct (inputParser_command _ _ _ _ Hr)
    as [->|[->|(isHelpe & cmd & cliArgs & cc & Hl & Hsub & Hp & Hs & Hnov)]];
    [discriminate | discriminate |].
  destruct (parseTokens_shape _ _ _ _ _ _ _ Hnov Hs)
    as (_ & Hact & _ & c' & Hc' & Hname & _ & Hvals & _).
  assert (c' = c) by congruence. subst c'.
  exists isHelpe, cc, cliArgs. rewrite Hname.
  split; [done|]. split; [done|]. split; [done|]. split; [|split].
  - intros Hempty Hproto.
    destruct (parseTokens_dom Number cliConf cc cmd cliArgs
                (initialResult isHelpe cmd) r _ Hempty Hproto Hnov eq_refl Hs)
      as (c' & Hc'' & Hdom).
    assert (c' = c) by congruence. subst c'.
    rewrite Hdom. simpl. rewrite dom_empty_L. by rewrite (left_id_L ∅ (∪)).
  - intros k Hnone. apply not_elem_of_dom. intros Hin.
    destruct (parseTokens_keys_named Number cliConf cc cmd cliArgs
                (initialResult isHelpe cmd) r _ c k eq_refl eq_refl Hs Hc Hin)
      as (t & Ht & Hnamed).
    apply (Hnone t); [by apply Hsub | done].
  - intros k v Hlook.
    destruct (Hvals k v Hlook) as [?|(t & Ht & Hv)]; [by left|].
    right. exists t. split; [by apply Hsub | done].
Qed.

Lemma defaults_never_applied_witness :
  ∃ r c,
    inputParser decimalNumber ["build"; "app"; "--jobs"; "4"] buildConf = Ret r
    ∧ command r = Some c
    ∧ ∃ isHelpe commandConf cliArgs,
        afterHelp isHelpe ["build"; "app"; "--jobs"; "4"] = name c :: cliArgs
        ∧ action r = (if isHelpe then ActHelp else ActCommand)
        ∧ prop (conf_commands buildConf) (name c) = Some commandConf
        ∧ ("" ∉ Object_keys (cmd_flags commandConf) →
           "__proto__" ∉ Object_keys (cmd_flags commandConf) →
           dom (flags c) = list_to_set (suppliedFlags commandConf cliArgs))
        ∧ (∀ k, (∀ t, t ∈ ["build"; "app"; "--jobs"; "4"] →
                      flagNamed commandConf t ≠ Some k) →
                flags c !! k = None)
        ∧ (∀ k v, flags c !! k = Some v →
                  v = VBoolean true
                  ∨ ∃ t, t ∈ ["build"; "app"; "--jobs"; "4"]
                         ∧ (v = VString t ∨ v = VNumber (decimalNumber t))).
Proof.
  eexists _, _. split; [vm_compute; reflexivity|]. split; [reflexivity|].
  eapply (defaults_never_applied decimalNumber buildConf
            ["build"; "app"; "--jobs"; "4"]).
  - vm_compute. reflexivity.
  - reflexivity.
Defined.

(** ** Validation of the configuration *)

Lemma hasOwnProperty_not_ExitError (v : jsval) (key m : string) :
  hasOwnProperty v key ≠ ExitError m.
Proof. by destruct v. Qed.

Lemma get_not_ExitError (v : jsval) (key m : string) :
  get v key ≠ ExitError m.
Proof. destruct v; simpl; try done; by case_match. Qed.

Lemma ownKeys_not_ExitError (v : jsval) (m : string) :
  ownKeys v ≠ ExitError m.
Proof. by destruct v. Qed.

(** One required field: the code's two tests, in this order, against the
    rule's findings for the field followed by those of the fields after
    it. *)
Lemma require_bind (ok : jsval → bool) (path : list string) (obj : jsval)
    (key : string) (code : jsval → jsres unit) (k : jsval → list finding)
    (m1 m2 : string) :
  m1 = diagnostic (path ++ [key]) Missing →
  m2 = diagnostic (path ++ [key]) Mistyped →
  (∀ v, get obj key = Ret v → ok v = true → code v = firstFinding (k v)) →
  (has ← hasOwnProperty obj key;
   if negb has then ExitError m1
   else v ← get obj key; if negb (ok v) then ExitError m2 else code v)
  = firstFinding (require ok path obj key ++ k (valueAt obj key)).
Proof.
  intros -> -> Hcode. unfold require, valueAt.
  destruct (hasOwnProperty obj key) as [[|]|m|] eqn:Hh; jsimpl; try done.
  - destruct (get obj key) as [v|m|] eqn:Hg; jsimpl; try done.
    + destruct (ok v) eqn:Hok; jsimpl; [|done]. by apply Hcode.
    + by apply get_not_ExitError in Hg.
  - by apply hasOwnProperty_not_ExitError in Hh.
Qed.

(** The same when the fields after it do not depend on its value. *)
Lemma require_bind_const (ok : jsval → bool) (path : list string)
    (obj : jsval) (key : string) (code : jsval → jsres unit)
    (rest : list finding) (m1 m2 : string) :
  m1 = diagnostic (path ++ [key]) Missing →
  m2 = diagnostic (path ++ [key]) Mistyped →
  (∀ v, code v = firstFinding rest) →
  (has ← hasOwnProperty obj key;
   if negb has then ExitError m1
   else v ← get obj key; if negb (ok v) then ExitError m2 else code v)
  = firstFinding (require ok path obj key ++ rest).
Proof.
  intros H1 H2 Hcode.
  by apply (require_bind ok path obj key code (λ _, rest) m1 m2).
Qed.

(** [forEach] against the findings of the elements in turn. *)
Lemma forEach_findings {A} (f : A → jsres unit) (g : A → list finding)
    (xs : list A) (rest : list finding) :
  (∀ x tail, (f x;; firstFinding tail) = firstFinding (g x ++ tail)) →
  (forEach f xs;; firstFinding rest) = firstFinding ((xs ≫= g) ++ rest).
Proof.
  intros Hstep. induction xs as [|x xs IH]; [done|].
  change ((x :: xs) ≫= g) with (g x ++ (xs ≫= g)).
  rewrite <- app_assoc, <- Hstep, <- IH. cbn [forEach].
  by destruct (f x).
Qed.

Lemma forEach_imap_findings {A} (f : A → jsres unit)
    (g : nat → A → list finding) (xs : list A) (rest : list finding) :
  (∀ i x tail, (f x;; firstFinding tail) = firstFinding (g i x ++ tail)) →
  (forEach f xs;; firstFinding rest) = firstFinding (mjoin (imap g xs) ++ rest).
Proof.
  intros Hstep. revert g Hstep.
  induction xs as [|x xs IH]; intros g Hstep; [done|].
  rewrite imap_cons.
  change (mjoin (g 0 x :: imap (g ∘ S) xs))
    with (g 0 x ++ mjoin (imap (g ∘ S) xs)).
  rewrite <- app_assoc, <- Hstep, <- (IH (g ∘ S)) by (intros; apply Hstep).
  cbn [forEach]. by destruct (f x).
Qed.

Lemma checkArgConf_findings (commandName : string) (i : nat) (arg : jsval)
    (tail : list finding) :
  (checkArgConf commandName arg;; firstFinding tail)
  = firstFinding (argFindings commandName i arg ++ tail).
Proof.
  unfold checkArgConf, argFindings.
  rewrite <- (require_bind_const isStringValue
                ["commands"; commandName; "args"; pretty i] arg "name"
                (λ _, firstFinding tail) tail
                ("The command arg must have a name property in commands."
                 +:+ commandName)
                ("The command arg name property must be a string in commands."
                 +:+ commandName)); [|done..].
  destruct (hasOwnProperty arg "name") as [[|]| |]; jsimpl; try done.
  destruct (get arg "name") as [v| |]; jsimpl; try done.
  unfold isStringValue. by destruct (streq (typeof v) "string").
Qed.

(** Case analysis on the read of a field, on both sides at once. *)
Ltac has_case o k :=
  let H := fresh "Hhas" in
  destruct (hasOwnProperty o k) as [[|]|?|] eqn:H;
  [ | | by apply hasOwnProperty_not_ExitError in H | ];
  jsimpl; cbn [app firstFinding]; try done.

Ltac get_case o k v :=
  let H := fresh "Hget" in
  destruct (get o k) as [v|?|] eqn:H;
  [ | by apply get_not_ExitError in H | ];
  jsimpl; cbn [app firstFinding]; try done.

Ltac test_case :=
  match goal with
  | |- context [if negb ?b then _ else _] => destruct b eqn:?
  end;
  jsimpl; cbn [app firstFinding]; try done.

Lemma checkFlagConf_findings (commandName : string) (flagsObj : jsval)
    (flagName : string) (tail : list finding) :
  (checkFlagConf commandName flagsObj flagName;; firstFinding tail)
  = firstFinding (flagFindings commandName flagsObj flagName ++ tail).
Proof.
  unfold checkFlagConf, flagFindings, valueAt.
  destruct (get flagsObj flagName) as [flagConf|?|] eqn:Hconf; jsimpl;
    [| by apply get_not_ExitError in Hconf | done].
  unfold require, isFlagTypeValue, isPrimitiveValue, isStringValue.
  has_case flagConf "type". get_case flagConf "type" ty. test_case.
  has_case flagConf "default". get_case flagConf "default" d. test_case.
  has_case flagConf "description". get_case flagConf "description" descr.
  test_case.
  has_case flagConf "alias". get_case flagConf "alias" a. test_case.
Qed.

Lemma bind_assoc {A B C} (m : jsres A) (f : A → jsres B) (g : B → jsres C) :
  (m ≫= f) ≫= g = m ≫= (λ a, f a ≫= g).
Proof. by destruct m. Qed.

(** The guard [length > 0] in front of a [forEach] changes nothing. *)
Lemma forEach_guard {A} (f : A → jsres unit) (xs : list A) :
  (if 0 <? length xs then forEach f xs else Ret tt) = forEach f xs.
Proof. by destruct xs. Qed.

(** [Object.keys(v).includes("description")] and
    [hasOwnProperty.call(v, "description")] agree. *)
Lemma ownKeys_description (v : jsval) :
  hasOwnProperty v "description"
  = (keys ← ownKeys v; Ret (includes keys "description")).
Proof. by destruct v. Qed.

Lemma flags_findings (commandName : string) (commandConf : jsval)
    (tail : list finding) :
  ((has ← hasOwnProperty commandConf "flags";
    if negb has then
      ExitError ("The command must have an flags property in commands."
                 +:+ commandName)
    else
    flagsObj ← get commandConf "flags";
    if negb (streq (typeof flagsObj) "object") then
      ExitError ("The command flags property must be an object in commands."
                 +:+ commandName)
    else
    flagNames ← ownKeys flagsObj;
    if 0 <? length flagNames
    then forEach (checkFlagConf commandName flagsObj) flagNames
    else Ret tt);; firstFinding tail)
  = firstFinding
      (require isObjectValue ["commands"; commandName] commandConf "flags"
       ++ flagsFindings commandName (valueAt commandConf "flags") ++ tail).
Proof.
  unfold require, valueAt, flagsFindings, isObjectValue.
  has_case commandConf "flags". get_case commandConf "flags" flagsObj.
  test_case.
  destruct (ownKeys flagsObj) as [flagNames|?|] eqn:Hkeys; jsimpl;
    [| by apply ownKeys_not_ExitError in Hkeys | done].
  rewrite forEach_guard.
  apply forEach_findings. intros. apply checkFlagConf_findings.
Qed.

Lemma checkCommandConf_findings (commands : jsval) (commandName : string)
    (tail : list finding) :
  (checkCommandConf commands commandName;; firstFinding tail)
  = firstFinding (commandFindings commands commandName ++ tail).
Proof.
  unfold checkCommandConf, commandFindings.
  destruct (get commands commandName) as [commandConf|?|] eqn:Hconf; jsimpl;
    [| by apply get_not_ExitError in Hconf
     | unfold valueAt; by rewrite Hconf].
  assert (valueAt commands commandName = commandConf) as ->
    by (unfold valueAt; by rewrite Hconf).
  rewrite <- !app_assoc.
  unfold require at 1 2. rewrite ownKeys_description.
  destruct (ownKeys commandConf) as [keys|?|] eqn:Hkeys; jsimpl;
    [| by apply ownKeys_not_ExitError in Hkeys | done].
  destruct (includes keys "description"); jsimpl; cbn [app firstFinding];
    [|done].
  unfold isStringValue.
  get_case commandConf "description" d. test_case.
  has_case commandConf "args".
  assert (Hval : ∀ v, get commandConf "args" = Ret v →
                      valueAt commandConf "args" = v)
    by (intros v Hv; unfold valueAt; by rewrite Hv).
  get_case commandConf "args" argsVal. rewrite (Hval _ eq_refl).
  destruct argsVal as [| | | | |items|]; try done.
  cbn [isArray argsFindings app]. rewrite forEach_guard.
  rewrite bind_assoc.
  rewrite <- (forEach_imap_findings (checkArgConf commandName)
                (argFindings commandName) items _
                (λ i x tail', checkArgConf_findings commandName i x tail')).
  by rewrite <- flags_findings.
Qed.

(** The validator and the rule: [validateConf] returns when the rule has
    no finding, and otherwise stops at the first finding in traversal
    order, with the diagnostic of that field. *)
Lemma validateConf_findings (cliConfObj : jsval) :
  validateConf cliConfObj = firstFinding (findings cliConfObj).
Proof.
  unfold validateConf, findings.
  unfold require, isStringValue, isObjectValue.
  has_case cliConfObj "name". get_case cliConfObj "name" n. test_case.
  has_case cliConfObj "version". get_case cliConfObj "version" v. test_case.
  has_case cliConfObj "description".
  get_case cliConfObj "description" d. test_case.
  has_case cliConfObj "commands". unfold valueAt.
  get_case cliConfObj "commands" commands.
  unfold commandsFindings, isObjectValue.
  destruct (streq (typeof commands) "object") eqn:Hobj; jsimpl;
    cbn [app firstFinding]; [|done].
  destruct (ownKeys commands) as [commandNames|?|] eqn:Hkeys; jsimpl;
    [| by apply ownKeys_not_ExitError in Hkeys | done].
  rewrite <- (app_nil_r (commandNames ≫= commandFindings commands)).
  rewrite <- (forEach_findings (checkCommandConf commands)).
  - by destruct (forEach (checkCommandConf commands) commandNames) as [[]| |].
  - intros. apply checkCommandConf_findings.
Qed.

(** With several invalid fields the earliest in traversal order is the one
    reported. *)
Example earliest_field_reported :
  findings severalInvalidJson
  = [Violation ["commands"; "init"; "flags"; "force"; "type"] Mistyped;
     Violation ["commands"; "init"; "flags"; "force"; "default"] Mistyped;
     Violation ["commands"; "init"; "flags"; "force"; "description"] Missing;
     Violation ["commands"; "init"; "flags"; "force"; "alias"] Missing;
     Violation ["commands"; "build"; "description"] Missing;
     Violation ["commands"; "build"; "args"] Mistyped;
     Violation ["commands"; "build"; "flags"] Missing]
  ∧ validateConf severalInvalidJson
    = ExitError ("The command flag type property must be a string, number or boolean in "
                 +:+ "commands.init.flags.force").
Proof. split; vm_compute; reflexivity. Qed.



(** ** A validated object has the declared types *)

Lemma firstFinding_Ret (fs : list finding) : firstFinding fs = Ret tt → fs = [].
Proof. by destruct fs as [|[]]. Qed.

Lemma require_nil (ok : jsval → bool) (path : list string) (obj : jsval)
    (key : string) :
  require ok path obj key = [] → ∃ v, get obj key = Ret v ∧ ok v = true.
Proof.
  unfold require.
  destruct (hasOwnProperty obj key) as [[|]| |]; try done.
  destruct (get obj key) as [v| |]; try done.
  destruct (ok v) eqn:Hok; [eauto | done].
Qed.

Lemma field_Some (obj : jsval) (key : string) (v : jsval) :
  get obj key = Ret v → v ≠ JUndefined → field obj key = Some v.
Proof. intros Hget Hv. unfold field. rewrite Hget. by destruct v. Qed.

Lemma isStringValue_JStr (v : jsval) :
  isStringValue v = true → ∃ s, v = JStr s.
Proof. destruct v; try done. eauto. Qed.

Lemma require_string (path : list string) (obj : jsval) (key : string) :
  require isStringValue path obj key = [] →
  ∃ s, field obj key ≫= asString = Some s.
Proof.
  intros (v & Hget & (s & ->)%isStringValue_JStr)%require_nil.
  exists s. by rewrite (field_Some _ _ _ Hget).
Qed.

Lemma valueAt_get (obj : jsval) (key : string) (v : jsval) :
  get obj key = Ret v → valueAt obj key = v.
Proof. intros H. unfold valueAt. by rewrite H. Qed.

(** A value under which a required field was found is itself the result of
    its read. *)
Lemma valueAt_field (obj : jsval) (key key' : string) (v : jsval) :
  get (valueAt obj key) key' = Ret v →
  field obj key = Some (valueAt obj key).
Proof.
  unfold valueAt, field.
  destruct (get obj key) as [x| |]; try done. by destruct x.
Qed.

Lemma bind_findings_nil {A} (g : A → list finding) (xs : list A) :
  xs ≫= g = [] → Forall (λ x, g x = []) xs.
Proof.
  induction xs as [|x xs IH]; [by constructor|].
  change ((x :: xs) ≫= g) with (g x ++ (xs ≫= g)).
  intros [? ?]%app_eq_nil. constructor; auto.
Qed.

Lemma mapM_keys_is_Some {T} (conv : jsval → option T) (v : jsval)
    (keys : list string) :
  Forall (λ k, is_Some (field v k ≫= conv)) keys →
  is_Some (mapM (λ k, x ← field v k ≫= conv; Some (k, x)) keys).
Proof.
  intros H. apply mapM_is_Some. eapply Forall_impl; [exact H|].
  intros k [x Hx]. simpl. rewrite Hx. by eexists.
Qed.

Lemma asFlagConfig_valid (commandName flagName : string) (flagsObj : jsval) :
  flagFindings commandName flagsObj flagName = [] →
  is_Some (field flagsObj flagName ≫= asFlagConfig).
Proof.
  unfold flagFindings.
  intros (Hty & (Hd & (Hdescr & Ha)%app_eq_nil)%app_eq_nil)%app_eq_nil.
  destruct (require_string _ _ _ Hdescr) as [descr Hdescr'].
  destruct (require_string _ _ _ Ha) as [a Ha'].
  apply require_nil in Hty as (ty & Hty & Htyok).
  apply require_nil in Hd as (d & Hd & Hdok).
  rewrite (valueAt_field _ _ _ _ Hty). simpl.
  unfold asFlagConfig. rewrite Hdescr', Ha'.
  assert (Hkind : is_Some (field (valueAt flagsObj flagName) "type"
                           ≫= asFlagKind)).
  { rewrite (field_Some _ _ _ Hty) by (by destruct ty). simpl.
    destruct ty as [| | | |s| |]; try done. cbn in Htyok |- *.
    unfold isFlagTypeValue, includesValue, includes, allowedTypes in Htyok.
    cbn [existsb] in Htyok.
    destruct (streq s "string"), (streq s "number"), (streq s "boolean");
      try done; by eexists. }
  assert (Hdef : is_Some (field (valueAt flagsObj flagName) "default"
                          ≫= asFlagValue)).
  { rewrite (field_Some _ _ _ Hd) by (by destruct d). simpl.
    destruct d; try done; by eexists. }
  destruct Hkind as [k ->], Hdef as [dv ->]. by eexists.
Qed.

Lemma asArgType_valid (commandName : string) (i : nat) (arg : jsval) :
  argFindings commandName i arg = [] → is_Some (asArgType arg).
Proof.
  intros [n Hn]%require_string. unfold asArgType. rewrite Hn. by eexists.
Qed.

Lemma asArgs_valid (commandName : string) (items : list jsval) :
  mjoin (imap (argFindings commandName) items) = [] →
  is_Some (mapM asArgType items).
Proof.
  intros H. apply mapM_is_Some.
  assert (Hgen : ∀ (g : nat → jsval → list finding),
             (∀ i x, g i x = [] → is_Some (asArgType x)) →
             mjoin (imap g items) = [] → Forall (is_Some ∘ asArgType) items).
  { clear H. induction items as [|x items IH]; intros g Hg Hnil;
      [by constructor|].
    rewrite imap_cons in Hnil.
    change (mjoin (g 0 x :: imap (g ∘ S) items))
      with (g 0 x ++ mjoin (imap (g ∘ S) items)) in Hnil.
    apply app_eq_nil in Hnil as [H0 Hrest].
    constructor; [by eapply Hg|]. apply (IH (g ∘ S)); [|done].
    intros i y. apply Hg. }
  apply (Hgen (argFindings commandName)); [|done].
  intros i x. apply asArgType_valid.
Qed.

Lemma asFlags_valid (commandName : string) (flagsObj : jsval) :
  isObjectValue flagsObj = true →
  flagsFindings commandName flagsObj = [] →
  is_Some (asRecord asFlagConfig flagsObj).
Proof.
  unfold flagsFindings, asRecord. intros -> H.
  destruct (ownKeys flagsObj) as [flagNames| |]; try done.
  apply mapM_keys_is_Some. apply bind_findings_nil in H.
  eapply Forall_impl; [exact H|]. intros k. apply asFlagConfig_valid.
Qed.

Lemma asCommandType_valid (commands : jsval) (commandName : string) :
  commandFindings commands commandName = [] →
  is_Some (field commands commandName ≫= asCommandType).
Proof.
  unfold commandFindings.
  intros (Hdescr & (Hargs & (Hitems & (Hflags & Hfs)%app_eq_nil)%app_eq_nil)
            %app_eq_nil)%app_eq_nil.
  destruct (require_string _ _ _ Hdescr) as [descr Hdescr'].
  apply require_nil in Hargs as (argsVal & Hargs & Harr).
  apply require_nil in Hflags as (flagsObj & Hflags & Hobj).
  rewrite (valueAt_field _ _ _ _ Hargs). simpl.
  unfold asCommandType. rewrite Hdescr'. simpl.
  rewrite (valueAt_get _ _ _ Hargs) in Hitems.
  rewrite (valueAt_get _ _ _ Hflags) in Hfs.
  rewrite (field_Some _ _ _ Hargs) by (by destruct argsVal). simpl.
  destruct argsVal as [| | | | |items|]; try done.
  destruct (asArgs_valid _ _ Hitems) as [a ->]. simpl.
  rewrite (field_Some _ _ _ Hflags) by (by destruct flagsObj). simpl.
  destruct (asFlags_valid _ _ Hobj Hfs) as [f ->]. by eexists.
Qed.

(** Every object that the validator accepts reads as a [CliConfType]. *)
Lemma validateConf_cast (cliConfObj : jsval) :
  validateConf cliConfObj = Ret tt → is_Some (asCliConfType cliConfObj).
Proof.
  rewrite validateConf_findings. intros Hnil%firstFinding_Ret.
  unfold findings in Hnil.
  apply app_eq_nil in Hnil as (Hn & (Hv & (Hd & (Hc & Hcs)%app_eq_nil)
                                      %app_eq_nil)%app_eq_nil).
  destruct (require_string _ _ _ Hn) as [n Hn'].
  destruct (require_string _ _ _ Hv) as [v Hv'].
  destruct (require_string _ _ _ Hd) as [d Hd'].
  apply require_nil in Hc as (commands & Hc & Hobj).
  rewrite (valueAt_get _ _ _ Hc) in Hcs.
  unfold asCliConfType. rewrite Hn', Hv', Hd'. simpl.
  rewrite (field_Some _ _ _ Hc) by (by destruct commands). simpl.
  assert (Hrec : is_Some (asRecord asCommandType commands)).
  { unfold commandsFindings, asRecord in *. rewrite Hobj in Hcs.
    destruct (ownKeys commands) as [commandNames| |]; try done.
    apply mapM_keys_is_Some. apply bind_findings_nil in Hcs.
    eapply Forall_impl; [exact Hcs|]. intros k. apply asCommandType_valid. }
  destruct Hrec as [c ->]. by eexists.
Qed.

(** ** The whole program *)

(** No flag of a result holds the value of a read past the end: [checkFlag]
    has made sure of the next token before [parseFlag] reads it. *)
Lemma inputParser_values_defined (Number : string → number)
    (cliConf : CliConfType) (inputCliArgs : list string)
    (r : InputActionType) (c : CommandResult) (k : string) :
  inputParser Number inputCliArgs cliConf = Ret r →
  command r = Some c → flags c !! k ≠ Some VUndefined.
Proof.
  intros Hr Hc Hk.
  destruct (inputParser_command _ _ _ _ Hr)
    as [->|[->|(isHelpe & cmd & cliArgs & cc & _ & _ & _ & Hs & Hnov)]];
    [discriminate | discriminate |].
  destruct (parseTokens_shape _ _ _ _ _ _ _ Hnov Hs)
    as (_ & _ & _ & c' & Hc' & _ & _ & Hvals & _).
  assert (c' = c) by congruence. subst c'.
  destruct (Hvals k _ Hk) as [?|(t & _ & [?|?])]; discriminate.
Qed.

Section ProgramProperties.

Variable Number : string → number.
Variable JSON5_parse : string → option jsval.

Lemma cliConfParser_Ret (cliArgs : list string) (cliConfObj : jsval) :
  cliConfParser JSON5_parse cliArgs = Ret cliConfObj →
  validateConf cliConfObj = Ret tt.
Proof.
  unfold cliConfParser.
  destruct (extractLocator cliArgs) as [cliConfig| |]; jsimpl; try done.
  destruct (JSON5_parse cliConfig) as [obj|]; [|done].
  destruct (validateConf obj) as [[]| |] eqn:Hv; jsimpl; try done.
  by intros [= <-].
Qed.

(** The program: an error of the presence check, of the extraction or of
    the validation ends it with status 1 and the message; otherwise the
    validated object reads as a configuration and the program goes on with
    [run] on the arguments without the configuration flag. *)
Lemma main_cases (cliArgs : list string) :
  match checkConfFlag cliArgs;; cliConfParser JSON5_parse cliArgs with
  | Ret cliConfObj =>
      ∃ cliConf, asCliConfType cliConfObj = Some cliConf
        ∧ main Number JSON5_parse cliArgs
          = run Number cliConf (removeConfFlag cliArgs)
  | ExitError m => main Number JSON5_parse cliArgs = Exit 1 (Failure m)
  | TypeError => main Number JSON5_parse cliArgs = Uncaught
  end.
Proof.
  unfold main.
  destruct (checkConfFlag cliArgs;; cliConfParser JSON5_parse cliArgs)
    as [obj| |] eqn:H; try done.
  assert (Hv : validateConf obj = Ret tt).
  { destruct (checkConfFlag cliArgs) as [[]| |]; jsimpl_in H; try done.
    by eapply cliConfParser_Ret. }
  destruct (validateConf_cast _ Hv) as [cliConf Hcast].
  exists cliConf. by rewrite Hcast.
Qed.

End ProgramProperties.

(** The first example of the specification, from the process arguments. *)
Example main_init_force :
  main decimalNumber (λ text, if streq text appText then Some appJson
                              else None)
    ["--config"; appText; "init"; "-f"]
  = Exit 0
      (Result {| success := true; action := ActCommand; output := "";
                 command := Some {| name := "init"; args := [];
                                    flags := {["force" := VBoolean true]} |}
              |}).
Proof. vm_compute. reflexivity. Qed.

(** * Further properties of the program *)

(** ** The presence check and the extraction scan *)

Lemma last_cons_cons {A} (x y : A) (l : list A) :
  last (x :: y :: l) = last (y :: l).
Proof. done. Qed.

Lemma checkConfFlag_loop_outcome (pre rest : list string) (b : bool) :
  checkConfFlag_loop (pre ++ rest) rest (length pre) b
  = match last rest with
    | Some a =>
        if isConfigToken a
        then ExitError "The --config|-c flag must be set with a value"
        else Ret (b || existsb isConfigToken rest)
    | None => Ret b
    end.
Proof.
  revert pre b. induction rest as [|arg rest IH]; intros pre b; [done|].
  assert (Hsplit : pre ++ arg :: rest = (pre ++ [arg]) ++ rest)
    by (by rewrite <- app_assoc).
  assert (Hlen : length (pre ++ [arg]) = length pre + 1)
    by (rewrite length_app; simpl; lia).
  cbn [checkConfFlag_loop existsb].
  destruct rest as [|next rest].
  - assert ((length (pre ++ [arg]) =? length pre + 1) = true) as ->
      by (apply Nat.eqb_eq; lia).
    simpl. destruct (isConfigToken arg); [done|]. by rewrite !orb_false_r.
  - assert ((length (pre ++ arg :: next :: rest) =? length pre + 1) = false)
      as -> by (apply Nat.eqb_neq; rewrite length_app; simpl; lia).
    rewrite last_cons_cons.
    rewrite Hsplit, <- Hlen, !IH.
    destruct (last (next :: rest)) as [a|] eqn:Hlast;
      [|by apply last_None in Hlast].
    destruct (isConfigToken arg), (isConfigToken a); try done.
    by rewrite orb_true_r.
Qed.

Lemma checkConfFlag_loop_outcome0 (cliArgs : list string) :
  checkConfFlag_loop cliArgs cliArgs 0 false
  = match last cliArgs with
    | Some a =>
        if isConfigToken a
        then ExitError "The --config|-c flag must be set with a value"
        else Ret (existsb isConfigToken cliArgs)
    | None => Ret false
    end.
Proof. exact (checkConfFlag_loop_outcome [] cliArgs false). Qed.

Lemma checkConfFlag_loop_outcome_check (cliArgs : list string) :
  checkConfFlag cliArgs
  = ExitError "The --config|-c flag must be set with a value"
  ↔ ∃ a, last cliArgs = Some a ∧ isConfigToken a = true.
Proof.
  unfold checkConfFlag.
  rewrite checkConfFlag_loop_outcome0.
  destruct (last cliArgs) as [a|]; [|split; [done | by intros (? & ? & ?)]].
  destruct (isConfigToken a) eqn:Ha; [split; eauto|].
  simpl. split.
  - by destruct (existsb isConfigToken cliArgs).
  - intros (? & [= <-] & ?). congruence.
Qed.

(** X1.  The presence check fails with "must be set with a value" exactly
    when the last token is [--config]/[-c], whatever comes before it;
    otherwise it succeeds when some token is the flag, and fails with "must
    be set" when none is. *)
Theorem checkConfFlag_outcome (cliArgs : list string) :
  checkConfFlag cliArgs
  = match last cliArgs with
    | Some a =>
        if isConfigToken a
        then ExitError "The --config|-c flag must be set with a value"
        else if existsb isConfigToken cliArgs then Ret tt
             else ExitError "The --config|-c flag must be set"
    | None => ExitError "The --config|-c flag must be set"
    end.
Proof.
  unfold checkConfFlag.
  rewrite checkConfFlag_loop_outcome0.
  destruct (last cliArgs) as [a|]; [|done].
  destruct (isConfigToken a); [done|]. simpl.
  by destruct (existsb isConfigToken cliArgs).
Qed.

Lemma locatorScan_TypeError (pre rest : list string) (c : string) :
  locatorScan (pre ++ rest) rest (length pre) c = TypeError
  ↔ ∃ a, last rest = Some a ∧ isConfigToken a = true.
Proof.
  revert pre c. induction rest as [|arg rest IH]; intros pre c.
  { simpl. split; [done | by intros (? & ? & ?)]. }
  assert (Hsplit : pre ++ arg :: rest = (pre ++ [arg]) ++ rest)
    by (by rewrite <- app_assoc).
  assert (Hlen : length (pre ++ [arg]) = length pre + 1)
    by (rewrite length_app; simpl; lia).
  cbn [locatorScan].
  assert (Hb : (length pre + 1 <=? length (pre ++ arg :: rest)) = true)
    by (apply Nat.leb_le; rewrite length_app; simpl; lia).
  rewrite Hb, andb_true_r.
  destruct rest as [|next rest].
  - assert (Hnone : (pre ++ [arg]) !! (length pre + 1) = None)
      by (apply lookup_ge_None; lia).
    rewrite Hnone. simpl. destruct (isConfigToken arg) eqn:Harg.
    + split; [intros _; eauto | done].
    + split; [done | intros (? & [= <-] & ?); congruence].
  - assert (Hnext : (pre ++ arg :: next :: rest) !! (length pre + 1)
                    = Some next).
    { rewrite Hsplit, <- Hlen. by rewrite list_lookup_middle. }
    rewrite Hnext, last_cons_cons.
    destruct (isConfigToken arg); [destruct (negb (startsWith next "-"))|];
      rewrite Hsplit, <- Hlen; apply IH.
Qed.

(** X2.  The extraction scan, run on its own, raises a native exception
    (it calls [startsWith] on [undefined]) exactly when the last token is
    [--config]/[-c]: its test [i + 1 <= cliArgs.length] does not stop the
    read.  These are the lists that the presence check rejects with "must
    be set with a value". *)
Theorem locatorScan_raises_iff_flag_last (cliArgs : list string) :
  (locatorScan cliArgs cliArgs 0 "" = TypeError
   ↔ ∃ a, last cliArgs = Some a ∧ isConfigToken a = true)
  ∧ (locatorScan cliArgs cliArgs 0 "" = TypeError
     ↔ checkConfFlag cliArgs
       = ExitError "The --config|-c flag must be set with a value").
Proof.
  assert (Hscan : locatorScan cliArgs cliArgs 0 "" = TypeError
                  ↔ ∃ a, last cliArgs = Some a ∧ isConfigToken a = true)
    by exact (locatorScan_TypeError [] cliArgs "").
  split; [exact Hscan|].
  by rewrite Hscan, checkConfFlag_loop_outcome_check.
Qed.

(** ** Stripping the configuration flag *)

Lemma removeFirstAndNext_no_flag (isFlag : string → bool) (l : list string) :
  Forall (λ t, isFlag t = false) l → removeFirstAndNext isFlag l = l.
Proof.
  induction 1 as [|t l Ht _ IH]; simpl; [done|]. by rewrite Ht, IH.
Qed.

Lemma removeFirstAndNext_app (isFlag : string → bool)
    (before rest : list string) :
  Forall (λ t, isFlag t = false) before →
  removeFirstAndNext isFlag (before ++ rest)
  = before ++ removeFirstAndNext isFlag rest.
Proof.
  induction 1 as [|t before Ht _ IH]; simpl; [done|]. by rewrite Ht, IH.
Qed.

(** X3.  [removeConfFlag] drops the first [--config]/[-c] and the one token
    after it, and nothing else: the tokens before and after keep their
    order, later occurrences of the flag included.  A list without the flag
    is returned as it is, and a flag in last position is dropped alone. *)
Theorem removeConfFlag_first_occurrence (before : list string) :
  Forall (λ t, isConfigToken t = false) before →
  (∀ c value after, isConfigToken c = true →
     removeConfFlag (before ++ c :: value :: after) = before ++ after)
  ∧ (∀ c, isConfigToken c = true → removeConfFlag (before ++ [c]) = before)
  ∧ removeConfFlag before = before.
Proof.
  intros Hbefore. split; [|split].
  - intros c value after Hc.
    rewrite removeConfFlag_spec, removeFirstAndNext_app by done.
    simpl. by rewrite Hc.
  - intros c Hc.
    rewrite removeConfFlag_spec, removeFirstAndNext_app by done.
    simpl. by rewrite Hc, app_nil_r.
  - rewrite removeConfFlag_spec. by apply removeFirstAndNext_no_flag.
Qed.

Lemma removeConfFlag_first_occurrence_witness :
  removeConfFlag (["init"] ++ "-c" :: "cfg" :: ["-f"; "--config"; "other"])
  = ["init"] ++ ["-f"; "--config"; "other"].
Proof.
  apply (removeConfFlag_first_occurrence ["init"]).
  - repeat constructor.
  - reflexivity.
Defined.

(** A list in which exactly one token passes [isFlag] splits at it. *)
Lemma occurrences_one (isFlag : string → bool) (l : list string) :
  occurrences isFlag l = 1 →
  ∃ before c after,
    l = before ++ c :: after ∧ isFlag c = true
    ∧ Forall (λ t, isFlag t = false) before
    ∧ Forall (λ t, isFlag t = false) after.
Proof.
  unfold occurrences. induction l as [|a l IH]; [done|].
  rewrite filter_cons. destruct (decide (isFlag a = true)) as [Ha|Ha].
  - simpl. intros [= Hl]. exists [], a, l. split; [done|]. split; [done|].
    split; [constructor|].
    apply length_zero_iff_nil in Hl. apply Forall_forall. intros t Ht.
    destruct (isFlag t) eqn:E; [|done].
    assert (t ∈ filter (λ a, isFlag a = true) l)
      by (by apply list_elem_of_filter).
    rewrite Hl in *. by apply not_elem_of_nil in H.
  - intros Hl. destruct (IH Hl) as (before & c & after & -> & Hc & Hb & Haf).
    exists (a :: before), c, after. split; [done|]. split; [done|].
    split; [|done]. constructor; [|done]. by destruct (isFlag a).
Qed.

(** The locator of a list with one occurrence of the flag, followed by a
    token. *)
Lemma extractLocator_split (before after : list string) (c value : string) :
  isConfigToken c = true →
  Forall (λ t, isConfigToken t = false) before →
  Forall (λ t, isConfigToken t = false) (value :: after) →
  checkConfFlag (before ++ c :: value :: after) = Ret tt →
  extractLocator (before ++ c :: value :: after)
  = (if startsWith value "-" || streq value "" then ExitError noConfigMessage
     else Ret value).
Proof.
  intros Hc Hbefore Hafter Hcheck.
  assert (Hi : (before ++ c :: value :: after) !! length before = Some c)
    by (by rewrite list_lookup_middle).
  set (l := before ++ c :: value :: after) in *.
  assert (Hv : l !! (length before + 1) = Some value).
  { unfold l.
    change (before ++ c :: value :: after)
      with (before ++ [c] ++ value :: after).
    rewrite app_assoc.
    replace (length before + 1) with (length (before ++ [c]))
      by (rewrite length_app; simpl; lia).
    by rewrite list_lookup_middle. }
  assert (Honly : ∀ k t, yieldsLocator l k t → k = length before ∧ t = value).
  { intros k t (a & Hk & Ha & Ht & _).
    assert (k = length before); [|subst k; split; [done | congruence]].
    unfold l in Hk.
    destruct (decide (k < length before)) as [Hlt|Hge].
    - rewrite lookup_app_l in Hk by done.
      eapply Forall_lookup_1 in Hbefore; [|exact Hk]. simpl in *. congruence.
    - destruct (decide (k = length before)) as [|Hne]; [done|].
      rewrite lookup_app_r in Hk by lia.
      destruct (k - length before) as [|[|j]] eqn:Hj; [lia | |];
        simpl in Hk.
      + inversion Hafter; subst. simplify_eq. congruence.
      + inversion Hafter; subst.
        eapply Forall_lookup_1 in Hk; [|eassumption]. simpl in *. congruence. }
  destruct (locatorScan_reads_in_bounds_aux _ Hcheck) as [locator Hscan].
  destruct (locatorScan_last l l [] "" locator eq_refl Hscan) as [H1 H2].
  unfold extractLocator. rewrite Hscan. jsimpl.
  destruct (startsWith value "-") eqn:Hdash; simpl.
  - assert (locator = "") as ->; [|done].
    apply H2. intros k t _ Hy. destruct (Honly _ _ Hy) as [-> ->].
    destruct Hy as (? & _ & _ & ? & ?). congruence.
  - assert (locator = value) as ->; [|done].
    apply (H1 (length before) value); [simpl; lia | by exists c |].
    intros k' t' Hlt Hy. destruct (Honly _ _ Hy). lia.
Qed.

(** X4.  When the flag occurs exactly once and the presence check
    succeeds, extraction and stripping agree on it: the list splits around
    the flag and its value, [removeConfFlag] returns the other tokens, and
    the locator is that value, unless the value is empty or starts with a
    dash, in which case extraction fails with "No config file found". *)
Theorem single_config_flag (cliArgs : list string) :
  checkConfFlag cliArgs = Ret tt →
  occurrences isConfigToken cliArgs = 1 →
  ∃ before c value after,
    cliArgs = before ++ c :: value :: after
    ∧ isConfigToken c = true
    ∧ removeConfFlag cliArgs = before ++ after
    ∧ extractLocator cliArgs
      = (if startsWith value "-" || streq value "" then ExitError noConfigMessage
         else Ret value).
Proof.
  intros Hcheck Hone.
  destruct (occurrences_one _ _ Hone)
    as (before & c & after' & -> & Hc & Hbefore & Hafter).
  assert (Hi : (before ++ c :: after') !! length before = Some c)
    by (by rewrite list_lookup_middle).
  pose proof (checkConfFlag_next _ Hcheck _ _ Hi Hc) as Hnext.
  destruct after' as [|value after].
  { rewrite length_app in Hnext. simpl in Hnext. lia. }
  exists before, c, value, after. split; [done|]. split; [done|]. split.
  { rewrite removeConfFlag_spec, removeFirstAndNext_app by done.
    simpl. by rewrite Hc. }
  by apply extractLocator_split.
Qed.

Lemma single_config_flag_witness :
  ∃ before c value after,
    ["init"; "-c"; "cfg"; "-f"] = before ++ c :: value :: after
    ∧ isConfigToken c = true
    ∧ removeConfFlag ["init"; "-c"; "cfg"; "-f"] = before ++ after
    ∧ extractLocator ["init"; "-c"; "cfg"; "-f"]
      = (if startsWith value "-" || streq value ""
         then ExitError noConfigMessage else Ret value).
Proof.
  apply (single_config_flag ["init"; "-c"; "cfg"; "-f"]); reflexivity.
Defined.

(** With two occurrences they disagree: the locator is the value of the
    last one, the tokens stripped are the first one and its value. *)
Example two_config_flags :
  extractLocator ["-c"; "a"; "init"; "-c"; "b"] = Ret "b"
  ∧ removeConfFlag ["-c"; "a"; "init"; "-c"; "b"] = ["init"; "-c"; "b"].
Proof. split; vm_compute; reflexivity. Qed.

(** ** The help flag *)

Lemma occurrences_cons (isFlag : string → bool) (a : string)
    (l : list string) :
  occurrences isFlag (a :: l)
  = (if isFlag a then 1 else 0) + occurrences isFlag l.
Proof.
  unfold occurrences. rewrite filter_cons.
  destruct (decide (isFlag a = true)) as [->|Ha]; [done|].
  by destruct (isFlag a).
Qed.

Lemma isArgsIncludeHelpFlag_loop_outcome (l : list string) (b : bool) :
  isArgsIncludeHelpFlag_loop l b
  = match (if b then 1 else 0) + occurrences isHelpToken l with
    | 0 => Ret false
    | 1 => Ret true
    | _ => ExitError helpAloneMessage
    end.
Proof.
  revert b. induction l as [|a l IH]; intros b; [by destruct b|].
  cbn [isArgsIncludeHelpFlag_loop]. rewrite occurrences_cons.
  destruct (isHelpToken a), b; rewrite ?IH; simpl; done.
Qed.

Lemma occurrences_zero (isFlag : string → bool) (l : list string) :
  (∀ t, t ∈ l → isFlag t = false) → occurrences isFlag l = 0.
Proof.
  induction l as [|a l IH]; intros Hl; [done|].
  rewrite occurrences_cons, (Hl a) by left. simpl.
  apply IH. intros t Ht. apply Hl. by right.
Qed.

(** X5.  [isArgsIncludeHelpFlag] counts the help flags: it answers [false]
    when there is none, [true] when there is exactly one, at any position,
    and fails with "The --help|-h flag must be set alone" when there are two
    or more, whatever the other tokens are. *)
Theorem isArgsIncludeHelpFlag_outcome (inputCliArgs : list string) :
  isArgsIncludeHelpFlag inputCliArgs
  = match occurrences isHelpToken inputCliArgs with
    | 0 => Ret false
    | 1 => Ret true
    | _ => ExitError helpAloneMessage
    end.
Proof. apply (isArgsIncludeHelpFlag_loop_outcome inputCliArgs false). Qed.

(** ** Errors of [inputParser] *)

Lemma isVersion_no_token (l : list string) :
  (∀ t, t ∈ l → isVersionToken t = false) → isVersion l = Ret false.
Proof.
  intros Hl.
  destruct (isVersion_cases l)
    as [[_ (first & rest & -> & Hfirst)]|[[H _]|H]]; [|done|].
  - assert (Hv : isVersionToken first = false) by (apply Hl; left).
    destruct Hfirst as [->|[-> _]]; discriminate.
  - destruct l as [|first rest]; [discriminate|].
    unfold isVersion in H.
    destruct (streq first "--version" || _); [discriminate|].
    destruct (isVersion_loop_cases (first :: rest)) as [[Hr _]|Hr].
    + rewrite Hr in H. discriminate.
    + clear H. exfalso. revert Hr. generalize (first :: rest) Hl. clear.
      induction l as [|a l IH]; intros Hl; simpl; [done|].
      rewrite Hl by left. apply IH. intros t Ht. apply Hl. by right.
Qed.

(** X6.  Two or more help flags are rejected: when no token of the list is
    [--version]/[-v], the parse ends with "The --help|-h flag must be set
    alone", whatever the other tokens and the configuration are. *)
Theorem help_twice_rejected (Number : string → number)
    (cliConf : CliConfType) (inputCliArgs : list string) :
  (∀ t, t ∈ inputCliArgs → isVersionToken t = false) →
  2 ≤ occurrences isHelpToken inputCliArgs →
  inputParser Number inputCliArgs cliConf = ExitError helpAloneMessage.
Proof.
  intros Hnov Htwice. unfold inputParser.
  rewrite (isVersion_no_token _ Hnov). jsimpl.
  unfold isArgsIncludeHelpFlag.
  rewrite (isArgsIncludeHelpFlag_loop_outcome inputCliArgs false).
  destruct (occurrences isHelpToken inputCliArgs) as [|[|n]]; [lia | lia |].
  done.
Qed.

Lemma help_twice_rejected_witness :
  inputParser decimalNumber ["-h"; "build"; "app"; "--help"] buildConf
  = ExitError helpAloneMessage.
Proof.
  apply (help_twice_rejected decimalNumber buildConf
           ["-h"; "build"; "app"; "--help"]).
  - intros t Ht. repeat (apply elem_of_cons in Ht as [->|Ht]; [reflexivity|]).
    by apply not_elem_of_nil in Ht.
  - vm_compute. lia.
Defined.

(** [inputParser] on a list without reserved token: the first token is the
    command and the others are scanned. *)
Lemma inputParser_plain (Number : string → number) (cliConf : CliConfType)
    (cmd : string) (rest : list string) :
  (∀ t, t ∈ cmd :: rest → isVersionToken t = false) →
  (∀ t, t ∈ cmd :: rest → isHelpToken t = false) →
  inputParser Number (cmd :: rest) cliConf
  = match prop (conf_commands cliConf) cmd with
    | None => ExitError ("The command " +:+ cmd +:+ " is not a valid command")
    | Some commandConf =>
        parseTokens Number cliConf commandConf cmd rest
          (initialResult false cmd)
    end.
Proof.
  intros Hnov Hnoh. rewrite inputParser_eq.
  rewrite (isVersion_no_token _ Hnov). jsimpl.
  unfold isArgsIncludeHelpFlag.
  rewrite (isArgsIncludeHelpFlag_loop_outcome (cmd :: rest) false).
  rewrite (occurrences_zero _ _ Hnoh).
  change (0 + 0) with 0. jsimpl. reflexivity.
Qed.

(** X7.  An unknown command is rejected: when the list holds no
    [--version]/[-v] and no [--help]/[-h] and its first token is not a key
    of [commands], the parse ends with "The command <token> is not a valid
    command", whatever follows. *)
Theorem unknown_command_rejected (Number : string → number)
    (cliConf : CliConfType) (cmd : string) (rest : list string) :
  (∀ t, t ∈ cmd :: rest → isVersionToken t = false) →
  (∀ t, t ∈ cmd :: rest → isHelpToken t = false) →
  cmd ∉ Object_keys (conf_commands cliConf) →
  inputParser Number (cmd :: rest) cliConf
  = ExitError ("The command " +:+ cmd +:+ " is not a valid command").
Proof.
  intros Hnov Hnoh Hcmd. rewrite inputParser_plain by done.
  destruct (prop (conf_commands cliConf) cmd) as [cc|] eqn:Hp; [|done].
  exfalso. apply Hcmd. apply prop_is_Some. eauto.
Qed.

Lemma unknown_command_rejected_witness :
  inputParser decimalNumber ["bogus"] appConf
  = ExitError ("The command " +:+ "bogus" +:+ " is not a valid command").
Proof.
  apply (unknown_command_rejected decimalNumber appConf "bogus" []).
  - intros t Ht. apply list_elem_of_singleton in Ht as ->. reflexivity.
  - intros t Ht. apply list_elem_of_singleton in Ht as ->. reflexivity.
  - intros Hin. apply list_elem_of_singleton in Hin. discriminate.
Defined.

(** ** Positional arguments *)

Lemma no_dash_not_reserved (t : string) :
  startsWith t "-" = false →
  isVersionToken t = false ∧ isHelpToken t = false.
Proof.
  intros Ht. unfold isVersionToken, isHelpToken.
  repeat match goal with
  | |- context [streq t ?s] =>
      let E := fresh in
      destruct (streq t s) eqn:E;
      [apply streq_true in E; subst t; discriminate|]
  end.
  done.
Qed.

Lemma resolveFlag_no_dash (t : string) (commandConf : CommandType)
    (cmd : string) :
  startsWith t "-" = false → resolveFlag t commandConf cmd = Ret "".
Proof.
  intros Ht. unfold resolveFlag, hasFlag, hasAliasFlag.
  assert (startsWith t "--" = false) as ->.
  { destruct (startsWith t "--") eqn:E; [|done].
    apply (startsWith_slice t "--") in E. rewrite E in Ht.
    unfold startsWith in Ht. simpl in Ht. by destruct (slice _ t). }
  jsimpl. by rewrite streq_refl, Ht.
Qed.

Lemma pushArgs_initial (isHelpe : bool) (cmd : string)
    (acc tokens : list string) (m : gmap string FlagValueType) :
  foldl (λ r t, pushArg t r)
    {| success := true; action := if isHelpe then ActHelp else ActCommand;
       output := "";
       command := Some {| name := cmd; args := acc; flags := m |} |} tokens
  = {| success := true; action := if isHelpe then ActHelp else ActCommand;
       output := "";
       command := Some {| name := cmd; args := acc ++ tokens; flags := m |}
    |}.
Proof.
  revert acc. induction tokens as [|t tokens IH]; intros acc; simpl.
  - by rewrite app_nil_r.
  - unfold pushArg at 2. simpl. rewrite IH. by rewrite <- app_assoc.
Qed.

Lemma parseTokens_positional (Number : string → number)
    (cliConf : CliConfType) (commandConf : CommandType) (cmd : string)
    (tokens : list string) (r : InputActionType) :
  Forall (λ t, startsWith t "-" = false) tokens →
  parseTokens Number cliConf commandConf cmd tokens r
  = Ret (foldl (λ r t, pushArg t r) r tokens).
Proof.
  intros H. revert r. induction H as [|t tokens Ht _ IH]; intros r; [done|].
  cbn [parseTokens foldl].
  destruct (no_dash_not_reserved t Ht) as [-> _].
  rewrite (resolveFlag_no_dash t commandConf cmd Ht). jsimpl.
  by rewrite streq_refl.
Qed.

(** X8.  A declared command followed only by tokens that do not start with
    a dash is resolved with these tokens, all of them and in their order, as
    its positional arguments and with an empty flags mapping; the number of
    tokens is not checked against the declared [args]. *)
Theorem positional_arguments_only (Number : string → number)
    (cliConf : CliConfType) (cmd : string) (rest : list string) :
  cmd ∈ Object_keys (conf_commands cliConf) →
  Forall (λ t, startsWith t "-" = false) (cmd :: rest) →
  inputParser Number (cmd :: rest) cliConf
  = Ret {| success := true; action := ActCommand; output := "";
           command := Some {| name := cmd; args := rest; flags := ∅ |} |}.
Proof.
  intros Hcmd Hdash.
  assert (Hres : ∀ t, t ∈ cmd :: rest →
                      isVersionToken t = false ∧ isHelpToken t = false).
  { intros t Ht. apply no_dash_not_reserved.
    by eapply (proj1 (Forall_forall _ _) Hdash). }
  rewrite inputParser_plain by (intros t Ht; by apply Hres).
  apply prop_is_Some in Hcmd as [cc ->].
  rewrite parseTokens_positional by (by inversion Hdash).
  f_equal. apply (pushArgs_initial false cmd [] rest ∅).
Qed.

Lemma positional_arguments_only_witness :
  inputParser decimalNumber ["build"; "app"; "lib"; "docs"] buildConf
  = Ret {| success := true; action := ActCommand; output := "";
           command := Some {| name := "build"; args := ["app"; "lib"; "docs"];
                              flags := ∅ |} |}.
Proof.
  apply (positional_arguments_only decimalNumber buildConf "build"
           ["app"; "lib"; "docs"]).
  - left.
  - repeat constructor.
Defined.

Lemma parseTokens_args_sublist (Number : string → number)
    (cliConf : CliConfType) (commandConf : CommandType) (cmd : string)
    (tokens : list string) (r r' : InputActionType) (c : CommandResult) :
  command r = Some c →
  parseTokens Number cliConf commandConf cmd tokens r = Ret r' →
  ∃ c' l, command r' = Some c' ∧ args c' = args c ++ l ∧ l `sublist_of` tokens.
Proof.
  assert (H : ∀ n ts, length ts ≤ n → ∀ r c, command r = Some c →
             parseTokens Number cliConf commandConf cmd ts r = Ret r' →
             ∃ c' l, command r' = Some c' ∧ args c' = args c ++ l
                     ∧ l `sublist_of` ts).
  { induction n as [|n IH]; intros ts Hn r0 c0 Hc Hparse.
    { destruct ts; [|simpl in Hn; lia]. simpl in Hparse. simplify_eq.
      exists c0, []. by rewrite app_nil_r. }
    destruct ts as [|arg rest].
    { simpl in Hparse. simplify_eq. exists c0, []. by rewrite app_nil_r. }
    simpl in Hn. cbn [parseTokens] in Hparse.
    destruct (isVersionToken arg).
    { simplify_eq. exists c0, []. rewrite app_nil_r.
      split; [exact Hc|]. split; [done|]. apply sublist_nil_l. }
    destruct (resolveFlag arg commandConf cmd) as [flag| |];
      jsimpl_in Hparse; [|done|done].
    destruct (streq flag "").
    { eapply (IH rest) in Hparse as (c' & l & Hc' & Hargs & Hsub);
        [| lia | by apply pushArg_command].
      exists c', (arg :: l). split; [done|]. simpl in Hargs.
      rewrite Hargs, <- app_assoc. split; [done|]. by apply sublist_skip. }
    destruct (prop (cmd_flags commandConf) flag) as [flagConf|]; [|done].
    destruct (flag_type flagConf), rest as [|value rest']; try done;
      (eapply IH in Hparse as (c' & l & Hc' & Hargs & Hsub);
       [| | by apply setFlag_command]; [|simpl in *; lia]);
      simpl in Hargs; exists c', l; (split; [done|]); (split; [done|]);
      first [ by apply sublist_cons | by do 2 apply sublist_cons ]. }
  intros Hc Hparse. by eapply (H (length tokens) tokens).
Qed.

Lemma removeFirstAndNext_sublist (isFlag : string → bool) (l : list string) :
  removeFirstAndNext isFlag l `sublist_of` l.
Proof.
  induction l as [|a l IH]; simpl; [done|].
  destruct (isFlag a).
  - apply sublist_cons. destruct l; simpl; [done | by apply sublist_cons].
  - by apply sublist_skip.
Qed.

(** X9.  The positional arguments of a result are tokens of the argument
    list in their original order: they form a subsequence of the list. *)
Theorem positional_arguments_in_order (Number : string → number)
    (cliConf : CliConfType) (inputCliArgs : list string)
    (r : InputActionType) (c : CommandResult) :
  inputParser Number inputCliArgs cliConf = Ret r →
  command r = Some c →
  args c `sublist_of` inputCliArgs.
Proof.
  intros Hr Hc.
  destruct (inputParser_command _ _ _ _ Hr)
    as [->|[->|(isHelpe & cmd & cliArgs & cc & Hl & _ & _ & Hs & _)]];
    [discriminate | discriminate |].
  destruct (parseTokens_args_sublist Number cliConf cc cmd cliArgs
              (initialResult isHelpe cmd) r _ eq_refl Hs)
    as (c' & l & Hc' & Hargs & Hsub).
  assert (c' = c) by congruence. subst c'. simpl in Hargs. rewrite Hargs.
  transitivity (cmd :: cliArgs); [by apply sublist_cons|].
  rewrite <- Hl. destruct isHelpe; simpl; [|done].
  apply removeFirstAndNext_sublist.
Qed.

Lemma positional_arguments_in_order_witness :
  ∃ r c,
    inputParser decimalNumber ["build"; "b"; "--out"; "x"; "a"; "-V"; "c"]
      buildConf = Ret r
    ∧ command r = Some c
    ∧ args c = ["b"; "a"; "c"]
    ∧ args c `sublist_of` ["build"; "b"; "--out"; "x"; "a"; "-V"; "c"].
Proof.
  eexists _, _. split; [vm_compute; reflexivity|]. split; [reflexivity|].
  split; [reflexivity|].
  eapply (positional_arguments_in_order decimalNumber buildConf
            ["build"; "b"; "--out"; "x"; "a"; "-V"; "c"]).
  - vm_compute. reflexivity.
  - reflexivity.
Defined.

(** ** Long flags and aliases *)

Lemma aliasMap_foldl_other (a : string) (l : list (string * FlagConfig))
    (m : gmap string string) :
  a ∉ (flag_alias ∘ snd) <$> l →
  foldl (λ m kv, <[flag_alias kv.2 := kv.1]> m) m l !! a = m !! a.
Proof.
  revert m. induction l as [|[k fc] l IH]; intros m Hnot; [done|].
  simpl in *. apply not_elem_of_cons in Hnot as [Hne Hnot].
  rewrite IH by done. by rewrite lookup_insert_ne.
Qed.

Lemma startsWith_app (p s : string) : startsWith (p +:+ s) p = true.
Proof.
  unfold startsWith. induction p as [|c p IH]; [by destruct s|].
  change (String c p +:+ s) with (String c (p +:+ s)). simpl.
  by destruct (Ascii.ascii_dec c c).
Qed.

(** The flag that an alias stands for is the last one declared with it. *)
Lemma aliasMapFlag_last (commandConf : CommandType)
    (l1 l2 : list (string * FlagConfig)) (flag : string) (fc : FlagConfig) :
  cmd_flags commandConf = l1 ++ (flag, fc) :: l2 →
  flag_alias fc ∉ (flag_alias ∘ snd) <$> l2 →
  aliasMapFlag commandConf !! flag_alias fc = Some flag.
Proof.
  intros Hflags Hnot. unfold aliasMapFlag. rewrite Hflags, foldl_app.
  simpl. rewrite aliasMap_foldl_other by done. apply lookup_insert_eq.
Qed.

(** X10.  The long form and the alias of a flag resolve to the same flag
    name: for a flag declared under a non-empty name whose alias is not
    empty, does not start with a dash and is not declared again by a later
    flag, both [--<name>] and [-<alias>] resolve to [<name>].  (With the
    same alias on several flags, it stands for the last one.) *)
Theorem alias_resolves_like_name (commandConf : CommandType) (cmd : string)
    (l1 l2 : list (string * FlagConfig)) (flag : string) (fc : FlagConfig) :
  cmd_flags commandConf = l1 ++ (flag, fc) :: l2 →
  flag_alias fc ∉ (flag_alias ∘ snd) <$> l2 →
  flag ≠ "" →
  flag_alias fc ≠ "" →
  startsWith (flag_alias fc) "-" = false →
  resolveFlag ("--" +:+ flag) commandConf cmd = Ret flag
  ∧ resolveFlag ("-" +:+ flag_alias fc) commandConf cmd = Ret flag.
Proof.
  intros Hflags Hnot Hflag Halias Hdash.
  assert (Hdecl : includes (Object_keys (cmd_flags commandConf)) flag = true).
  { apply includes_elem_of. unfold Object_keys. rewrite Hflags, fmap_app.
    apply elem_of_app. right. left. }
  unfold resolveFlag, hasFlag, hasAliasFlag, checkFlagNotEempty. split.
  - rewrite (startsWith_app "--" flag).
    change (slice 2 ("--" +:+ flag)) with flag.
    assert (streq flag "" = false) as -> by (by apply streq_false).
    jsimpl. rewrite Hdecl. jsimpl.
    by assert (streq flag "" = false) as -> by (by apply streq_false).
  - change (startsWith ("-" +:+ flag_alias fc) "--")
      with (startsWith (flag_alias fc) "-").
    rewrite Hdash. jsimpl. rewrite streq_refl.
    rewrite (startsWith_app "-" (flag_alias fc)).
    change (slice 1 ("-" +:+ flag_alias fc)) with (flag_alias fc).
    assert (streq (flag_alias fc) "" = false) as ->
      by (by apply streq_false).
    jsimpl. by rewrite (aliasMapFlag_last _ _ _ _ _ Hflags Hnot).
Qed.

Lemma alias_resolves_like_name_witness :
  resolveFlag ("--" +:+ "jobs") buildCommand "build" = Ret "jobs"
  ∧ resolveFlag ("-" +:+ "j") buildCommand "build" = Ret "jobs".
Proof.
  apply (alias_resolves_like_name buildCommand "build"
           [("out", {| flag_type := KString; flag_default := VString "dist";
                       flag_description := "o"; flag_alias := "o" |})]
           [("verbose", {| flag_type := KBoolean;
                           flag_default := VBoolean false;
                           flag_description := "v"; flag_alias := "V" |})]
           "jobs"
           {| flag_type := KNumber; flag_default := VNumber (numberOfNat 1);
              flag_description := "j"; flag_alias := "j" |}).
  - reflexivity.
  - simpl. intros Hin. apply list_elem_of_singleton in Hin. discriminate.
  - discriminate.
  - discriminate.
  - reflexivity.
Defined.

(** ** How the scan composes *)

(** After a prefix that is scanned to the end, the scan goes on with the
    rest from the result of the prefix. *)
Lemma parseTokens_app (Number : string → number) (cliConf : CliConfType)
    (commandConf : CommandType) (cmd : string) (pre post : list string)
    (r r1 : InputActionType) :
  (∀ t, t ∈ pre → isVersionToken t = false) →
  parseTokens Number cliConf commandConf cmd pre r = Ret r1 →
  parseTokens Number cliConf commandConf cmd (pre ++ post) r
  = parseTokens Number cliConf commandConf cmd post r1.
Proof.
  assert (H : ∀ n ts, length ts ≤ n → ∀ r,
             (∀ t, t ∈ ts → isVersionToken t = false) →
             parseTokens Number cliConf commandConf cmd ts r = Ret r1 →
             parseTokens Number cliConf commandConf cmd (ts ++ post) r
             = parseTokens Number cliConf commandConf cmd post r1).
  { induction n as [|n IH]; intros ts Hn r0 Hnov Hparse.
    { destruct ts; [|simpl in Hn; lia]. simpl in Hparse. by simplify_eq. }
    destruct ts as [|arg rest]; [simpl in Hparse; by simplify_eq|].
    simpl in Hn. rewrite <- app_comm_cons.
    cbn [parseTokens] in Hparse |- *.
    rewrite (Hnov arg) in Hparse |- * by left.
    assert (Hrest : ∀ t, t ∈ rest → isVersionToken t = false)
      by (intros t Ht; apply Hnov; by right).
    destruct (resolveFlag arg commandConf cmd) as [flag| |];
      jsimpl_in Hparse; jsimpl; [|done|done].
    destruct (streq flag ""); [apply IH; [lia | done | done]|].
    destruct (prop (cmd_flags commandConf) flag) as [flagConf|]; [|done].
    destruct (flag_type flagConf), rest as [|value rest']; try done.
    - rewrite <- app_comm_cons. apply (IH rest'); [simpl in *; lia | | done].
      intros t Ht. apply Hrest. by right.
    - rewrite <- app_comm_cons. apply (IH rest'); [simpl in *; lia | | done].
      intros t Ht. apply Hrest. by right.
    - apply (IH []); [simpl; lia | done | done].
    - apply (IH (value :: rest')); [simpl in *; lia | done | done]. }
  intros Hnov Hparse. by eapply (H (length pre) pre).
Qed.

Lemma not_reserved_app (cmd : string) (pre post : list string)
    (P : string → bool) :
  (∀ t, t ∈ cmd :: pre → P t = false) →
  (∀ t, t ∈ post → P t = false) →
  ∀ t, t ∈ cmd :: pre ++ post → P t = false.
Proof.
  intros H1 H2 t Ht. rewrite app_comm_cons in Ht.
  apply elem_of_app in Ht as [Ht|Ht]; auto.
Qed.

(** X11.  Parsing composes over appended tokens: when no token is
    [--version]/[-v] or [--help]/[-h] and the list [cmd :: pre] is parsed
    to a result, the parse of [cmd :: pre ++ post] is the loop of
    [inputParser] run on [post] alone from that result.  The tokens already
    scanned never change how the later ones are read. *)
Theorem inputParser_app (Number : string → number) (cliConf : CliConfType)
    (commandConf : CommandType) (cmd : string) (pre post : list string)
    (r : InputActionType) :
  (∀ t, t ∈ cmd :: pre → isVersionToken t = false ∧ isHelpToken t = false) →
  (∀ t, t ∈ post → isVersionToken t = false ∧ isHelpToken t = false) →
  prop (conf_commands cliConf) cmd = Some commandConf →
  inputParser Number (cmd :: pre) cliConf = Ret r →
  inputParser Number (cmd :: pre ++ post) cliConf
  = parseArgs_loop Number cliConf commandConf cmd post (length post) 0 r.
Proof.
  intros Hpre Hpost Hprop Hr.
  rewrite inputParser_plain in Hr by (intros t Ht; by apply Hpre).
  rewrite inputParser_plain
    by (apply not_reserved_app; intros t Ht;
        first [by apply Hpre | by apply Hpost]).
  rewrite Hprop in Hr |- *.
  rewrite parseArgs_loop_tokens by lia. rewrite drop_0.
  apply parseTokens_app; [|done].
  intros t Ht. apply Hpre. by right.
Qed.

Lemma inputParser_app_witness :
  inputParser decimalNumber ("build" :: ["app"; "--out"; "x"] ++ ["-V"; "lib"])
    buildConf
  = parseArgs_loop decimalNumber buildConf buildCommand "build" ["-V"; "lib"]
      (length ["-V"; "lib"]) 0
      {| success := true; action := ActCommand; output := "";
         command := Some {| name := "build"; args := ["app"];
                            flags := {["out" := VString "x"]} |} |}.
Proof.
  apply (inputParser_app decimalNumber buildConf buildCommand "build"
           ["app"; "--out"; "x"] ["-V"; "lib"]).
  - intros t Ht.
    repeat (apply elem_of_cons in Ht as [->|Ht]; [split; reflexivity|]).
    by apply not_elem_of_nil in Ht.
  - intros t Ht.
    repeat (apply elem_of_cons in Ht as [->|Ht]; [split; reflexivity|]).
    by apply not_elem_of_nil in Ht.
  - reflexivity.
  - vm_compute. reflexivity.
Defined.

(** X12.  A later occurrence of a flag overwrites an earlier one: in a
    list without version or help flag, after any tokens that parse to a
    result, a token that names a flag of type string, declared under a name
    that is neither empty nor [__proto__], followed by a value gives the
    same result with the flag bound to that value, whatever it was bound to
    before; the other flags, the arguments and the rest of the result are
    unchanged. *)
Theorem later_flag_overwrites (Number : string → number)
    (cliConf : CliConfType) (commandConf : CommandType) (cmd : string)
    (pre : list string) (token value flag : string) (flagConf : FlagConfig)
    (r : InputActionType) :
  (∀ t, t ∈ cmd :: pre → isVersionToken t = false ∧ isHelpToken t = false) →
  (∀ t, t ∈ [token; value] →
        isVersionToken t = false ∧ isHelpToken t = false) →
  prop (conf_commands cliConf) cmd = Some commandConf →
  flagNamed commandConf token = Some flag →
  flag ≠ "" →
  flag ≠ "__proto__" →
  prop (cmd_flags commandConf) flag = Some flagConf →
  flag_type flagConf = KString →
  inputParser Number (cmd :: pre) cliConf = Ret r →
  ∃ c c',
    command r = Some c
    ∧ inputParser Number (cmd :: pre ++ [token; value]) cliConf
      = Ret {| success := success r; action := action r; output := output r;
               command := Some c' |}
    ∧ name c' = name c
    ∧ args c' = args c
    ∧ flags c' !! flag = Some (VString value)
    ∧ ∀ k, k ≠ flag → flags c' !! k = flags c !! k.
Proof.
  intros Hpre Hpost Hprop Hnamed Hflag Hproto Hconf Hkind Hr.
  pose proof (flagNamed_resolveFlag _ _ cmd _ Hnamed Hflag) as Hres.
  rewrite (inputParser_plain Number cliConf cmd (pre ++ [token; value]))
    by (apply not_reserved_app; intros t Ht;
        first [by apply Hpre | by apply Hpost]).
  rewrite inputParser_plain in Hr by (intros t Ht; by apply Hpre).
  rewrite Hprop in Hr |- *.
  assert (Hnov : ∀ t, t ∈ pre → isVersionToken t = false)
    by (intros t Ht; apply Hpre; by right).
  destruct (parseTokens_shape _ _ _ _ _ _ _ Hnov Hr)
    as (_ & _ & _ & c & Hc & _).
  exists c, {| name := name c; args := args c;
               flags := <[flag := VString value]> (flags c) |}.
  split; [done|]. split; [|split; [done|split; [done|split]]].
  - rewrite (parseTokens_app _ _ _ _ _ _ _ _ Hnov Hr).
    cbn [parseTokens].
    destruct (Hpost token) as [-> _]; [left|].
    rewrite Hres. jsimpl.
    assert (streq flag "" = false) as -> by (by apply streq_false).
    rewrite Hconf, Hkind.
    by rewrite (setFlag_withFlag flag _ r c Hproto Hc).
  - apply lookup_insert_eq.
  - intros k Hk. by apply lookup_insert_ne.
Qed.

Lemma later_flag_overwrites_witness :
  ∃ c c',
    command {| success := true; action := ActCommand; output := "";
               command := Some {| name := "build"; args := ["app"];
                                  flags := {["out" := VString "first"]} |} |}
    = Some c
    ∧ inputParser decimalNumber
        ("build" :: ["--out"; "first"; "app"] ++ ["-o"; "second"]) buildConf
      = Ret {| success := true; action := ActCommand; output := "";
               command := Some c' |}
    ∧ name c' = name c
    ∧ args c' = args c
    ∧ flags c' !! "out" = Some (VString "second")
    ∧ ∀ k, k ≠ "out" → flags c' !! k = flags c !! k.
Proof.
  apply (later_flag_overwrites decimalNumber buildConf buildCommand "build"
           ["--out"; "first"; "app"] "-o" "second" "out"
           {| flag_type := KString; flag_default := VString "dist";
              flag_description := "o"; flag_alias := "o" |}
           {| success := true; action := ActCommand; output := "";
              command := Some {| name := "build"; args := ["app"];
                                 flags := {["out" := VString "first"]} |} |}).
  - intros t Ht.
    repeat (apply elem_of_cons in Ht as [->|Ht]; [split; reflexivity|]).
    by apply not_elem_of_nil in Ht.
  - intros t Ht.
    repeat (apply elem_of_cons in Ht as [->|Ht]; [split; reflexivity|]).
    by apply not_elem_of_nil in Ht.
  - reflexivity.
  - reflexivity.
  - discriminate.
  - discriminate.
  - reflexivity.
  - reflexivity.
  - vm_compute. reflexivity.
Defined.

(** X13.  The first token that does not resolve ends the parse: after any
    tokens that parse to a result, a token [--<x>] whose [<x>] is not a
    declared flag gives "The flag <x> is not a valid flag", a token [-<x>]
    whose [<x>] is no alias gives "The flag <x> is not a valid flag in
    <command>", and the bare tokens [--] and [-] give "The flag  is not
    valid", whatever follows. *)
Theorem unknown_flag_rejected (Number : string → number)
    (cliConf : CliConfType) (commandConf : CommandType) (cmd : string)
    (pre post : list string) (x : string) (r : InputActionType) :
  (∀ t, t ∈ cmd :: pre → isVersionToken t = false ∧ isHelpToken t = false) →
  (∀ t, t ∈ post → isVersionToken t = false ∧ isHelpToken t = false) →
  prop (conf_commands cliConf) cmd = Some commandConf →
  inputParser Number (cmd :: pre) cliConf = Ret r →
  (x ≠ "" → ("--" +:+ x) ≠ "--version" → ("--" +:+ x) ≠ "--help" →
   x ∉ Object_keys (cmd_flags commandConf) →
   inputParser Number (cmd :: pre ++ ("--" +:+ x) :: post) cliConf
   = ExitError ("The flag " +:+ x +:+ " is not a valid flag"))
  ∧ (x ≠ "" → startsWith x "-" = false →
     ("-" +:+ x) ≠ "-v" → ("-" +:+ x) ≠ "-h" →
     aliasMapFlag commandConf !! x = None →
     inputParser Number (cmd :: pre ++ ("-" +:+ x) :: post) cliConf
     = ExitError ("The flag " +:+ x +:+ " is not a valid flag in " +:+ cmd))
  ∧ inputParser Number (cmd :: pre ++ "--" :: post) cliConf
    = ExitError ("The flag " +:+ "" +:+ " is not valid")
  ∧ inputParser Number (cmd :: pre ++ "-" :: post) cliConf
    = ExitError ("The flag " +:+ "" +:+ " is not valid").
Proof.
  intros Hpre Hpost Hprop Hr.
  rewrite inputParser_plain in Hr by (intros t Ht; by apply Hpre).
  rewrite Hprop in Hr.
  assert (Hnov : ∀ t, t ∈ pre → isVersionToken t = false)
    by (intros t Ht; apply Hpre; by right).
  assert (Hgo : ∀ bad m,
             isVersionToken bad = false → isHelpToken bad = false →
             resolveFlag bad commandConf cmd = ExitError m →
             inputParser Number (cmd :: pre ++ bad :: post) cliConf
             = ExitError m).
  { intros bad m Hbv Hbh Hbad.
    assert (Hall : ∀ t, t ∈ bad :: post →
                        isVersionToken t = false ∧ isHelpToken t = false).
    { intros t [->|Ht]%elem_of_cons; [done | by apply Hpost]. }
    rewrite inputParser_plain
      by (apply not_reserved_app; intros t Ht;
          first [by apply Hpre | by apply Hall]).
    rewrite Hprop, (parseTokens_app _ _ _ _ _ _ _ _ Hnov Hr).
    cbn [parseTokens]. by rewrite Hbv, Hbad. }
  assert (Hreserved : ∀ t, t ≠ "--version" → t ≠ "-v" →
                           isVersionToken t = false).
  { intros t H1 H2. unfold isVersionToken.
    by rewrite (proj2 (streq_false _ _) H1), (proj2 (streq_false _ _) H2). }
  assert (Hreserved' : ∀ t, t ≠ "--help" → t ≠ "-h" → isHelpToken t = false).
  { intros t H1 H2. unfold isHelpToken.
    by rewrite (proj2 (streq_false _ _) H1), (proj2 (streq_false _ _) H2). }
  split; [|split; [|split]].
  - intros Hx Hv Hh Hdecl. apply Hgo.
    + apply Hreserved; [done|]. destruct x; discriminate.
    + apply Hreserved'; [done|]. destruct x; discriminate.
    + unfold resolveFlag, hasFlag, checkFlagNotEempty.
      rewrite (startsWith_app "--" x).
      change (slice 2 ("--" +:+ x)) with x.
      rewrite (proj2 (streq_false _ _) Hx). jsimpl.
      destruct (includes (Object_keys (cmd_flags commandConf)) x) eqn:E;
        [by apply includes_elem_of in E|]. done.
  - intros Hx Hdash Hv Hh Hmap. apply Hgo.
    + apply Hreserved; [|done]. intros H.
      assert (x = "-version") as -> by (injection H as H'; exact H').
      discriminate.
    + apply Hreserved'; [|done]. intros H.
      assert (x = "-help") as -> by (injection H as H'; exact H').
      discriminate.
    + unfold resolveFlag, hasFlag, hasAliasFlag, checkFlagNotEempty.
      change (startsWith ("-" +:+ x) "--") with (startsWith x "-").
      rewrite Hdash. jsimpl. rewrite streq_refl.
      rewrite (startsWith_app "-" x).
      change (slice 1 ("-" +:+ x)) with x.
      rewrite (proj2 (streq_false _ _) Hx). jsimpl. by rewrite Hmap.
  - by apply Hgo.
  - by apply Hgo.
Qed.

Lemma unknown_flag_rejected_witness :
  inputParser decimalNumber ("build" :: ["app"] ++ ("--" +:+ "fast") :: ["x"])
    buildConf
  = ExitError ("The flag " +:+ "fast" +:+ " is not a valid flag").
Proof.
  refine (proj1 (unknown_flag_rejected decimalNumber buildConf buildCommand
                   "build" ["app"] ["x"] "fast"
                   {| success := true; action := ActCommand; output := "";
                      command := Some {| name := "build"; args := ["app"];
                                         flags := ∅ |} |} _ _ _ _)
            _ _ _ _).
  - intros t Ht.
    repeat (apply elem_of_cons in Ht as [->|Ht]; [split; reflexivity|]).
    by apply not_elem_of_nil in Ht.
  - intros t Ht.
    repeat (apply elem_of_cons in Ht as [->|Ht]; [split; reflexivity|]).
    by apply not_elem_of_nil in Ht.
  - reflexivity.
  - vm_compute. reflexivity.
  - discriminate.
  - discriminate.
  - discriminate.
  - intros Hin.
    repeat (apply elem_of_cons in Hin as [Hin|Hin]; [discriminate|]).
    by apply not_elem_of_nil in Hin.
Defined.

(** ** When the version and the global help are answered *)

Lemma isHelpToken_true (h : string) :
  isHelpToken h = true → h = "--help" ∨ h = "-h".
Proof.
  unfold isHelpToken. intros [H|H]%orb_true_iff; apply streq_true in H; auto.
Qed.

Lemma isHelpToken_not_version (h : string) :
  isHelpToken h = true → isVersionToken h = false.
Proof. by intros [->| ->]%isHelpToken_true. Qed.

(** When [isVersion] answers [false] the result is not the version. *)
Lemma inputParser_version_false (Number : string → number)
    (cliConf : CliConfType) (inputCliArgs : list string) :
  isVersion inputCliArgs = Ret false →
  inputParser Number inputCliArgs cliConf ≠ Ret (versionResult cliConf).
Proof.
  intros Hv Hr.
  destruct (inputParser_Ret _ _ _ _ Hr)
    as [[Hv' _]|(_ & isHelpe & _ & [[_ H]|(cmd & cliArgs & cc & Hl & _ & Hs)])];
    [congruence | discriminate |].
  assert (Hnov : ∀ t, t ∈ cliArgs → isVersionToken t = false).
  { intros t Ht. apply (isVersion_false_tokens _ Hv).
    apply (afterHelp_subseteq isHelpe). rewrite Hl. by right. }
  destruct (parseTokens_shape _ _ _ _ _ _ _ Hnov Hs)
    as (_ & _ & _ & c & Hc & _). discriminate.
Qed.

(** X14.  [inputParser] answers with the version exactly when the first
    token is [--version], whatever follows it, or the list is the single
    token [-v]; the configuration plays no part in it. *)
Theorem version_answer_iff (Number : string → number) (cliConf : CliConfType)
    (inputCliArgs : list string) :
  inputParser Number inputCliArgs cliConf = Ret (versionResult cliConf)
  ↔ (∃ rest, inputCliArgs = "--version" :: rest) ∨ inputCliArgs = ["-v"].
Proof.
  split.
  - intros Hr.
    destruct (isVersion_cases inputCliArgs)
      as [[_ (first & rest & -> & [->|[-> ->]])]|[[Hf _]|Hf]];
      [eauto | eauto | |].
    + by apply (inputParser_version_false Number cliConf) in Hf.
    + unfold inputParser in Hr. rewrite Hf in Hr. discriminate.
  - intros [[rest ->]| ->]; unfold inputParser; by rewrite ?streq_refl.
Qed.

Lemma isArgsIncludeHelpFlag_loop_outcome0 (l : list string) :
  isArgsIncludeHelpFlag l
  = match occurrences isHelpToken l with
    | 0 => Ret false
    | 1 => Ret true
    | _ => ExitError helpAloneMessage
    end.
Proof. apply (isArgsIncludeHelpFlag_loop_outcome l false). Qed.

(** X15.  [inputParser] answers with the global help, the result that
    carries no command and has [success] false, exactly on three shapes of
    the argument list: the empty list, a help flag alone, and a help flag
    followed by one token that is no reserved flag, a token that
    [removeHelpFlag] drops with the flag.  A help flag after the first
    token never gives the global help. *)
Theorem global_help_iff (Number : string → number) (cliConf : CliConfType)
    (inputCliArgs : list string) :
  inputParser Number inputCliArgs cliConf = Ret (globalHelpResult cliConf)
  ↔ inputCliArgs = []
    ∨ ∃ h, isHelpToken h = true
        ∧ (inputCliArgs = [h]
           ∨ ∃ x, inputCliArgs = [h; x]
               ∧ isVersionToken x = false ∧ isHelpToken x = false).
Proof.
  split.
  - intros Hr.
    destruct (inputParser_Ret _ _ _ _ Hr)
      as [[_ H]|(Hv & isHelpe & Hh
                 & [[Hl _]|(cmd & cliArgs & cc & Hl & _ & Hs)])];
      [discriminate | |].
    + destruct isHelpe; [|by left]. right.
      rewrite isArgsIncludeHelpFlag_loop_outcome0 in Hh.
      destruct (occurrences isHelpToken inputCliArgs) as [|[|n]] eqn:Hocc;
        [discriminate | | discriminate].
      destruct (occurrences_one _ _ Hocc)
        as (before & h & after & -> & Hflag & Hbefore & Hafter).
      unfold afterHelp in Hl.
      rewrite (removeFirstAndNext_app _ _ _ Hbefore) in Hl.
      cbn [removeFirstAndNext] in Hl. rewrite Hflag in Hl.
      apply app_eq_nil in Hl as [-> Hafter']. exists h. split; [done|].
      destruct after as [|x [|y after]]; [by left | | discriminate].
      right. exists x. split; [done|]. split.
      * apply (isVersion_false_tokens _ Hv). right; left.
      * by apply Forall_inv in Hafter.
    + assert (Hnov : ∀ t, t ∈ cliArgs → isVersionToken t = false).
      { intros t Ht. apply (isVersion_false_tokens _ Hv).
        apply (afterHelp_subseteq isHelpe). rewrite Hl. by right. }
      destruct (parseTokens_shape _ _ _ _ _ _ _ Hnov Hs) as (Hsucc & _).
      discriminate.
  - intros [->|(h & Hflag & [->|(x & -> & Hxv & Hxh)])]; [done | |].
    + rewrite inputParser_eq, isVersion_no_token.
      2:{ intros t ->%list_elem_of_singleton.
          by apply isHelpToken_not_version. }
      jsimpl. rewrite isArgsIncludeHelpFlag_loop_outcome0.
      rewrite occurrences_cons, Hflag. cbn. by rewrite Hflag.
    + rewrite inputParser_eq, isVersion_no_token.
      2:{ intros t [->|[->|[]%elem_of_nil]%elem_of_cons]%elem_of_cons;
            [by apply isHelpToken_not_version | done]. }
      jsimpl. rewrite isArgsIncludeHelpFlag_loop_outcome0.
      rewrite !occurrences_cons, Hflag, Hxh. cbn. by rewrite Hflag.
Qed.

(** ** The help of a command *)



(** ** The whole program, from the process arguments *)

Lemma isConfigToken_dash (t : string) :
  isConfigToken t = true → startsWith t "-" = true.
Proof.
  unfold isConfigToken.
  by intros [->%streq_true| ->%streq_true]%orb_true_iff.
Qed.

(** The presence check passes on a list that holds the flag followed by a
    value, when no later token is the flag. *)
Lemma checkConfFlag_split (before after : list string) (c value : string) :
  isConfigToken c = true →
  Forall (λ t, isConfigToken t = false) (value :: after) →
  checkConfFlag (before ++ c :: value :: after) = Ret tt.
Proof.
  intros Hc Hafter. unfold checkConfFlag. rewrite checkConfFlag_loop_outcome0.
  assert (Hex : existsb isConfigToken (before ++ c :: value :: after) = true).
  { rewrite existsb_app. simpl. rewrite Hc. apply orb_true_r. }
  assert (Hlast : ∃ a, last (before ++ c :: value :: after) = Some a
                       ∧ isConfigToken a = false).
  { change (before ++ c :: value :: after)
      with (before ++ [c] ++ value :: after).
    rewrite app_assoc.
    destruct (last (value :: after)) as [a|] eqn:Ha;
      [|by apply last_None in Ha].
    exists a. split.
    - apply last_Some in Ha as [l' Hl']. rewrite Hl', app_assoc.
      apply last_snoc.
    - apply last_Some_elem_of in Ha.
      by eapply Forall_forall in Hafter. }
  destruct Hlast as (a & -> & ->). by rewrite Hex.
Qed.

(** The process never ends with a native exception once the configuration
    is read. *)
Lemma run_not_Uncaught (Number : string → number) (cliConf : CliConfType)
    (inputCliArgs : list string) :
  run Number cliConf inputCliArgs ≠ Uncaught.
Proof.
  destruct (inputParser Number inputCliArgs cliConf) as [r|m|] eqn:Hr.
  - destruct (run_Ret _ _ _ _ Hr)
      as [[_ ->]|[[_ ->]|(_ & _ & _ & r' & -> & _)]]; done.
  - unfold run. by rewrite Hr.
  - by apply inputParser_no_TypeError in Hr.
Qed.

(** X17.  The program ends with an uncaught native exception only from the
    validation of the configuration: the presence check has then passed,
    the extraction has found a text, [JSON5.parse] has read it, and
    [cliConfParser] has raised while reading a field of the value (a [null]
    where an object is expected).  Neither the extraction scan, which the
    presence check guards, nor the argument parser, nor the help texts end
    the program that way. *)
Theorem uncaught_only_from_validation (Number : string → number)
    (JSON5_parse : string → option jsval) (cliArgs : list string) :
  main Number JSON5_parse cliArgs = Uncaught →
  checkConfFlag cliArgs = Ret tt
  ∧ ∃ cliConfig cliConfObj,
      extractLocator cliArgs = Ret cliConfig
      ∧ JSON5_parse cliConfig = Some cliConfObj
      ∧ validateConf cliConfObj = TypeError.
Proof.
  intros Hmain. pose proof (main_cases Number JSON5_parse cliArgs) as Hcases.
  destruct (checkConfFlag cliArgs) as [[]| |] eqn:Hcheck.
  - split; [done|]. jsimpl_in Hcases.
    unfold cliConfParser in Hcases.
    destruct (extractLocator cliArgs) as [cliConfig| |] eqn:Hloc;
      jsimpl_in Hcases.
    + exists cliConfig. destruct (JSON5_parse cliConfig) as [obj|] eqn:Hparse;
        [|congruence].
      exists obj. split; [done|]. split; [done|].
      destruct (validateConf obj) as [[]| |] eqn:Hv; jsimpl_in Hcases;
        [|congruence|done].
      destruct Hcases as (conf & _ & Hrun). rewrite Hrun in Hmain.
      by apply run_not_Uncaught in Hmain.
    + congruence.
    + exfalso. unfold extractLocator in Hloc.
      destruct (locatorScan cliArgs cliArgs 0 "") as [t| |] eqn:Hscan;
        jsimpl_in Hloc; [by destruct (streq t "") | done |].
      apply (locatorScan_TypeError [] cliArgs "") in Hscan.
      apply checkConfFlag_loop_outcome_check in Hscan. congruence.
  - jsimpl_in Hcases. congruence.
  - jsimpl_in Hcases. exfalso. clear Hcases Hmain.
    unfold checkConfFlag in Hcheck. rewrite checkConfFlag_loop_outcome0 in Hcheck.
    destruct (last cliArgs) as [a|]; [|done].
    destruct (isConfigToken a); [done|]. jsimpl_in Hcheck.
    by destruct (existsb isConfigToken cliArgs).
Qed.

Lemma uncaught_only_from_validation_witness :
  checkConfFlag ["--config"; "null"] = Ret tt
  ∧ ∃ cliConfig cliConfObj,
      extractLocator ["--config"; "null"] = Ret cliConfig
      ∧ (if streq cliConfig "null" then Some JNull else None)
        = Some cliConfObj
      ∧ validateConf cliConfObj = TypeError.
Proof.
  apply (uncaught_only_from_validation decimalNumber
           (λ text, if streq text "null" then Some JNull else None)
           ["--config"; "null"]).
  reflexivity.
Defined.

(** X18.  With one [--config]/[-c] followed by a value that does not start
    with a dash and is not empty, the place of the flag among the arguments
    does not matter: the value is the text given to [JSON5.parse], and when
    the configuration is valid the program is [run] on the tokens before
    and after the pair, in their order.  A text that does not parse ends
    the program with status 1 and "Invalid config", and a failed validation
    with status 1 and its message. *)
Theorem main_config_anywhere (Number : string → number)
    (JSON5_parse : string → option jsval) (before after : list string)
    (c value : string) :
  isConfigToken c = true →
  Forall (λ t, isConfigToken t = false) before →
  Forall (λ t, isConfigToken t = false) after →
  startsWith value "-" = false →
  value ≠ "" →
  match JSON5_parse value with
  | None =>
      main Number JSON5_parse (before ++ c :: value :: after)
      = Exit 1 (Failure "Invalid config")
  | Some cliConfObj =>
      match validateConf cliConfObj with
      | Ret _ =>
          ∃ cliConf, asCliConfType cliConfObj = Some cliConf
            ∧ main Number JSON5_parse (before ++ c :: value :: after)
              = run Number cliConf (before ++ after)
      | ExitError message =>
          main Number JSON5_parse (before ++ c :: value :: after)
          = Exit 1 (Failure message)
      | TypeError =>
          main Number JSON5_parse (before ++ c :: value :: after) = Uncaught
      end
  end.
Proof.
  intros Hc Hbefore Hafter Hdash Hvalue.
  assert (Hvc : isConfigToken value = false).
  { destruct (isConfigToken value) eqn:E; [|done].
    apply isConfigToken_dash in E. congruence. }
  assert (Hafter' : Forall (λ t, isConfigToken t = false) (value :: after))
    by (by constructor).
  pose proof (checkConfFlag_split before after c value Hc Hafter') as Hcheck.
  pose proof (extractLocator_split before after c value Hc Hbefore Hafter'
                Hcheck) as Hloc.
  rewrite Hdash in Hloc. simpl in Hloc.
  destruct (streq value "") eqn:E; [by apply streq_true in E|].
  pose proof (main_cases Number JSON5_parse (before ++ c :: value :: after))
    as Hcases.
  rewrite Hcheck in Hcases. jsimpl_in Hcases.
  unfold cliConfParser in Hcases. rewrite Hloc in Hcases. jsimpl_in Hcases.
  destruct (JSON5_parse value) as [obj|]; [|done].
  destruct (validateConf obj) as [[]| |]; jsimpl_in Hcases; [|done..].
  destruct Hcases as (conf & Hcast & Hrun). exists conf. split; [done|].
  rewrite Hrun. f_equal.
  rewrite removeConfFlag_spec, removeFirstAndNext_app by done.
  simpl. by rewrite Hc.
Qed.

Lemma main_config_anywhere_witness :
  ∃ cliConf, asCliConfType appJson = Some cliConf
    ∧ main decimalNumber
        (λ text, if streq text appText then Some appJson else None)
        (["init"] ++ "-c" :: appText :: ["-f"])
      = run decimalNumber cliConf (["init"] ++ ["-f"]).
Proof.
  apply (main_config_anywhere decimalNumber
           (λ text, if streq text appText then Some appJson else None)
           ["init"] ["-f"] "-c" appText).
  - reflexivity.
  - repeat constructor.
  - repeat constructor.
  - reflexivity.
  - discriminate.
Defined.

(** ** The values of the flags *)

Lemma flagsTyped_pushArg (Number : string → number) (commandConf : CommandType)
    (tokens : list string) (arg : string) (r : InputActionType) :
  flagsTyped Number commandConf tokens r →
  flagsTyped Number commandConf tokens (pushArg arg r).
Proof.
  intros Hr c k v Hc Hk. unfold pushArg in Hc. simpl in Hc.
  destruct (command r) as [c0|] eqn:Hc0; [|done]. simpl in Hc.
  simplify_eq. simpl in Hk. by eapply Hr.
Qed.

Lemma flagsTyped_setFlag (Number : string → number) (commandConf : CommandType)
    (tokens : list string) (flag : string) (flagConf : FlagConfig)
    (value : FlagValueType) (r : InputActionType) :
  prop (cmd_flags commandConf) flag = Some flagConf →
  valueOfKind Number tokens (flag_type flagConf) value →
  flagsTyped Number commandConf tokens r →
  flagsTyped Number commandConf tokens (setFlag flag value r).
Proof.
  intros Hp Hvalue Hr. unfold setFlag.
  destruct (streq flag "__proto__"); [exact Hr|].
  intros c k v Hc Hk. simpl in Hc.
  destruct (command r) as [c0|] eqn:Hc0; [|done]. simpl in Hc.
  simplify_eq. simpl in Hk.
  destruct (decide (k = flag)) as [->|Hne].
  - rewrite lookup_insert_eq in Hk. simplify_eq. eauto.
  - rewrite lookup_insert_ne in Hk by done. by eapply Hr.
Qed.

Lemma parseTokens_typed (Number : string → number) (cliConf : CliConfType)
    (commandConf : CommandType) (cmd : string) (tokens : list string) :
  ∀ ts r r', ts ⊆ tokens →
    flagsTyped Number commandConf tokens r →
    parseTokens Number cliConf commandConf cmd ts r = Ret r' →
    flagsTyped Number commandConf tokens r'.
Proof.
  assert (H : ∀ n ts, length ts ≤ n → ts ⊆ tokens → ∀ r r',
             flagsTyped Number commandConf tokens r →
             parseTokens Number cliConf commandConf cmd ts r = Ret r' →
             flagsTyped Number commandConf tokens r').
  { induction n as [|n IH]; intros ts Hn Hsub r r' Hr Hparse.
    { destruct ts; [|simpl in Hn; lia]. simpl in Hparse. by simplify_eq. }
    destruct ts as [|arg rest]; [simpl in Hparse; by simplify_eq|].
    assert (Hrest : rest ⊆ tokens) by (intros x Hx; apply Hsub; by right).
    simpl in Hn. cbn [parseTokens] in Hparse.
    destruct (isVersionToken arg).
    { by simplify_eq. }
    destruct (resolveFlag arg commandConf cmd) as [flag| |];
      jsimpl_in Hparse; [|done|done].
    destruct (streq flag "").
    { eapply (IH rest); [lia | done | | exact Hparse].
      by apply flagsTyped_pushArg. }
    destruct (prop (cmd_flags commandConf) flag) as [flagConf|] eqn:Hprop;
      [|done].
    destruct (flag_type flagConf) eqn:Hkind, rest as [|value rest'];
      try done.
    - eapply (IH rest'); [simpl in Hn; lia | | | exact Hparse].
      + intros x Hx. apply Hrest. by right.
      + eapply flagsTyped_setFlag; [done | | done]. rewrite Hkind.
        exists value. split; [|done]. apply Hrest. left.
    - eapply (IH rest'); [simpl in Hn; lia | | | exact Hparse].
      + intros x Hx. apply Hrest. by right.
      + eapply flagsTyped_setFlag; [done | | done]. rewrite Hkind.
        exists value. split; [|done]. apply Hrest. left.
    - eapply (IH []); [simpl; lia | | | exact Hparse].
      + intros x Hx. inversion Hx.
      + eapply flagsTyped_setFlag; [done | | done]. by rewrite Hkind.
    - eapply (IH (value :: rest')); [simpl in *; lia | done | |exact Hparse].
      eapply flagsTyped_setFlag; [done | | done]. by rewrite Hkind. }
  intros ts r r' Hsub. by eapply (H (length ts) ts).
Qed.

(** X19.  Every flag of a result has a value of the kind that the
    configuration declares for it: [true] for a flag of type boolean, a
    token of the argument list for a flag of type string, and [Number] of a
    token of the list for a flag of type number.  No flag of type boolean
    is ever stored as [false], and no text is stored for a flag of type
    number. *)
Theorem flag_values_typed (Number : string → number) (cliConf : CliConfType)
    (inputCliArgs : list string) (r : InputActionType) (c : CommandResult)
    (k : string) (v : FlagValueType) :
  inputParser Number inputCliArgs cliConf = Ret r →
  command r = Some c →
  flags c !! k = Some v →
  ∃ commandConf flagConf,
    prop (conf_commands cliConf) (name c) = Some commandConf
    ∧ prop (cmd_flags commandConf) k = Some flagConf
    ∧ match flag_type flagConf with
      | KBoolean => v = VBoolean true
      | KString => ∃ t, t ∈ inputCliArgs ∧ v = VString t
      | KNumber => ∃ t, t ∈ inputCliArgs ∧ v = VNumber (Number t)
      end.
Proof.
  intros Hr Hc Hk.
  destruct (inputParser_command _ _ _ _ Hr)
    as [->|[->|(isHelpe & cmd & cliArgs & cc & _ & Hsub & Hp & Hs & Hnov)]];
    [discriminate | discriminate |].
  destruct (parseTokens_shape _ _ _ _ _ _ _ Hnov Hs)
    as (_ & _ & _ & c' & Hc' & Hname & _).
  assert (c' = c) as -> by congruence. subst cmd.
  assert (Htyped : flagsTyped Number cc inputCliArgs r).
  { eapply (parseTokens_typed Number cliConf cc (name c) inputCliArgs cliArgs);
      [done | | exact Hs].
    intros c0 k0 v0 [= <-]. simpl. by rewrite lookup_empty. }
  destruct (Htyped c k v Hc Hk) as (flagConf & Hprop & Hvalue).
  exists cc, flagConf. split; [done|]. split; [done|].
  unfold valueOfKind in Hvalue. by destruct (flag_type flagConf).
Qed.

Lemma flag_values_typed_witness :
  ∃ commandConf flagConf,
    prop (conf_commands appConf) "init" = Some commandConf
    ∧ prop (cmd_flags commandConf) "force" = Some flagConf
    ∧ match flag_type flagConf with
      | KBoolean => VBoolean true = VBoolean true
      | KString => ∃ t, t ∈ ["init"; "-f"] ∧ VBoolean true = VString t
      | KNumber =>
          ∃ t, t ∈ ["init"; "-f"] ∧ VBoolean true = VNumber (decimalNumber t)
      end.
Proof.
  apply (flag_values_typed decimalNumber appConf ["init"; "-f"]
           {| success := true; action := ActCommand; output := "";
              command := Some {| name := "init"; args := [];
                                 flags := {["force" := VBoolean true]} |} |}
           {| name := "init"; args := [];
              flags := {["force" := VBoolean true]} |}
           "force" (VBoolean true)).
  - vm_compute. reflexivity.
  - reflexivity.
  - vm_compute. reflexivity.
Defined.

(** ** The help texts *)

Lemma containsText_refl (x : string) : containsText x x.
Proof.
  exists "", "". change ("" +:+ x +:+ "") with (x +:+ "").
  induction x as [|a x IH]; [done|].
  change (String a x = String a (x +:+ "")). by rewrite <- IH.
Qed.

Lemma containsText_prefix (a b x : string) :
  containsText b x → containsText (a +:+ b) x.
Proof.
  intros (pre & post & ->). exists (a +:+ pre), post.
  by rewrite append_assoc.
Qed.

Lemma containsText_suffix (b c x : string) :
  containsText b x → containsText (b +:+ c) x.
Proof.
  intros (pre & post & ->). exists pre, (post +:+ c).
  by rewrite !append_assoc.
Qed.

Lemma endsWithText_prefix (a b x : string) :
  endsWithText b x → endsWithText (a +:+ b) x.
Proof. intros (pre & ->). exists (a +:+ pre). by rewrite append_assoc. Qed.

(** Every element of an array occurs in its [join]. *)
Lemma join_contains (sep x : string) (xs : list string) :
  x ∈ xs → containsText (join sep xs) x.
Proof.
  unfold join. induction xs as [|y [|z xs] IH].
  - by intros ?%elem_of_nil.
  - intros ->%list_elem_of_singleton. apply containsText_refl.
  - intros [->|Hx]%elem_of_cons.
    + change (containsText (y +:+ sep +:+ String.concat sep (z :: xs)) y).
      apply containsText_suffix, containsText_refl.
    + change (containsText (y +:+ sep +:+ String.concat sep (z :: xs)) x).
      do 2 apply containsText_prefix. by apply IH.
Qed.

(** X20.  The global help lists every command of the configuration: for
    each declared command its text holds the line made of the program
    name, the command name, two tabs and the description of the command;
    and the text ends with the version answer, [name@version]. *)
Theorem global_help_lists_commands (cliConf : CliConfType) (cmd : string)
    (commandConf : CommandType) :
  (cmd, commandConf) ∈ conf_commands cliConf →
  containsText (output (globalHelpResult cliConf))
    (conf_name cliConf +:+ " " +:+ cmd +:+ TAB +:+ TAB
     +:+ cmd_description commandConf)
  ∧ endsWithText (output (globalHelpResult cliConf)) (versionOutput cliConf).
Proof.
  intros Hcmd. cbn [globalHelpResult output]. unfold helpDoc. split.
  - do 7 apply containsText_prefix. apply containsText_suffix.
    apply join_contains, elem_of_app. left.
    apply list_elem_of_In, in_map_iff. exists (cmd, commandConf).
    split; [|by apply list_elem_of_In].
    unfold formatLine. cbn [fst snd]. by rewrite !append_assoc.
  - do 17 apply endsWithText_prefix. by exists "".
Qed.

Lemma global_help_lists_commands_witness :
  containsText (output (globalHelpResult buildConf))
    (conf_name buildConf +:+ " " +:+ "build" +:+ TAB +:+ TAB
     +:+ cmd_description buildCommand)
  ∧ endsWithText (output (globalHelpResult buildConf))
      (versionOutput buildConf).
Proof.
  apply (global_help_lists_commands buildConf "build" buildCommand).
  vm_compute. left.
Defined.

(** X21.  The help of a command names what the configuration declares for
    it: for a result that carries a declared command, [commandHelpDoc]
    returns a text that holds [<name>] for every argument of the command
    and, in its options section, the line of every flag: a tab, [--] and
    the flag name, two tabs and the description of the flag. *)
Theorem command_help_lists_declared (cliConf : CliConfType)
    (r : InputActionType) (c : CommandResult) (commandConf : CommandType) :
  command r = Some c →
  prop (conf_commands cliConf) (name c) = Some commandConf →
  ∃ doc, commandHelpDoc r cliConf = Ret doc
    ∧ (∀ a, a ∈ cmd_args commandConf →
         containsText doc ("<" +:+ arg_name a +:+ ">"))
    ∧ (∀ flagName flagConf, (flagName, flagConf) ∈ cmd_flags commandConf →
         containsText doc (TAB +:+ "--" +:+ flagName +:+ TAB +:+ TAB
                           +:+ flag_description flagConf)).
Proof.
  intros Hc Hp. unfold commandHelpDoc. rewrite Hc, Hp.
  eexists. split; [done|]. split.
  - intros a Ha. do 7 apply containsText_prefix. apply containsText_suffix.
    apply join_contains, list_elem_of_In, in_map_iff. exists a.
    split; [done | by apply list_elem_of_In].
  - intros flagName flagConf Hflag. do 13 apply containsText_prefix.
    apply containsText_suffix.
    assert (Hlen : (0 <? length
                      (map (λ kv : string * FlagConfig,
                              TAB +:+ "--" +:+ kv.1 +:+ TAB +:+ TAB
                              +:+ flag_description kv.2)
                         (cmd_flags commandConf))) = true).
    { destruct (cmd_flags commandConf); [by apply elem_of_nil in Hflag|].
      done. }
    rewrite Hlen. do 3 apply containsText_prefix. apply containsText_suffix.
    apply join_contains, list_elem_of_In, in_map_iff.
    exists (flagName, flagConf). split; [done | by apply list_elem_of_In].
Qed.

Lemma command_help_lists_declared_witness :
  ∃ doc, commandHelpDoc (initialResult true "build") buildConf = Ret doc
    ∧ (∀ a, a ∈ cmd_args buildCommand →
         containsText doc ("<" +:+ arg_name a +:+ ">"))
    ∧ (∀ flagName flagConf, (flagName, flagConf) ∈ cmd_flags buildCommand →
         containsText doc (TAB +:+ "--" +:+ flagName +:+ TAB +:+ TAB
                           +:+ flag_description flagConf)).
Proof.
  apply (command_help_lists_declared buildConf (initialResult true "build")
           {| name := "build"; args := []; flags := ∅ |} buildCommand);
    reflexivity.
Defined.

(** ** The help flag beside a command *)

(** The scan does not read the action: without version token, it returns
    the same result under any action. *)
Lemma parseTokens_setAction (Number : string → number) (cliConf : CliConfType)
    (commandConf : CommandType) (cmd : string) (a : Action) :
  ∀ ts r, (∀ t, t ∈ ts → isVersionToken t = false) →
    parseTokens Number cliConf commandConf cmd ts (setAction a r)
    = match parseTokens Number cliConf commandConf cmd ts r with
      | Ret r' => Ret (setAction a r')
      | ExitError m => ExitError m
      | TypeError => TypeError
      end.
Proof.
  assert (H : ∀ n ts, length ts ≤ n → ∀ r,
             (∀ t, t ∈ ts → isVersionToken t = false) →
             parseTokens Number cliConf commandConf cmd ts (setAction a r)
             = match parseTokens Number cliConf commandConf cmd ts r with
               | Ret r' => Ret (setAction a r')
               | ExitError m => ExitError m
               | TypeError => TypeError
               end).
  { induction n as [|n IH]; intros ts Hn r Hnov.
    { destruct ts; [done | simpl in Hn; lia]. }
    destruct ts as [|arg rest]; [done|].
    assert (Hrest : ∀ t, t ∈ rest → isVersionToken t = false)
      by (intros t Ht; apply Hnov; by right).
    simpl in Hn. cbn [parseTokens]. rewrite (Hnov arg) by left.
    destruct (resolveFlag arg commandConf cmd) as [flag| |]; jsimpl;
      [|done|done].
    destruct (streq flag "").
    { change (pushArg arg (setAction a r)) with (setAction a (pushArg arg r)).
      apply (IH rest); [lia | done]. }
    destruct (prop (cmd_flags commandConf) flag) as [flagConf|]; [|done].
    assert (Hset : ∀ v, setFlag flag v (setAction a r)
                        = setAction a (setFlag flag v r))
      by (intros v; unfold setFlag; by destruct (streq flag "__proto__")).
    destruct (flag_type flagConf), rest as [|value rest']; try done;
      rewrite Hset.
    - apply (IH rest'); [simpl in Hn; lia|].
      intros t Ht. apply Hrest. by right.
    - apply (IH rest'); [simpl in Hn; lia|].
      intros t Ht. apply Hrest. by right.
    - apply (IH []); [simpl; lia | done].
    - apply (IH (value :: rest')); [simpl in *; lia | done]. }
  intros ts r. by apply (H (length ts) ts).
Qed.

(** With one help flag, [inputParser] goes on with the list that
    [removeHelpFlag] returns. *)
Lemma inputParser_one_help_flag (Number : string → number)
    (cliConf : CliConfType) (inputCliArgs : list string) :
  (∀ t, t ∈ inputCliArgs → isVersionToken t = false) →
  occurrences isHelpToken inputCliArgs = 1 →
  inputParser Number inputCliArgs cliConf
  = match inputParser Number (removeHelpFlag inputCliArgs) cliConf with
    | Ret r => Ret (setAction ActHelp r)
    | ExitError m => ExitError m
    | TypeError => TypeError
    end.
Proof.
  intros Hnov Hone. rewrite removeHelpFlag_spec.
  set (l := removeFirstAndNext isHelpToken inputCliArgs).
  assert (Hsub : l ⊆ inputCliArgs) by apply removeFirstAndNext_subseteq.
  assert (Hnov' : ∀ t, t ∈ l → isVersionToken t = false)
    by (intros t Ht; by apply Hnov, Hsub).
  assert (Hnoh : ∀ t, t ∈ l → isHelpToken t = false).
  { destruct (occurrences_one _ _ Hone)
      as (before & h & after & Heq & Hflag & Hbefore & Hafter).
    unfold l. rewrite Heq, (removeFirstAndNext_app _ _ _ Hbefore).
    cbn [removeFirstAndNext]. rewrite Hflag.
    intros t [Ht|Ht]%elem_of_app.
    - by eapply Forall_forall in Hbefore.
    - eapply Forall_forall in Hafter; [exact Hafter|].
      destruct after; [by apply elem_of_nil in Ht | by right]. }
  rewrite !inputParser_eq.
  rewrite (isVersion_no_token _ Hnov), (isVersion_no_token _ Hnov'). jsimpl.
  rewrite !isArgsIncludeHelpFlag_loop_outcome0, Hone.
  rewrite (occurrences_zero _ _ Hnoh). jsimpl.
  change (afterHelp true inputCliArgs) with l.
  change (afterHelp false l) with l.
  destruct l as [|cmd rest]; [done|].
  destruct (prop (conf_commands cliConf) cmd) as [commandConf|]; [|done].
  change (initialResult true cmd)
    with (setAction ActHelp (initialResult false cmd)).
  apply parseTokens_setAction. intros t Ht. apply Hnov'. by right.
Qed.

(** X22.  With one help flag and no version token, [inputParser] answers
    as it does on the list without the help flag and without the token that
    follows it, with the same error if that parse fails and with the same
    result under the action [help] if it succeeds.  The token after the
    help flag is neither checked nor parsed; only a help flag in last
    position leaves every other token to the parse. *)
Theorem help_flag_drops_next_token (Number : string → number)
    (cliConf : CliConfType) (before after : list string) (h : string) :
  isHelpToken h = true →
  (∀ t, t ∈ before ++ after →
        isVersionToken t = false ∧ isHelpToken t = false) →
  inputParser Number (before ++ h :: after) cliConf
  = match inputParser Number (before ++ tail after) cliConf with
    | Ret r => Ret (setAction ActHelp r)
    | ExitError m => ExitError m
    | TypeError => TypeError
    end.
Proof.
  intros Hh Hother.
  assert (Hbefore : Forall (λ t, isHelpToken t = false) before).
  { apply Forall_forall. intros t Ht. apply Hother, elem_of_app. by left. }
  assert (Hafter : ∀ t, t ∈ after → isHelpToken t = false).
  { intros t Ht. apply Hother, elem_of_app. by right. }
  rewrite (inputParser_one_help_flag Number cliConf (before ++ h :: after)).
  - rewrite removeHelpFlag_spec, (removeFirstAndNext_app _ _ _ Hbefore).
    cbn [removeFirstAndNext]. by rewrite Hh.
  - intros t [Ht|[->|Ht]%elem_of_cons]%elem_of_app.
    + apply Hother, elem_of_app. by left.
    + by apply isHelpToken_not_version.
    + apply Hother, elem_of_app. by right.
  - unfold occurrences. rewrite filter_app, length_app.
    fold (occurrences isHelpToken before).
    fold (occurrences isHelpToken (h :: after)).
    rewrite occurrences_cons, Hh.
    rewrite (occurrences_zero _ after Hafter).
    rewrite (occurrences_zero _ before); [done|].
    intros t Ht. by eapply Forall_forall in Hbefore.
Qed.

Lemma help_flag_drops_next_token_witness :
  inputParser decimalNumber (["build"] ++ "--help" :: ["--bogus"; "a"])
    buildConf
  = match inputParser decimalNumber (["build"] ++ tail ["--bogus"; "a"])
            buildConf with
    | Ret r => Ret (setAction ActHelp r)
    | ExitError m => ExitError m
    | TypeError => TypeError
    end.
Proof.
  apply (help_flag_drops_next_token decimalNumber buildConf
           ["build"] ["--bogus"; "a"] "--help").
  - reflexivity.
  - intros t Ht.
    repeat (apply elem_of_cons in Ht as [->|Ht]; [split; reflexivity|]).
    by apply not_elem_of_nil in Ht.
Defined.

(** The token after the help flag is not checked: [--bogus] fails the
    parse of [build --bogus a] and is dropped from [build --help --bogus a],
    which is answered as [build a] under the action [help]. *)
Example help_flag_hides_next_token :
  inputParser decimalNumber ["build"; "--bogus"; "a"] buildConf
  = ExitError "The flag bogus is not a valid flag"
  ∧ inputParser decimalNumber ["build"; "--help"; "--bogus"; "a"] buildConf
    = Ret {| success := true; action := ActHelp; output := "";
             command := Some {| name := "build"; args := ["a"];
                                flags := ∅ |} |}.
Proof. split; vm_compute; reflexivity. Qed.
